(** * Batch-Text-Insertor: the fit-and-paint engine and the batch generator

    A shallow embedding of [src/utils/canvasUtils.ts]:
    [drawTextOnCanvas], [calculateOptimalFontSize], [buildFontString],
    [drawTextWithLetterSpacing], [drawTextDecoration], [generateImages] and
    [downloadAsZip]; and of what feeds them: the mouse handlers of
    [ImageCanvas], the handlers of [NamesInput], [handleGenerate] and the
    area handlers of the application, the bold button of [TextStylePanel]
    and [loadGoogleFont] of [src/utils/fontUtils.ts].

    Conventions of the embedding.
    - A JavaScript [number] is an exact rational ([Q]): finite, never
      rounded ([NaN], the infinities and the rounding of doubles are not
      modelled).  Comparisons are [Qle_bool], [Math.floor] is [Qfloor].
      Variables that only ever hold integers ([low], [mid],
      [optimalFontSize], loop indices) are [Z] or [nat].
    - Whether the binary search ends, and after how many passes, depends
      on the rounding of [low + high], [mid + 1] and [mid - 1].  For these
      two questions the loop is embedded a second time, in
      [DoubleSearch], with every arithmetic operation rounded to a
      double-precision number ([Double.round]).
    - A JavaScript string is a Rocq [string]; a character stands for one
      code unit, from 0 to 255.  Case mapping is that of these code units
      read as Latin-1 (see [upperChar]); white space is the ASCII white
      space and the no-break space (code 160).
    - The canvas context is a record: the graphics state that the code
      assigns to, the [save] stack, the current path, and two logs, one of
      the paint operations performed (each with the graphics state it was
      performed under) and one of the measurement requests made.  Property
      assignment is plain record update.
    - What the host platform computes (text measurement, image decoding,
      context creation, PNG encoding) is a field of [Host].
    - A handler of a component is a function from the state that it reads
      to the state that it leaves; what it gets from the platform (mouse
      coordinates, a fresh identifier, the clipboard, whether a style sheet
      loads) is an argument. *)

From Stdlib Require Import ZArith QArith Qround Qabs Qpower Bool List Lia Lqa.
From Stdlib Require SpecFloat.
From Stdlib Require Import Ascii String DecimalString DecimalPos Sorted.
Import ListNotations.

Local Open Scope Q_scope.

(** ** Numbers and strings of the host language *)

Module Math.
(** [Math.max(a, b)] on finite numbers. *)
Definition max (a b : Q) : Q := if Qle_bool a b then b else a.
(** [Math.floor(x)]. *)
Definition floor (x : Q) : Z := Qfloor x.
(** [Math.min(a, b)] and [Math.abs(x)] on finite numbers. *)
Definition min (a b : Q) : Q := if Qle_bool a b then a else b.
Definition abs (x : Q) : Q := Qabs x.
End Math.

(** Double-precision numbers, for the arithmetic whose rounding matters.
    A number is rounded to the nearest number with 53 significant bits, a
    tie going to the one whose last bit is 0, as IEEE 754 prescribes for
    the arithmetic of a JavaScript [number].  The exponent is not bounded
    here: overflow to an infinity, the subnormal numbers and [NaN] have no
    counterpart. *)
Module Double.

(** The exponent [e] of a number other than 0: [2^e <= |q| < 2^(e+1)]. *)
Definition exponent (q : Q) : Z :=
  let e0 := (Z.log2 (Z.abs (Qnum q)) - Z.log2 (Z.pos (Qden q)))%Z in
  if Qle_bool (2 ^ e0) (Qabs q) then e0 else (e0 - 1)%Z.

(** The unit in the last place: the distance between the doubles around [q]. *)
Definition ulp (q : Q) : Q := 2 ^ (exponent q - 52).

(** The nearest integer, the even one of the two when they are equally near. *)
Definition nearestEven (x : Q) : Z :=
  let f := Qfloor x in
  match Qcompare (x - inject_Z f) (1 # 2) with
  | Lt => f
  | Gt => (f + 1)%Z
  | Eq => if Z.even f then f else (f + 1)%Z
  end.

(** The double that a real result is rounded to. *)
Definition round (q : Q) : Q :=
  if Qeq_bool q 0 then 0 else Qred (inject_Z (nearestEven (q / ulp q)) * ulp q).

(** The number is a double: rounding leaves it as it is. *)
Definition isDouble (q : Q) : bool := Qeq_bool (round q) q.

(** The number that a finite datum of the Standard Library's specification
    of IEEE 754 stands for (in binary64, 53 bits of precision and a largest
    exponent of 1024). *)
Definition ofSpecFloat (x : SpecFloat.spec_float) : option Q :=
  match x with
  | SpecFloat.S754_zero _ => Some 0
  | SpecFloat.S754_finite s m e =>
      Some ((if s then -1 else 1) * inject_Z (Z.pos m) * 2 ^ e)
  | _ => None
  end.

End Double.

(** [String(n)] for an integer [n], as a template literal prints it. *)
Definition numberToString (n : Z) : string :=
  NilZero.string_of_int (Z.to_int n).

(** [s.length] as a number. *)
Definition strLength (s : string) : Q := inject_Z (Z.of_nat (String.length s)).

(** [s.split('')]: one single-character string per code unit. *)
Definition splitChars (s : string) : list string :=
  map (fun c => String c EmptyString) (list_ascii_of_string s).

Definition codeOf (c : ascii) : nat := nat_of_ascii c.

Definition inRange (lo hi : nat) (c : ascii) : bool :=
  (Nat.leb lo (codeOf c) && Nat.leb (codeOf c) hi)%bool.

Definition isUpper (c : ascii) : bool := inRange 65 90 c.
Definition isLower (c : ascii) : bool := inRange 97 122 c.
(** The regular-expression class [\d]. *)
Definition isDigit (c : ascii) : bool := inRange 48 57 c.
(** The regular-expression class [\w]: [[A-Za-z0-9_]]. *)
Definition isWordChar (c : ascii) : bool :=
  (isUpper c || isLower c || isDigit c || Nat.eqb (codeOf c) 95)%bool.
(** The regular-expression class [\s], which is also what [trim] strips:
    TAB, LF, VT, FF, CR, SPACE and NBSP. *)
Definition isWhiteSpace (c : ascii) : bool :=
  (inRange 9 13 c || Nat.eqb (codeOf c) 32 || Nat.eqb (codeOf c) 160)%bool.
(** The regular-expression class [.]: anything but a line terminator. *)
Definition isNotLineTerminator (c : ascii) : bool :=
  negb (Nat.eqb (codeOf c) 10 || Nat.eqb (codeOf c) 13)%bool.

(** The case mapping of single code units, read as Latin-1: the letters
    a-z and the accented letters 224-246 and 248-254 have their capitals 32
    below.  Three small letters have no capital that is one code unit of
    the alphabet: the sharp s (223), whose upper-case form is "SS" (see
    [upperUnits]), and the micro sign (181) and the y with diaeresis (255),
    whose capitals are U+039C and U+0178; texts with one of these two are
    outside the model for [toUpperCase], and the statements about it exclude
    them. *)
Definition upperChar (c : ascii) : ascii :=
  if (isLower c || inRange 224 246 c || inRange 248 254 c)%bool
  then ascii_of_nat (codeOf c - 32) else c.
Definition lowerChar (c : ascii) : ascii :=
  if (isUpper c || inRange 192 214 c || inRange 216 222 c)%bool
  then ascii_of_nat (codeOf c + 32) else c.

(** The upper-case form of one code unit: "SS" for the sharp s. *)
Definition upperUnits (c : ascii) : string :=
  if Nat.eqb (codeOf c) 223 then "SS"%string else String (upperChar c) EmptyString.

Fixpoint mapString (f : ascii -> ascii) (s : string) : string :=
  match s with
  | EmptyString => EmptyString
  | String c rest => String (f c) (mapString f rest)
  end.

(** [s.toUpperCase()] and [s.toLowerCase()]. *)
Fixpoint toUpperCase (s : string) : string :=
  match s with
  | EmptyString => EmptyString
  | String c rest => (upperUnits c ++ toUpperCase rest)%string
  end.
Definition toLowerCase (s : string) : string := mapString lowerChar s.

(** [s.replace(/\b\w/g, (c) => c.toUpperCase())].  A match of [\b\w] is one
    word character standing at a word boundary, that is, one whose
    predecessor in the original string is not a word character (or which is
    the first character).  [prevIsWord] tells whether the character before
    the current position is a word character.  The character matched is one
    of [[A-Za-z0-9_]], whose upper-case form is the one character
    [upperChar c] (see [toUpperCase_word_character]). *)
Fixpoint replaceWordStarts (prevIsWord : bool) (s : string) : string :=
  match s with
  | EmptyString => EmptyString
  | String c rest =>
      String (if (isWordChar c && negb prevIsWord)%bool then upperChar c else c)
             (replaceWordStarts (isWordChar c) rest)
  end.

Fixpoint dropWhileStr (p : ascii -> bool) (s : string) : string :=
  match s with
  | EmptyString => EmptyString
  | String c rest => if p c then dropWhileStr p rest else s
  end.

Fixpoint revString (s acc : string) : string :=
  match s with
  | EmptyString => acc
  | String c rest => revString rest (String c acc)
  end.

(** [s.trim()]: leading and trailing white space removed. *)
Definition trim (s : string) : string :=
  let lead := dropWhileStr isWhiteSpace s in
  revString (dropWhileStr isWhiteSpace (revString lead EmptyString)) EmptyString.

(** Truthiness of a string: [!s] holds exactly for the empty string. *)
Definition isEmptyString (s : string) : bool :=
  match s with EmptyString => true | String _ _ => false end.

(** ** Regular expressions

    The fragment of the host's backtracking regular expressions that the
    pattern of [drawTextOnCanvas] uses: literals, character classes,
    greedy [?] on an expression, greedy [+] and [*] on a class,
    concatenation and capturing groups.  Matching is by continuations,
    first success wins, greedy alternatives first. *)

Inductive Regex : Type :=
| Eps
| Lit (c : ascii)
| Class (p : ascii -> bool)
| Opt (r : Regex)
| Plus (p : ascii -> bool)
| Star (p : ascii -> bool)
| Seq (r1 r2 : Regex)
| Group (r : Regex).

(** The text consumed between [input] and its suffix [rest]. *)
Definition consumed (input rest : list ascii) : string :=
  string_of_list_ascii (firstn (List.length input - List.length rest) input).

Fixpoint starMatch {A : Type} (p : ascii -> bool) (input : list ascii)
  (k : list ascii -> option A) : option A :=
  match input with
  | c :: rest =>
      if p c then
        match starMatch p rest k with
        | Some r => Some r
        | None => k input
        end
      else k input
  | [] => k input
  end.

Fixpoint matchRegex {A : Type} (r : Regex) (input : list ascii) (caps : list string)
  (k : list ascii -> list string -> option A) : option A :=
  match r with
  | Eps => k input caps
  | Lit c =>
      match input with
      | c' :: rest => if Ascii.eqb c c' then k rest caps else None
      | [] => None
      end
  | Class p =>
      match input with
      | c' :: rest => if p c' then k rest caps else None
      | [] => None
      end
  | Opt r1 =>
      match matchRegex r1 input caps k with
      | Some x => Some x
      | None => k input caps
      end
  | Plus p =>
      match input with
      | c' :: rest => if p c' then starMatch p rest (fun rest' => k rest' caps) else None
      | [] => None
      end
  | Star p => starMatch p input (fun rest' => k rest' caps)
  | Seq r1 r2 => matchRegex r1 input caps (fun rest caps' => matchRegex r2 rest caps' k)
  | Group r1 =>
      matchRegex r1 input caps
        (fun rest caps' => k rest (caps' ++ [consumed input rest]))
  end.

(** [s.match(re)] for a pattern without the global flag: the leftmost match,
    as the array of the whole match followed by the captures in the order of
    their groups; [None] is JavaScript's [null]. *)
Fixpoint searchRegex (r : Regex) (input : list ascii) : option (list string) :=
  match matchRegex r input [] (fun rest caps => Some (consumed input rest :: caps)) with
  | Some m => Some m
  | None =>
      match input with
      | [] => None
      | _ :: rest => searchRegex r rest
      end
  end.

Definition strMatch (s : string) (r : Regex) : option (list string) :=
  searchRegex r (list_ascii_of_string s).

Definition seqs (rs : list Regex) : Regex := fold_right Seq Eps rs.

(** The pattern of [drawTextOnCanvas]:
    [(-?\d+)px\s+(-?\d+)px\s+(\d+)px\s+] followed by a last group that
    captures the rest of the line (any characters but line terminators). *)
Definition shadowPattern : Regex :=
  seqs [ Group (Seq (Opt (Lit "-")) (Plus isDigit)); Lit "p"; Lit "x"; Plus isWhiteSpace;
         Group (Seq (Opt (Lit "-")) (Plus isDigit)); Lit "p"; Lit "x"; Plus isWhiteSpace;
         Group (Plus isDigit); Lit "p"; Lit "x"; Plus isWhiteSpace;
         Group (Star isNotLineTerminator) ].

Definition digitValue (c : ascii) : Z := Z.of_nat (codeOf c - 48).

(** The value of the leading digits of [s], continuing from [acc]. *)
Fixpoint digitsValue (acc : Z) (s : string) : Z :=
  match s with
  | EmptyString => acc
  | String c rest => if isDigit c then digitsValue (10 * acc + digitValue c)%Z rest else acc
  end.

Definition parseDigits (s : string) : option Z :=
  match s with
  | EmptyString => None
  | String c _ => if isDigit c then Some (digitsValue 0 s) else None
  end.

(** [parseInt(s)] in radix 10: leading white space, an optional sign, then
    the longest run of digits; [None] is [NaN].  (The [0x] prefix is not
    modelled: the code applies [parseInt] to captures of [-?\d+] only.) *)
Definition parseInt (s : string) : option Z :=
  match dropWhileStr isWhiteSpace s with
  | EmptyString => None
  | String c rest =>
      if Ascii.eqb c "-" then option_map Z.opp (parseDigits rest)
      else if Ascii.eqb c "+" then parseDigits rest
      else parseDigits (String c rest)
  end.

(** ** Data model *)

Inductive TextDecoration := DecorationNone | Underline | LineThrough | Overline.
Inductive TextTransform := TransformNone | Uppercase | Lowercase | Capitalize.

Module TextStyle.
(** [interface TextStyle] of [src/types/index.ts] (the declaration is
    kept in [src/unnamed/part_000], lines 72 to 85), field by field.
    [fontWeight] and [fontStyle], unions of string literals there, are kept
    as the strings that the font string interpolates. *)
Record t := mk {
  fontFamily : string;
  fontSize : Q;
  fontWeight : string;
  fontStyle : string;
  color : string;
  textDecoration : TextDecoration;
  textTransform : TextTransform;
  letterSpacing : Q;
  lineHeight : Q;
  textShadow : string;
  opacity : Q
}.
End TextStyle.

Module TextArea.
(** [interface TextArea] of [src/types/index.ts] (the declaration is kept
    in [src/unnamed/part_000], lines 87 to 95). *)
Record t := mk {
  id : string;
  x : Q;
  y : Q;
  width : Q;
  height : Q;
  style : TextStyle.t
}.
End TextArea.

Record HTMLImageElement := { src : string }.
Record Blob := { mimeType : string; bytes : string }.

(** ** The 2D drawing context *)

Record GraphicsState := mkGraphicsState {
  globalAlpha : Q;
  font : string;
  fillStyle : string;
  strokeStyle : string;
  lineWidth : Q;
  textAlign : string;
  textBaseline : string;
  shadowOffsetX : Q;
  shadowOffsetY : Q;
  shadowBlur : Q;
  shadowColor : string
}.

Inductive PathCmd :=
| MoveTo (px py : Q)
| LineTo (px py : Q).

Inductive DrawOp :=
| DrawImage (img : HTMLImageElement) (dx dy dw dh : Q)
| FillText (g : GraphicsState) (text : string) (tx ty : Q)
| Stroke (g : GraphicsState) (path : list PathCmd).

Record Ctx := mkCtx {
  gstate : GraphicsState;
  saved : list GraphicsState;
  path : list PathCmd;
  painted : list DrawOp;
  measured : list (string * string)
}.

Record HTMLCanvasElement := { canvasWidth : Q; canvasHeight : Q; pixels : list DrawOp }.

(** What the platform provides.  [hostMeasureText f s] is the advance width
    of [s] in the font [f]; [hostLoadImage] is [None] when the image fails to
    decode; [hostGetContext i] tells whether the canvas created for the name
    at index [i] yields a 2D context; [hostToBlob] is [None] when the
    encoder hands back no blob. *)
Record Host := mkHost {
  hostMeasureText : string -> string -> Q;
  hostLoadImage : string -> option HTMLImageElement;
  hostGetContext : nat -> bool;
  hostToBlob : HTMLCanvasElement -> option Blob;
  hostToDataURL : HTMLCanvasElement -> string
}.

(** The state of a context that has just been created. *)
Definition initialState : GraphicsState :=
  {| globalAlpha := 1; font := "10px sans-serif"; fillStyle := "#000000";
     strokeStyle := "#000000"; lineWidth := 1; textAlign := "start";
     textBaseline := "alphabetic"; shadowOffsetX := 0; shadowOffsetY := 0;
     shadowBlur := 0; shadowColor := "rgba(0, 0, 0, 0)" |}.

Definition newContext : Ctx :=
  {| gstate := initialState; saved := []; path := []; painted := []; measured := [] |}.

Definition withState (f : GraphicsState -> GraphicsState) (ctx : Ctx) : Ctx :=
  mkCtx (f (gstate ctx)) (saved ctx) (path ctx) (painted ctx) (measured ctx).

Definition setGlobalAlpha (v : Q) : Ctx -> Ctx :=
  withState (fun g => mkGraphicsState v (font g) (fillStyle g) (strokeStyle g) (lineWidth g)
    (textAlign g) (textBaseline g) (shadowOffsetX g) (shadowOffsetY g) (shadowBlur g) (shadowColor g)).
Definition setFont (v : string) : Ctx -> Ctx :=
  withState (fun g => mkGraphicsState (globalAlpha g) v (fillStyle g) (strokeStyle g) (lineWidth g)
    (textAlign g) (textBaseline g) (shadowOffsetX g) (shadowOffsetY g) (shadowBlur g) (shadowColor g)).
Definition setFillStyle (v : string) : Ctx -> Ctx :=
  withState (fun g => mkGraphicsState (globalAlpha g) (font g) v (strokeStyle g) (lineWidth g)
    (textAlign g) (textBaseline g) (shadowOffsetX g) (shadowOffsetY g) (shadowBlur g) (shadowColor g)).
Definition setStrokeStyle (v : string) : Ctx -> Ctx :=
  withState (fun g => mkGraphicsState (globalAlpha g) (font g) (fillStyle g) v (lineWidth g)
    (textAlign g) (textBaseline g) (shadowOffsetX g) (shadowOffsetY g) (shadowBlur g) (shadowColor g)).
Definition setLineWidth (v : Q) : Ctx -> Ctx :=
  withState (fun g => mkGraphicsState (globalAlpha g) (font g) (fillStyle g) (strokeStyle g) v
    (textAlign g) (textBaseline g) (shadowOffsetX g) (shadowOffsetY g) (shadowBlur g) (shadowColor g)).
Definition setTextAlign (v : string) : Ctx -> Ctx :=
  withState (fun g => mkGraphicsState (globalAlpha g) (font g) (fillStyle g) (strokeStyle g) (lineWidth g)
    v (textBaseline g) (shadowOffsetX g) (shadowOffsetY g) (shadowBlur g) (shadowColor g)).
Definition setTextBaseline (v : string) : Ctx -> Ctx :=
  withState (fun g => mkGraphicsState (globalAlpha g) (font g) (fillStyle g) (strokeStyle g) (lineWidth g)
    (textAlign g) v (shadowOffsetX g) (shadowOffsetY g) (shadowBlur g) (shadowColor g)).
Definition setShadowOffsetX (v : Q) : Ctx -> Ctx :=
  withState (fun g => mkGraphicsState (globalAlpha g) (font g) (fillStyle g) (strokeStyle g) (lineWidth g)
    (textAlign g) (textBaseline g) v (shadowOffsetY g) (shadowBlur g) (shadowColor g)).
Definition setShadowOffsetY (v : Q) : Ctx -> Ctx :=
  withState (fun g => mkGraphicsState (globalAlpha g) (font g) (fillStyle g) (strokeStyle g) (lineWidth g)
    (textAlign g) (textBaseline g) (shadowOffsetX g) v (shadowBlur g) (shadowColor g)).
Definition setShadowBlur (v : Q) : Ctx -> Ctx :=
  withState (fun g => mkGraphicsState (globalAlpha g) (font g) (fillStyle g) (strokeStyle g) (lineWidth g)
    (textAlign g) (textBaseline g) (shadowOffsetX g) (shadowOffsetY g) v (shadowColor g)).
Definition setShadowColor (v : string) : Ctx -> Ctx :=
  withState (fun g => mkGraphicsState (globalAlpha g) (font g) (fillStyle g) (strokeStyle g) (lineWidth g)
    (textAlign g) (textBaseline g) (shadowOffsetX g) (shadowOffsetY g) (shadowBlur g) v).

(** Assigning the result of [parseInt] to a numeric property: the context
    ignores [NaN]. *)
Definition assignParsed (setter : Q -> Ctx -> Ctx) (v : option Z) (ctx : Ctx) : Ctx :=
  match v with
  | Some n => setter (inject_Z n) ctx
  | None => ctx
  end.

(** [ctx.save()] and [ctx.restore()]. *)
Definition save (ctx : Ctx) : Ctx :=
  mkCtx (gstate ctx) (gstate ctx :: saved ctx) (path ctx) (painted ctx) (measured ctx).
Definition restore (ctx : Ctx) : Ctx :=
  match saved ctx with
  | g :: stack => mkCtx g stack (path ctx) (painted ctx) (measured ctx)
  | [] => ctx
  end.

Definition paint (op : DrawOp) (ctx : Ctx) : Ctx :=
  mkCtx (gstate ctx) (saved ctx) (path ctx) (painted ctx ++ [op]) (measured ctx).

(** [ctx.measureText(text).width], in the font the context currently has. *)
Definition measureText (h : Host) (ctx : Ctx) (text : string) : Ctx * Q :=
  (mkCtx (gstate ctx) (saved ctx) (path ctx) (painted ctx)
         (measured ctx ++ [(font (gstate ctx), text)]),
   hostMeasureText h (font (gstate ctx)) text).

Definition fillText (text : string) (tx ty : Q) (ctx : Ctx) : Ctx :=
  paint (FillText (gstate ctx) text tx ty) ctx.
Definition drawImage (img : HTMLImageElement) (dx dy dw dh : Q) (ctx : Ctx) : Ctx :=
  paint (DrawImage img dx dy dw dh) ctx.
Definition beginPath (ctx : Ctx) : Ctx :=
  mkCtx (gstate ctx) (saved ctx) [] (painted ctx) (measured ctx).
Definition addToPath (c : PathCmd) (ctx : Ctx) : Ctx :=
  mkCtx (gstate ctx) (saved ctx) (path ctx ++ [c]) (painted ctx) (measured ctx).
Definition moveTo (px py : Q) : Ctx -> Ctx := addToPath (MoveTo px py).
Definition lineTo (px py : Q) : Ctx -> Ctx := addToPath (LineTo px py).
Definition stroke (ctx : Ctx) : Ctx := paint (Stroke (gstate ctx) (path ctx)) ctx.

(** ** The fit-and-paint engine *)

(** [buildFontString]: the CSS font string of a style at a given size. *)
Definition buildFontString (style : TextStyle.t) (fontSize : Z) : string :=
  (TextStyle.fontStyle style ++ " " ++ TextStyle.fontWeight style ++ " "
     ++ numberToString fontSize ++ "px " ++ TextStyle.fontFamily style)%string.

Definition minFontSize : Z := 4.
Definition padding : Q := 4.

(** The variables of the binary search of [calculateOptimalFontSize], with
    the context the loop assigns the font of. *)
Record SearchState := mkSearch {
  sctx : Ctx;
  low : Z;
  high : Q;
  optimalFontSize : Z
}.

(** One pass through [while (low <= high) { ... }]: [None] when the loop
    condition fails, else the state after the body.  The arithmetic is
    exact here: [low] and [mid] are integers of any size and [mid + 1]
    always exceeds [mid].  On doubles that holds below [2^53] only, so
    that this definition says which sizes are probed and which size is
    kept, not that the loop of the source ends; for that question see
    [DoubleSearch.searchStep]. *)
Definition searchStep (h : Host) (text : string) (maxWidth maxHeight : Q)
  (style : TextStyle.t) (st : SearchState) : option SearchState :=
  if Qle_bool (inject_Z (low st)) (high st) then
    let mid := Math.floor ((inject_Z (low st) + high st) / 2) in
    let ctx1 := setFont (buildFontString style mid) (sctx st) in
    let metrics := measureText h ctx1 text in
    let textWidth := snd metrics + TextStyle.letterSpacing style * (strLength text - 1) in
    let textHeight := inject_Z mid * TextStyle.lineHeight style in
    if (Qle_bool textWidth (maxWidth - padding) && Qle_bool textHeight (maxHeight - padding))%bool
    then Some (mkSearch (fst metrics) (mid + 1)%Z (high st) mid)
    else Some (mkSearch (fst metrics) (low st) (inject_Z mid - 1) (optimalFontSize st))
  else None.

(** The loop, run for at most [fuel] tests of its condition: [Some] of the
    state the loop exits in, [None] when the fuel does not suffice. *)
Fixpoint searchLoop (fuel : nat) (h : Host) (text : string) (maxWidth maxHeight : Q)
  (style : TextStyle.t) (st : SearchState) : option SearchState :=
  match fuel with
  | O => None
  | S fuel' =>
      match searchStep h text maxWidth maxHeight style st with
      | None => Some st
      | Some st' => searchLoop fuel' h text maxWidth maxHeight style st'
      end
  end.

(** The state the loop is entered in. *)
Definition searchInit (ctx : Ctx) (maxWidth maxHeight : Q) : SearchState :=
  mkSearch ctx minFontSize (Math.max maxHeight maxWidth) minFontSize.

(** A number of condition tests that the loop never exceeds
    (see [searchLoop_enough_fuel]). *)
Definition searchFuel (maxWidth maxHeight : Q) : nat :=
  S (Z.to_nat (Qfloor (Math.max maxHeight maxWidth) - minFontSize + 1)).

(** [calculateOptimalFontSize]: the context after the search and the size
    returned.  The [None] branch is never taken. *)
Definition calculateOptimalFontSize (h : Host) (ctx : Ctx) (text : string)
  (maxWidth maxHeight : Q) (style : TextStyle.t) : Ctx * Z :=
  match searchLoop (searchFuel maxWidth maxHeight) h text maxWidth maxHeight style
          (searchInit ctx maxWidth maxHeight) with
  | Some st => (sctx st, Z.max (optimalFontSize st) minFontSize)
  | None => (ctx, minFontSize)
  end.

(** The same loop on double-precision numbers: [low], [high] and every
    intermediate result are doubles, each operation of the source is
    followed by the rounding of its result.  [Math.floor] of a double is a
    whole number, kept as an integer; the comparisons are exact.  The
    width that the host returns is rounded as well, a [number] being a
    double. *)
Module DoubleSearch.

Record SearchState := mkSearch {
  sctx : Ctx;
  low : Q;
  high : Q;
  optimalFontSize : Z
}.

(** One pass through [while (low <= high) { ... }]. *)
Definition searchStep (h : Host) (text : string) (maxWidth maxHeight : Q)
  (style : TextStyle.t) (st : SearchState) : option SearchState :=
  if Qle_bool (low st) (high st) then
    let mid := Math.floor (Double.round (Double.round (low st + high st) / 2)) in
    let ctx1 := setFont (buildFontString style mid) (sctx st) in
    let metrics := measureText h ctx1 text in
    let textWidth :=
      Double.round
        (Double.round (snd metrics)
         + Double.round (TextStyle.letterSpacing style
                         * Double.round (strLength text - 1))) in
    let textHeight := Double.round (inject_Z mid * TextStyle.lineHeight style) in
    if (Qle_bool textWidth (Double.round (maxWidth - padding))
        && Qle_bool textHeight (Double.round (maxHeight - padding)))%bool
    then Some (mkSearch (fst metrics) (Double.round (inject_Z mid + 1)) (high st) mid)
    else Some (mkSearch (fst metrics) (low st) (Double.round (inject_Z mid - 1))
                 (optimalFontSize st))
  else None.

(** The loop, run for at most [fuel] tests of its condition: [None] when
    it has not exited by then. *)
Fixpoint searchLoop (fuel : nat) (h : Host) (text : string) (maxWidth maxHeight : Q)
  (style : TextStyle.t) (st : SearchState) : option SearchState :=
  match fuel with
  | O => None
  | S fuel' =>
      match searchStep h text maxWidth maxHeight style st with
      | None => Some st
      | Some st' => searchLoop fuel' h text maxWidth maxHeight style st'
      end
  end.

Definition searchInit (ctx : Ctx) (maxWidth maxHeight : Q) : SearchState :=
  mkSearch ctx (inject_Z minFontSize) (Math.max maxHeight maxWidth) minFontSize.

(** [calculateOptimalFontSize] on doubles: the context and the size
    returned when the loop exits within [fuel] tests of its condition. *)
Definition calculateOptimalFontSize (fuel : nat) (h : Host) (ctx : Ctx) (text : string)
  (maxWidth maxHeight : Q) (style : TextStyle.t) : option (Ctx * Z) :=
  match searchLoop fuel h text maxWidth maxHeight style
          (searchInit ctx maxWidth maxHeight) with
  | Some st => Some (sctx st, Z.max (optimalFontSize st) minFontSize)
  | None => None
  end.

(** The state after [n] passes; [None] when the loop has exited before. *)
Fixpoint passes (n : nat) (h : Host) (text : string) (maxWidth maxHeight : Q)
  (style : TextStyle.t) (st : SearchState) : option SearchState :=
  match n with
  | O => Some st
  | S n' =>
      match searchStep h text maxWidth maxHeight style st with
      | None => None
      | Some st' => passes n' h text maxWidth maxHeight style st'
      end
  end.

End DoubleSearch.

(** First loop of [drawTextWithLetterSpacing]:
    [totalWidth += ctx.measureText(char).width + letterSpacing]. *)
Fixpoint measureChars (h : Host) (characters : list string) (letterSpacing : Q)
  (ctx : Ctx) (totalWidth : Q) : Ctx * Q :=
  match characters with
  | [] => (ctx, totalWidth)
  | char :: rest =>
      let m := measureText h ctx char in
      measureChars h rest letterSpacing (fst m) (totalWidth + (snd m + letterSpacing))
  end.

(** Second loop of [drawTextWithLetterSpacing]: paint each character centred
    on the cursor, then advance the cursor. *)
Fixpoint paintChars (h : Host) (characters : list string) (ty letterSpacing : Q)
  (ctx : Ctx) (currentX : Q) : Ctx * Q :=
  match characters with
  | [] => (ctx, currentX)
  | char :: rest =>
      let m := measureText h ctx char in
      let charWidth := snd m in
      let ctx' := fillText char (currentX + charWidth / 2) ty (fst m) in
      paintChars h rest ty letterSpacing ctx' (currentX + (charWidth + letterSpacing))
  end.

(** The [totalWidth] that [drawTextWithLetterSpacing] computes. *)
Definition totalWidthOf (h : Host) (ctx : Ctx) (text : string) (letterSpacing : Q) : Ctx * Q :=
  let r := measureChars h (splitChars text) letterSpacing ctx 0 in
  (fst r, snd r - letterSpacing).

Definition drawTextWithLetterSpacing (h : Host) (ctx : Ctx) (text : string)
  (tx ty letterSpacing : Q) : Ctx :=
  let characters := splitChars text in
  let r := totalWidthOf h ctx text letterSpacing in
  let totalWidth := snd r in
  let currentX := tx - totalWidth / 2 in
  fst (paintChars h characters ty letterSpacing (fst r) currentX).

Definition drawTextDecoration (h : Host) (ctx : Ctx) (text : string)
  (tx ty : Q) (fontSize : Z) (style : TextStyle.t) : Ctx :=
  let metrics := measureText h ctx text in
  let textWidth := snd metrics + TextStyle.letterSpacing style * (strLength text - 1) in
  let startX := tx - textWidth / 2 in
  let endX := tx + textWidth / 2 in
  let ctx := setStrokeStyle (TextStyle.color style) (fst metrics) in
  let ctx := setLineWidth (Math.max 1 (inject_Z fontSize / 15)) ctx in
  let ctx := beginPath ctx in
  let ctx :=
    match TextStyle.textDecoration style with
    | Underline =>
        let underlineY := ty + inject_Z fontSize / 4 in
        lineTo endX underlineY (moveTo startX underlineY ctx)
    | LineThrough => lineTo endX ty (moveTo startX ty ctx)
    | Overline =>
        let overlineY := ty - inject_Z fontSize / 2 in
        lineTo endX overlineY (moveTo startX overlineY ctx)
    | DecorationNone => ctx
    end in
  stroke ctx.

(** The text after [style.textTransform] is applied. *)
Definition applyTextTransform (t : TextTransform) (text : string) : string :=
  match t with
  | Uppercase => toUpperCase text
  | Lowercase => toLowerCase text
  | Capitalize => replaceWordStarts false text
  | TransformNone => text
  end.

(** The shadow step: the four assignments when the pattern matches. *)
Definition applyTextShadow (textShadow : string) (ctx : Ctx) : Ctx :=
  if (negb (isEmptyString textShadow) && negb (String.eqb textShadow "none"))%bool then
    match strMatch textShadow shadowPattern with
    | Some shadowMatch =>
        let ctx := assignParsed setShadowOffsetX (parseInt (nth 1 shadowMatch EmptyString)) ctx in
        let ctx := assignParsed setShadowOffsetY (parseInt (nth 2 shadowMatch EmptyString)) ctx in
        let ctx := assignParsed setShadowBlur (parseInt (nth 3 shadowMatch EmptyString)) ctx in
        setShadowColor (nth 4 shadowMatch EmptyString) ctx
    | None => ctx
    end
  else ctx.

Definition drawTextOnCanvas (h : Host) (ctx : Ctx) (text : string) (area : TextArea.t)
  (scaleX scaleY : Q) : Ctx :=
  let style := TextArea.style area in
  let scaledX := TextArea.x area * scaleX in
  let scaledY := TextArea.y area * scaleY in
  let scaledWidth := TextArea.width area * scaleX in
  let scaledHeight := TextArea.height area * scaleY in
  let displayText := applyTextTransform (TextStyle.textTransform style) text in
  let found := calculateOptimalFontSize h ctx displayText scaledWidth scaledHeight style in
  let optimalSize := snd found in
  let ctx := save (fst found) in
  let ctx := setGlobalAlpha (TextStyle.opacity style) ctx in
  let ctx := setFont (buildFontString style optimalSize) ctx in
  let ctx := setFillStyle (TextStyle.color style) ctx in
  let ctx := setTextAlign "center" ctx in
  let ctx := setTextBaseline "middle" ctx in
  let ctx := applyTextShadow (TextStyle.textShadow style) ctx in
  let centerX := scaledX + scaledWidth / 2 in
  let centerY := scaledY + scaledHeight / 2 in
  let ctx :=
    if negb (Qeq_bool (TextStyle.letterSpacing style) 0)
    then drawTextWithLetterSpacing h ctx displayText centerX centerY (TextStyle.letterSpacing style)
    else fillText displayText centerX centerY ctx in
  let ctx :=
    match TextStyle.textDecoration style with
    | DecorationNone => ctx
    | _ => drawTextDecoration h ctx displayText centerX centerY optimalSize style
    end in
  restore ctx.

(** ** The batch generator *)

Record GeneratedImage := mkGenerated { name : string; dataUrl : string; blob : Blob }.

(** The outcome of an asynchronous function: its value, or the rejection. *)
Inductive Outcome (A : Type) : Type :=
| Resolved (a : A)
| Rejected (reason : string).
Arguments Resolved {A} a.
Arguments Rejected {A} reason.

(** [textAreas.forEach((area) => drawTextOnCanvas(ctx, name, area))] *)
Definition drawAreas (h : Host) (name : string) (textAreas : list TextArea.t) (ctx : Ctx) : Ctx :=
  fold_left (fun c area => drawTextOnCanvas h c name area 1 1) textAreas ctx.

(** The [for] loop of [generateImages] from index [i] on, where [rest] are
    the names from that index.  [W] is the state of the caller, which
    [onProgress] acts on; [total] is [names.length]. *)
Fixpoint generateLoop {W : Type} (h : Host) (img : HTMLImageElement)
  (imageWidth imageHeight : Q) (textAreas : list TextArea.t)
  (onProgress : option (Z -> Z -> W -> W)) (total : Z)
  (i : nat) (rest : list string) (results : list GeneratedImage) (w : W)
  : W * Outcome (list GeneratedImage) :=
  match rest with
  | [] => (w, Resolved results)
  | raw :: rest' =>
      let name := trim raw in
      if isEmptyString name then
        generateLoop h img imageWidth imageHeight textAreas onProgress total (S i) rest' results w
      else if negb (hostGetContext h i) then
        generateLoop h img imageWidth imageHeight textAreas onProgress total (S i) rest' results w
      else
        let ctx := drawImage img 0 0 imageWidth imageHeight newContext in
        let ctx := drawAreas h name textAreas ctx in
        let canvas := {| canvasWidth := imageWidth; canvasHeight := imageHeight;
                         pixels := painted ctx |} in
        match hostToBlob h canvas with
        | None => (w, Rejected "Failed to create blob")
        | Some blob =>
            let dataUrl := hostToDataURL h canvas in
            let results := results ++ [mkGenerated name dataUrl blob] in
            let w :=
              match onProgress with
              | Some callback => callback (Z.of_nat i + 1)%Z total w
              | None => w
              end in
            generateLoop h img imageWidth imageHeight textAreas onProgress total (S i) rest' results w
        end
  end.

Definition generateImages {W : Type} (h : Host) (imageDataUrl : string)
  (imageWidth imageHeight : Q) (names : list string) (textAreas : list TextArea.t)
  (onProgress : option (Z -> Z -> W -> W)) (w : W) : W * Outcome (list GeneratedImage) :=
  match hostLoadImage h imageDataUrl with
  | None => (w, Rejected "image failed to load")
  | Some img =>
      generateLoop h img imageWidth imageHeight textAreas onProgress
        (Z.of_nat (List.length names)) 0 names [] w
  end.

(** ** Vocabulary of the statements *)

(** The width and height that a candidate size is tested with. *)
Definition effectiveWidth (h : Host) (text : string) (style : TextStyle.t) (s : Z) : Q :=
  hostMeasureText h (buildFontString style s) text
  + TextStyle.letterSpacing style * (strLength text - 1).
Definition effectiveHeight (style : TextStyle.t) (s : Z) : Q :=
  inject_Z s * TextStyle.lineHeight style.

(** The fit condition of a candidate size [s]. *)
Definition fits (h : Host) (text : string) (maxWidth maxHeight : Q)
  (style : TextStyle.t) (s : Z) : bool :=
  (Qle_bool (effectiveWidth h text style s) (maxWidth - padding)
   && Qle_bool (effectiveHeight style s) (maxHeight - padding))%bool.

(** The candidate range: integers from 4 to the larger dimension. *)
Definition inSearchRange (maxWidth maxHeight : Q) (s : Z) : Prop :=
  (minFontSize <= s)%Z /\ inject_Z s <= Math.max maxHeight maxWidth.



(** What remains to be searched: the number of integers from [low] to [high]. *)
Definition searchMeasure (st : SearchState) : nat :=
  Z.to_nat (Qfloor (high st) - low st + 1).

(** The measurement requests that probing the sizes [cs] makes. *)
Definition probesOf (style : TextStyle.t) (text : string) (cs : list Z) : list (string * string) :=
  map (fun c => (buildFontString style c, text)) cs.

(** What every pass of the search keeps, for a search entered with the
    context [ctx0]: [low] and the size kept stay at 4 or above, [high] stays
    within the larger dimension, the size kept is 4 or a size of the range
    that fits, and every measurement made is a probe of the text at a size of
    the range. *)
Definition searchInv (h : Host) (text : string) (maxWidth maxHeight : Q)
  (style : TextStyle.t) (ctx0 : Ctx) (st : SearchState) : Prop :=
  (minFontSize <= low st)%Z /\
  high st <= Math.max maxHeight maxWidth /\
  (minFontSize <= optimalFontSize st)%Z /\
  (optimalFontSize st = minFontSize
   \/ (fits h text maxWidth maxHeight style (optimalFontSize st) = true
       /\ inSearchRange maxWidth maxHeight (optimalFontSize st))) /\
  saved (sctx st) = saved ctx0 /\ painted (sctx st) = painted ctx0 /\
  path (sctx st) = path ctx0 /\
  exists cs : list Z,
    measured (sctx st) = measured ctx0 ++ probesOf style text cs /\
    Forall (inSearchRange maxWidth maxHeight) cs.


(** The sum of a list of numbers. *)
Fixpoint sumQ (l : list Q) : Q :=
  match l with
  | [] => 0
  | q :: rest => q + sumQ rest
  end.

(** The measured widths of the characters of [text], one by one, in the
    font [f]. *)
Definition charWidths (h : Host) (f : string) (text : string) : list Q :=
  map (hostMeasureText h f) (splitChars text).

(** The paint operations that put the characters [chars] at the horizontal
    positions [xs], on the line [ty], under the graphics state [g]. *)
Definition glyphOps (g : GraphicsState) (chars : list string) (xs : list Q) (ty : Q)
  : list DrawOp :=
  map (fun p => FillText g (fst p) (snd p) ty) (combine chars xs).






(** The canvas that [generateImages] composes for a name: the source image
    at full size, then the name in every text area, at scale 1. *)
Definition renderCanvas (h : Host) (img : HTMLImageElement) (imageWidth imageHeight : Q)
  (textAreas : list TextArea.t) (name : string) : HTMLCanvasElement :=
  {| canvasWidth := imageWidth; canvasHeight := imageHeight;
     pixels := painted (drawAreas h name textAreas
                          (drawImage img 0 0 imageWidth imageHeight newContext)) |}.

(** The output record of a name whose canvas encodes to [blob]. *)
Definition recordOf (h : Host) (img : HTMLImageElement) (imageWidth imageHeight : Q)
  (textAreas : list TextArea.t) (name : string) (blob : Blob) : GeneratedImage :=
  mkGenerated name (hostToDataURL h (renderCanvas h img imageWidth imageHeight textAreas name)) blob.

(** A record is the output for its name: its blob and its encoded raster
    are those of the canvas composed for the name. *)
Definition isOutputOf (h : Host) (img : HTMLImageElement) (imageWidth imageHeight : Q)
  (textAreas : list TextArea.t) (r : GeneratedImage) : Prop :=
  hostToBlob h (renderCanvas h img imageWidth imageHeight textAreas (name r)) = Some (blob r)
  /\ dataUrl r = hostToDataURL h (renderCanvas h img imageWidth imageHeight textAreas (name r)).

(** The names with their indices, counted from [i]. *)
Definition indexedFrom (i : nat) (names : list string) : list (nat * string) :=
  combine (seq i (List.length names)) names.

(** A name is rendered when it is not blank after trimming and its canvas
    yields a context. *)
Definition isRendered (h : Host) (p : nat * string) : bool :=
  (negb (isEmptyString (trim (snd p))) && hostGetContext h (fst p))%bool.

(** The indices and trimmed names of the names that are rendered, in input
    order. *)
Definition renderedFrom (h : Host) (i : nat) (names : list string) : list (nat * string) :=
  map (fun p => (fst p, trim (snd p))) (filter (isRendered h) (indexedFrom i names)).
Definition renderedNames (h : Host) (names : list string) : list (nat * string) :=
  renderedFrom h 0 names.

(** The arguments of the calls of [onProgress] that the rendered names
    cause: the index plus one, and the number of names. *)
Definition progressCalls (h : Host) (names : list string) : list (Z * Z) :=
  map (fun p => ((Z.of_nat (fst p) + 1)%Z, Z.of_nat (List.length names))) (renderedNames h names).

(** Calling [onProgress], when there is one. *)
Definition notify {W : Type} (onProgress : option (Z -> Z -> W -> W)) (args : Z * Z) (w : W) : W :=
  match onProgress with
  | Some callback => callback (fst args) (snd args) w
  | None => w
  end.

(** A callback that records its arguments. *)
Definition logProgress (current total : Z) (log : list (Z * Z)) : list (Z * Z) :=
  log ++ [(current, total)].

(** Every canvas encodes to a blob. *)
Definition encodes (h : Host) : Prop :=
  forall canvas : HTMLCanvasElement, hostToBlob h canvas <> None.

(** A regular expression matches a prefix, with the captures it makes:
    the declarative reading of [matchRegex]. *)
Inductive Matches : Regex -> list ascii -> list string -> Prop :=
| MatchEps : Matches Eps [] []
| MatchLit (c : ascii) : Matches (Lit c) [c] []
| MatchClass (p : ascii -> bool) (c : ascii) :
    p c = true -> Matches (Class p) [c] []
| MatchOptSome (r : Regex) (pre : list ascii) (caps : list string) :
    Matches r pre caps -> Matches (Opt r) pre caps
| MatchOptNone (r : Regex) : Matches (Opt r) [] []
| MatchPlus (p : ascii -> bool) (c : ascii) (pre : list ascii) :
    p c = true -> Forall (fun a => p a = true) pre -> Matches (Plus p) (c :: pre) []
| MatchStar (p : ascii -> bool) (pre : list ascii) :
    Forall (fun a => p a = true) pre -> Matches (Star p) pre []
| MatchSeq (r1 r2 : Regex) (pre1 pre2 : list ascii) (caps1 caps2 : list string) :
    Matches r1 pre1 caps1 -> Matches r2 pre2 caps2 ->
    Matches (Seq r1 r2) (pre1 ++ pre2) (caps1 ++ caps2)
| MatchGroup (r : Regex) (pre : list ascii) (caps : list string) :
    Matches r pre caps -> Matches (Group r) pre (caps ++ [string_of_list_ascii pre]).

(** Takes apart the matches of concatenations, groups, literals and
    repetitions among the hypotheses. *)
Ltac invert_matches :=
  repeat match goal with
         | H : Matches (Seq _ _) _ _ |- _ => inversion H; subst; clear H
         | H : Matches (Group _) _ _ |- _ => inversion H; subst; clear H
         | H : Matches (Lit _) _ _ |- _ => inversion H; subst; clear H
         | H : Matches (Plus _) _ _ |- _ => inversion H; subst; clear H
         | H : Matches (Star _) _ _ |- _ => inversion H; subst; clear H
         | H : Matches Eps _ _ |- _ => inversion H; subst; clear H
         end.

(** A style with another [textShadow], and an area with another style. *)
Definition withTextShadow (textShadow : string) (style : TextStyle.t) : TextStyle.t :=
  TextStyle.mk (TextStyle.fontFamily style) (TextStyle.fontSize style)
    (TextStyle.fontWeight style) (TextStyle.fontStyle style) (TextStyle.color style)
    (TextStyle.textDecoration style) (TextStyle.textTransform style)
    (TextStyle.letterSpacing style) (TextStyle.lineHeight style) textShadow
    (TextStyle.opacity style).
Definition withStyle (style : TextStyle.t) (area : TextArea.t) : TextArea.t :=
  TextArea.mk (TextArea.id area) (TextArea.x area) (TextArea.y area)
    (TextArea.width area) (TextArea.height area) style.

(** The shadow part of a graphics state. *)
Definition shadowOf (g : GraphicsState) : Q * Q * Q * string :=
  (shadowOffsetX g, shadowOffsetY g, shadowBlur g, shadowColor g).

(** A paint operation of text or of a line was performed under the shadow
    [sh]. *)
Definition underShadow (sh : Q * Q * Q * string) (op : DrawOp) : Prop :=
  match op with
  | FillText g _ _ _ => shadowOf g = sh
  | Stroke g _ => shadowOf g = sh
  | DrawImage _ _ _ _ _ => True
  end.

(** The context in which [drawTextOnCanvas] reaches its shadow step: after
    the search, [save], and the assignments of opacity, font, fill colour
    and anchoring. *)
Definition paintSetup (h : Host) (ctx : Ctx) (text : string) (area : TextArea.t)
  (scaleX scaleY : Q) : Ctx :=
  let style := TextArea.style area in
  let displayText := applyTextTransform (TextStyle.textTransform style) text in
  let found := calculateOptimalFontSize h ctx displayText
                 (TextArea.width area * scaleX) (TextArea.height area * scaleY) style in
  setTextBaseline "middle"
    (setTextAlign "center"
       (setFillStyle (TextStyle.color style)
          (setFont (buildFontString style (snd found))
             (setGlobalAlpha (TextStyle.opacity style) (save (fst found)))))).

(** From the context [c] to the context [c'] nothing was painted but text
    and lines under the shadow [sh], and [c'] still has that shadow. *)
Definition paintsUnder (sh : Q * Q * Q * string) (c c' : Ctx) : Prop :=
  shadowOf (gstate c') = sh
  /\ exists ops : list DrawOp,
       painted c' = painted c ++ ops /\ Forall (underShadow sh) ops.

(** The paint operations [ops] put [displayText] on the canvas under the
    shadow [sh]: with a letter spacing of zero the text in one piece, and
    otherwise one glyph for each of its characters, all in one graphics
    state whose shadow is [sh]; after the text comes the decoration, which
    is nothing when the style has none and else one operation under the
    same shadow. *)
Definition paintsText (style : TextStyle.t) (displayText : string)
  (sh : Q * Q * Q * string) (ops : list DrawOp) : Prop :=
  exists (g : GraphicsState) (textOps decoration : list DrawOp),
    ops = textOps ++ decoration
    /\ shadowOf g = sh
    /\ (if Qeq_bool (TextStyle.letterSpacing style) 0
        then exists tx ty : Q, textOps = [FillText g displayText tx ty]
        else exists (xs : list Q) (ty : Q),
               List.length xs = String.length displayText
               /\ textOps = glyphOps g (splitChars displayText) xs ty)
    /\ match TextStyle.textDecoration style with
       | DecorationNone => decoration = []
       | _ => exists op : DrawOp, decoration = [op] /\ underShadow sh op
       end.

(** The [textShadow] string of two offsets, a blur and a colour, in the
    form that the style panel writes. *)
Definition shadowString (offsetX offsetY blur : Z) (color : string) : string :=
  (numberToString offsetX ++ "px " ++ numberToString offsetY ++ "px "
     ++ numberToString blur ++ "px " ++ color)%string.

(** The class [p] does not extend into [rest]. *)
Definition stopsAt (p : ascii -> bool) (rest : list ascii) : Prop :=
  match rest with
  | [] => True
  | c :: _ => p c = false
  end.

(** A colour text: on one line, with no white space in front. *)
Definition isColorText (color : string) : Prop :=
  Forall (fun a => isNotLineTerminator a = true) (list_ascii_of_string color)
  /\ stopsAt isWhiteSpace (list_ascii_of_string color).


(** The font size that a font string names: the number at its first digit. *)
Definition fontSizeOf (f : string) : Q :=
  match parseInt (dropWhileStr (fun c => negb (isDigit c)) f) with
  | Some n => inject_Z n
  | None => 10
  end.

(** A host whose fonts measure six tenths of the font size per character. *)
Definition linearHost : Host :=
  mkHost (fun f t => strLength t * (6 # 10) * fontSizeOf f)
         (fun url => Some {| src := url |}) (fun _ => true)
         (fun _ => Some {| mimeType := "image/png"; bytes := EmptyString |})
         (fun _ => "data:image/png"%string).

Definition defaultStyle : TextStyle.t :=
  TextStyle.mk "Arial" 24 "normal" "normal" "#000000" DecorationNone TransformNone
               0 (12 # 10) "none" 1.


Definition sampleNames : list string := ["Alice"; "  "; ""; "Bob"]%string.
Definition sampleArea : TextArea.t := TextArea.mk "area-1" 10 10 100 50 defaultStyle.

(** [linearHost], except that the canvas of the name at index [i] yields
    no context. *)
Definition noContextAt (i : nat) : Host :=
  mkHost (hostMeasureText linearHost) (hostLoadImage linearHost) (fun j => negb (Nat.eqb j i))
         (hostToBlob linearHost) (hostToDataURL linearHost).

(** ** Downloading the generated images *)

(** The link that [downloadAsZip] makes for an image. *)
Record DownloadLink := mkLink { href : string; download : string }.

(** What [downloadAsZip] does to the document. *)
Inductive DomEvent :=
| AppendChild (link : DownloadLink)
| Click (link : DownloadLink)
| RemoveChild (link : DownloadLink)
| RevokeObjectURL (url : string).

(** The file name of the image at [index]: its name, or ["image-"] and the
    index plus one when the name is empty, with the extension [".png"]. *)
Definition downloadName (image : GeneratedImage) (index : nat) : string :=
  ((if isEmptyString (name image)
    then "image-" ++ numberToString (Z.of_nat index + 1)
    else name image) ++ ".png")%string.

(** [images.forEach((image, index) => ...)] of [downloadAsZip], from
    [index] on.  [createObjectURL] is the host's [URL.createObjectURL]. *)
Fixpoint downloadFrom (createObjectURL : Blob -> string) (index : nat)
  (images : list GeneratedImage) : list DomEvent :=
  match images with
  | [] => []
  | image :: rest =>
      let link := mkLink (createObjectURL (blob image)) (downloadName image index) in
      [AppendChild link; Click link; RemoveChild link; RevokeObjectURL (href link)]
      ++ downloadFrom createObjectURL (S index) rest
  end.

Definition downloadAsZip (createObjectURL : Blob -> string) (images : list GeneratedImage)
  : list DomEvent :=
  downloadFrom createObjectURL 0 images.

(** ** The canvas editor

    [ImageCanvas] of [src/components/ImageCanvas/ImageCanvas.tsx]: the
    rectangles are drawn, moved and resized with the mouse, in canvas
    coordinates, which are the image coordinates times [scale].  The state
    that the handlers read and write is a record; each handler sees the state
    that the handler before it left.  The text areas and the selection belong
    to the application, which hands [ImageCanvas] its own setters. *)

Module UploadedImage.
Record t := mk { dataUrl : string; width : Q; height : Q }.
End UploadedImage.

(** A rectangle [{ x, y, width, height }]. *)
Module Rect.
Record t := mk { x : Q; y : Q; width : Q; height : Q }.
End Rect.

(** [a < b] on numbers. *)
Definition Qlt_bool (a b : Q) : bool := negb (Qle_bool b a).

(** Whether a value that is a string or [null] counts as true. *)
Definition truthy (s : option string) : bool :=
  match s with
  | Some text => negb (isEmptyString text)
  | None => false
  end.

(** [s.includes(sub)] *)
Definition includes (s sub : string) : bool :=
  match String.index 0 sub s with
  | Some _ => true
  | None => false
  end.

Module ImageCanvas.

Record DragState := mkDragState {
  isDragging : bool;
  isResizing : bool;
  startX : Q;
  startY : Q;
  areaStartX : Q;
  areaStartY : Q;
  areaStartWidth : Q;
  areaStartHeight : Q;
  resizeHandle : option string
}.

Definition HANDLE_SIZE : Q := 4.
Definition MIN_AREA_SIZE : Q := 20.

(** The drag state in which nothing is dragged or resized. *)
Definition idle : DragState := mkDragState false false 0 0 0 0 0 0 None.

Record State := mkState {
  textAreas : list TextArea.t;
  selectedAreaId : option string;
  scale : Q;
  isDrawing : bool;
  drawStart : option (Q * Q);
  currentRect : option Rect.t;
  dragState : DragState
}.

(** The scale that fits the image into the container and into six tenths
    of the window height, and never enlarges it. *)
Definition scaleToFit (containerWidth innerHeight : Q) (image : UploadedImage.t) : Q :=
  let maxHeight := innerHeight * (6 # 10) in
  let scaleX := containerWidth / UploadedImage.width image in
  let scaleY := maxHeight / UploadedImage.height image in
  Math.min (Math.min scaleX scaleY) 1.

(** The corners of the eight handles, in the order of the keys. *)
Definition getResizeHandles (area : Rect.t) : list (string * (Q * Q)) :=
  let halfHandle := HANDLE_SIZE / 2 in
  [("nw", (Rect.x area - halfHandle, Rect.y area - halfHandle));
   ("ne", (Rect.x area + Rect.width area - halfHandle, Rect.y area - halfHandle));
   ("sw", (Rect.x area - halfHandle, Rect.y area + Rect.height area - halfHandle));
   ("se", (Rect.x area + Rect.width area - halfHandle,
           Rect.y area + Rect.height area - halfHandle));
   ("n", (Rect.x area + Rect.width area / 2 - halfHandle, Rect.y area - halfHandle));
   ("s", (Rect.x area + Rect.width area / 2 - halfHandle,
          Rect.y area + Rect.height area - halfHandle));
   ("e", (Rect.x area + Rect.width area - halfHandle,
          Rect.y area + Rect.height area / 2 - halfHandle));
   ("w", (Rect.x area - halfHandle, Rect.y area + Rect.height area / 2 - halfHandle))]%string.

(** The area in canvas coordinates. *)
Definition scaledArea (scale : Q) (area : TextArea.t) : Rect.t :=
  Rect.mk (TextArea.x area * scale) (TextArea.y area * scale)
          (TextArea.width area * scale) (TextArea.height area * scale).

(** The test of a point against a rectangle, borders included. *)
Definition inside (px py : Q) (r : Rect.t) : bool :=
  (Qle_bool (Rect.x r) px && Qle_bool px (Rect.x r + Rect.width r)
   && Qle_bool (Rect.y r) py && Qle_bool py (Rect.y r + Rect.height r))%bool.

(** The loop runs from the last area to the first. *)
Definition findAreaAtPoint (st : State) (px py : Q) : option TextArea.t :=
  find (fun area => inside px py (scaledArea (scale st) area)) (rev (textAreas st)).

(** [textAreas.find((a) => a.id === selectedAreaId)] *)
Definition findSelected (st : State) : option TextArea.t :=
  find (fun a => match selectedAreaId st with
                 | Some selected => String.eqb (TextArea.id a) selected
                 | None => false
                 end) (textAreas st).

Definition findResizeHandle (st : State) (px py : Q) : option string :=
  if negb (truthy (selectedAreaId st)) then None
  else
    match findSelected st with
    | None => None
    | Some area =>
        let handles := getResizeHandles (scaledArea (scale st) area) in
        match find (fun entry =>
                      inside px py (Rect.mk (fst (snd entry)) (snd (snd entry))
                                            HANDLE_SIZE HANDLE_SIZE)) handles with
        | Some entry => Some (fst entry)
        | None => None
        end
    end.

Definition handleMouseDown (image : option UploadedImage.t) (px py : Q) (st : State) : State :=
  match image with
  | None => st
  | Some _ =>
      let handle := findResizeHandle st px py in
      match (if (truthy handle && truthy (selectedAreaId st))%bool
             then findSelected st else None) with
      | Some area =>
          mkState (textAreas st) (selectedAreaId st) (scale st)
                  (isDrawing st) (drawStart st) (currentRect st)
                  (mkDragState false true px py
                     (TextArea.x area) (TextArea.y area)
                     (TextArea.width area) (TextArea.height area) handle)
      | None =>
          match findAreaAtPoint st px py with
          | Some clickedArea =>
              mkState (textAreas st) (Some (TextArea.id clickedArea)) (scale st)
                      (isDrawing st) (drawStart st) (currentRect st)
                      (mkDragState true false px py
                         (TextArea.x clickedArea) (TextArea.y clickedArea)
                         (TextArea.width clickedArea) (TextArea.height clickedArea) None)
          | None =>
              mkState (textAreas st) None (scale st)
                      true (Some (px, py)) (Some (Rect.mk px py 0 0)) (dragState st)
          end
      end
  end.

(** The area that resizing makes of the selected area, for a mouse that
    has moved by [deltaX] and [deltaY] in image coordinates. *)
Definition resizeArea (ds : DragState) (deltaX deltaY : Q) (area : TextArea.t) : TextArea.t :=
  let handleIs (key : string) : bool :=
    match resizeHandle ds with
    | Some handle => String.eqb handle key
    | None => false
    end in
  let handleIncludes (sub : string) : bool :=
    match resizeHandle ds with
    | Some handle => includes handle sub
    | None => false
    end in
  let '(newX, newY, newWidth, newHeight) :=
    if handleIs "nw"%string then
      (areaStartX ds + deltaX, areaStartY ds + deltaY,
       areaStartWidth ds - deltaX, areaStartHeight ds - deltaY)
    else if handleIs "ne"%string then
      (areaStartX ds, areaStartY ds + deltaY,
       areaStartWidth ds + deltaX, areaStartHeight ds - deltaY)
    else if handleIs "sw"%string then
      (areaStartX ds + deltaX, areaStartY ds,
       areaStartWidth ds - deltaX, areaStartHeight ds + deltaY)
    else if handleIs "se"%string then
      (areaStartX ds, areaStartY ds,
       areaStartWidth ds + deltaX, areaStartHeight ds + deltaY)
    else if handleIs "n"%string then
      (areaStartX ds, areaStartY ds + deltaY,
       areaStartWidth ds, areaStartHeight ds - deltaY)
    else if handleIs "s"%string then
      (areaStartX ds, areaStartY ds, areaStartWidth ds, areaStartHeight ds + deltaY)
    else if handleIs "e"%string then
      (areaStartX ds, areaStartY ds, areaStartWidth ds + deltaX, areaStartHeight ds)
    else if handleIs "w"%string then
      (areaStartX ds + deltaX, areaStartY ds, areaStartWidth ds - deltaX, areaStartHeight ds)
    else (areaStartX ds, areaStartY ds, areaStartWidth ds, areaStartHeight ds) in
  let '(newX, newWidth) :=
    if Qlt_bool newWidth MIN_AREA_SIZE then
      (if handleIncludes "w"%string then areaStartX ds + areaStartWidth ds - MIN_AREA_SIZE else newX,
       MIN_AREA_SIZE)
    else (newX, newWidth) in
  let '(newY, newHeight) :=
    if Qlt_bool newHeight MIN_AREA_SIZE then
      (if handleIncludes "n"%string then areaStartY ds + areaStartHeight ds - MIN_AREA_SIZE else newY,
       MIN_AREA_SIZE)
    else (newY, newHeight) in
  TextArea.mk (TextArea.id area) newX newY newWidth newHeight (TextArea.style area).

(** The area that dragging makes of the selected area. *)
Definition dragArea (ds : DragState) (deltaX deltaY : Q) (area : TextArea.t) : TextArea.t :=
  TextArea.mk (TextArea.id area)
              (Math.max 0 (areaStartX ds + deltaX))
              (Math.max 0 (areaStartY ds + deltaY))
              (TextArea.width area) (TextArea.height area) (TextArea.style area).

(** [textAreas.map((area) => area.id !== selectedAreaId ? area : change(area))] *)
Definition mapSelected (selected : option string) (change : TextArea.t -> TextArea.t)
  (areas : list TextArea.t) : list TextArea.t :=
  map (fun area =>
         if match selected with
            | Some s => negb (String.eqb (TextArea.id area) s)
            | None => true
            end
         then area else change area) areas.

Definition handleMouseMove (image : option UploadedImage.t) (px py : Q) (st : State) : State :=
  match image with
  | None => st
  | Some _ =>
      let ds := dragState st in
      if (isResizing ds && truthy (selectedAreaId st))%bool then
        let deltaX := (px - startX ds) / scale st in
        let deltaY := (py - startY ds) / scale st in
        let updatedAreas :=
          mapSelected (selectedAreaId st) (resizeArea ds deltaX deltaY) (textAreas st) in
        mkState updatedAreas (selectedAreaId st) (scale st)
                (isDrawing st) (drawStart st) (currentRect st) ds
      else if (isDragging ds && truthy (selectedAreaId st))%bool then
        let deltaX := (px - startX ds) / scale st in
        let deltaY := (py - startY ds) / scale st in
        let updatedAreas :=
          mapSelected (selectedAreaId st) (dragArea ds deltaX deltaY) (textAreas st) in
        mkState updatedAreas (selectedAreaId st) (scale st)
                (isDrawing st) (drawStart st) (currentRect st) ds
      else
        match (if isDrawing st then drawStart st else None) with
        | Some (startPx, startPy) =>
            let width := px - startPx in
            let height := py - startPy in
            mkState (textAreas st) (selectedAreaId st) (scale st)
                    (isDrawing st) (drawStart st)
                    (Some (Rect.mk (if Qlt_bool 0 width then startPx else px)
                                   (if Qlt_bool 0 height then startPy else py)
                                   (Math.abs width) (Math.abs height)))
                    ds
        | None => st
        end
  end.

(** [newId] is what [generateId()] returns, and [defaultTextStyle] the
    prop of that name; [DEFAULT_TEXT_STYLE] is [defaultStyle]. *)
Definition handleMouseUp (newId : string) (defaultTextStyle : option TextStyle.t) (st : State)
  : State :=
  let created :=
    match (if isDrawing st then currentRect st else None) with
    | Some rect =>
        if (Qle_bool MIN_AREA_SIZE (Rect.width rect)
            && Qle_bool MIN_AREA_SIZE (Rect.height rect))%bool
        then
          Some (TextArea.mk newId
                  (Rect.x rect / scale st) (Rect.y rect / scale st)
                  (Rect.width rect / scale st) (Rect.height rect / scale st)
                  match defaultTextStyle with
                  | Some style => style
                  | None => defaultStyle
                  end)
        else None
    | None => None
    end in
  match created with
  | Some newArea =>
      mkState (textAreas st ++ [newArea]) (Some (TextArea.id newArea)) (scale st)
              false None None idle
  | None =>
      mkState (textAreas st) (selectedAreaId st) (scale st) false None None idle
  end.

End ImageCanvas.

(** The handlers of the application that change the text areas:
    [handleStyleChange], with the update of the style as a function, and
    [handleDeleteArea]. *)
Definition handleStyleChange (areaId : string) (styleUpdates : TextStyle.t -> TextStyle.t)
  (areas : list TextArea.t) : list TextArea.t :=
  map (fun area =>
         if String.eqb (TextArea.id area) areaId
         then TextArea.mk (TextArea.id area) (TextArea.x area) (TextArea.y area)
                          (TextArea.width area) (TextArea.height area)
                          (styleUpdates (TextArea.style area))
         else area) areas.

Definition handleDeleteArea (areaId : string) (areas : list TextArea.t) : list TextArea.t :=
  filter (fun area => negb (String.eqb (TextArea.id area) areaId)) areas.

(** ** The list of names

    [NamesInput] of [src/components/NamesInput/NamesInput.tsx]: the handlers
    that change the list of names. *)

Module NamesInput.

(** The characters of the class [[\n\r]]. *)
Definition isLineBreak (c : ascii) : bool :=
  (Nat.eqb (codeOf c) 10 || Nat.eqb (codeOf c) 13)%bool.

(** [s.split(/[\n\r]+/)]: the pieces of [s] between the runs of line
    breaks; the first piece of the result is the piece that [s] goes on
    with.  [inRun] tells whether the character before was a line break; a
    run ends the piece before it, and a piece starts after it, so a string
    that begins or ends with a line break has an empty first or last piece,
    and the empty string has one empty piece. *)
Fixpoint split (s : string) (inRun : bool) : list string :=
  match s with
  | EmptyString => [EmptyString]
  | String c rest =>
      if isLineBreak c then
        if inRun then split rest true else EmptyString :: split rest true
      else
        match split rest false with
        | piece :: pieces => String c piece :: pieces
        | [] => [String c EmptyString]
        end
  end.

(** [text.split(/[\n\r]+/).map((name) => name.trim()).filter((name) => name.length > 0)] *)
Definition parseNames (text : string) : list string :=
  filter (fun name => Nat.ltb 0 (String.length name)) (map trim (split text false)).

(** The names and the input field after [handleAddName]. *)
Definition handleAddName (inputValue : string) (names : list string) : list string * string :=
  if negb (isEmptyString (trim inputValue))
  then (names ++ [trim inputValue], EmptyString)
  else (names, inputValue).

(** [newNames.splice(index, 1)] on a copy of the names. *)
Definition handleRemoveName (index : nat) (names : list string) : list string :=
  firstn index names ++ skipn (S index) names.

Definition handleClearAll (names : list string) : list string := [].

(** [clipboard] is the text that the clipboard yields, if it yields one. *)
Definition handlePaste (clipboard : option string) (names : list string) : list string :=
  match clipboard with
  | Some text =>
      let pastedNames := parseNames text in
      if Nat.ltb 0 (List.length pastedNames) then names ++ pastedNames else names
  | None => names
  end.

(** The text that the bulk editor opens with: [names.join('\n')]. *)
Definition handleOpenBulkModal (names : list string) : string :=
  String.concat (String (ascii_of_nat 10) EmptyString) names.

Definition handleApplyBulkInput (bulkInputValue : string) : list string :=
  parseNames bulkInputValue.

End NamesInput.

(** ** The application

    [handleGenerate] of the application component: the state that it reads
    and writes, with what [alert] has shown. *)

Module App.

Record State := mkState {
  image : option UploadedImage.t;
  textAreas : list TextArea.t;
  names : list string;
  generatedImages : list GeneratedImage;
  isProcessing : bool;
  progress : Z * Z;
  alerts : list string
}.

(** [(current, total) => setProgress({ current, total })] *)
Definition setProgress (current total : Z) (st : State) : State :=
  mkState (image st) (textAreas st) (names st) (generatedImages st) (isProcessing st)
          (current, total) (alerts st).

Definition handleGenerate (h : Host) (st : State) : State :=
  match image st with
  | None => st
  | Some uploaded =>
      if (Nat.eqb (List.length (names st)) 0 || Nat.eqb (List.length (textAreas st)) 0)%bool
      then st
      else
        let started :=
          mkState (image st) (textAreas st) (names st) [] true
                  (0%Z, Z.of_nat (List.length (names st))) (alerts st) in
        match generateImages h (UploadedImage.dataUrl uploaded)
                (UploadedImage.width uploaded) (UploadedImage.height uploaded)
                (names st) (textAreas st) (Some setProgress) started with
        | (st', Resolved results) =>
            mkState (image st') (textAreas st') (names st') results false
                    (progress st') (alerts st')
        | (st', Rejected _) =>
            mkState (image st') (textAreas st') (names st') (generatedImages st') false
                    (progress st')
                    (alerts st' ++ ["Failed to generate images. Please try again."%string])
        end
  end.

End App.

(** ** Loading a web font

    [loadGoogleFont] of [src/utils/fontUtils.ts].  The head of the document
    is the list of its [link] elements; [linkLoads] tells whether the style
    sheet at an address loads.  Waiting for the fonts and loading the test
    weights cannot fail. *)

Record LinkElement := mkLinkElement {
  rel : string;
  linkHref : string;
  dataFont : option string
}.

(** [fontName.replace(/ /g, '+')] *)
Definition replaceSpaces (fontName : string) : string :=
  mapString (fun c => if Ascii.eqb c " " then "+"%char else c) fontName.

Definition googleFontUrl (fontName : string) : string :=
  ("https://fonts.googleapis.com/css2?family=" ++ replaceSpaces fontName
   ++ ":ital,wght@0,100;0,200;0,300;0,400;0,500;0,600;0,700;0,800;0,900;1,100;1,200;1,300;1,400;1,500;1,600;1,700;1,800;1,900&display=swap")%string.

(** [document.querySelector(`link[data-font="${fontName}"]`)], for a font
    name without quotes and backslashes. *)
Definition querySelectorFont (fontName : string) (head : list LinkElement)
  : option LinkElement :=
  find (fun link => match dataFont link with
                    | Some value => String.eqb value fontName
                    | None => false
                    end) head.

Definition loadGoogleFont (linkLoads : string -> bool) (fontName : string)
  (head : list LinkElement) : list LinkElement * Outcome unit :=
  match querySelectorFont fontName head with
  | None =>
      let link := mkLinkElement "stylesheet" (googleFontUrl fontName) (Some fontName) in
      let head := head ++ [link] in
      if linkLoads (linkHref link) then (head, Resolved tt)
      else (head, Rejected ("Failed to load font: " ++ fontName))
  | Some _ => (head, Resolved tt)
  end.

(** ** The style panel

    The quick format buttons of [TextStylePanel]: the update that
    [handleFormatToggle] asks for, which the application merges into the
    style of the selected area, and whether the bold button is shown as
    pressed. *)

Module TextStylePanel.

Inductive Format := Bold | Italic.

Definition withFontWeight (fontWeight : string) (s : TextStyle.t) : TextStyle.t :=
  TextStyle.mk (TextStyle.fontFamily s) (TextStyle.fontSize s) fontWeight
    (TextStyle.fontStyle s) (TextStyle.color s) (TextStyle.textDecoration s)
    (TextStyle.textTransform s) (TextStyle.letterSpacing s) (TextStyle.lineHeight s)
    (TextStyle.textShadow s) (TextStyle.opacity s).

Definition withFontStyle (fontStyle : string) (s : TextStyle.t) : TextStyle.t :=
  TextStyle.mk (TextStyle.fontFamily s) (TextStyle.fontSize s) (TextStyle.fontWeight s)
    fontStyle (TextStyle.color s) (TextStyle.textDecoration s)
    (TextStyle.textTransform s) (TextStyle.letterSpacing s) (TextStyle.lineHeight s)
    (TextStyle.textShadow s) (TextStyle.opacity s).

(** [style] is the style of the selected area that the panel shows. *)
Definition handleFormatToggle (format : Format) (style : TextStyle.t)
  : TextStyle.t -> TextStyle.t :=
  match format with
  | Bold =>
      withFontWeight (if String.eqb (TextStyle.fontWeight style) "bold"
                      then "normal" else "bold")
  | Italic =>
      withFontStyle (if String.eqb (TextStyle.fontStyle style) "italic"
                     then "normal" else "italic")
  end.

(** [style.fontWeight === 'bold' || parseInt(style.fontWeight) >= 700] *)
Definition boldSelected (style : TextStyle.t) : bool :=
  (String.eqb (TextStyle.fontWeight style) "bold"
   || match parseInt (TextStyle.fontWeight style) with
      | Some weight => Z.leb 700 weight
      | None => false
      end)%bool.

End TextStylePanel.

(** ** Vocabulary of the further properties *)

(** What the control variables of the search on doubles are on the way,
    for dimensions below [2^53]: [low] is a whole number from 4 to [2^53],
    [high] a double below [2^53]. *)
Definition doubleInv (st : DoubleSearch.SearchState) : Prop :=
  (exists l : Z, DoubleSearch.low st == inject_Z l /\ (4 <= l <= 2 ^ 53)%Z)
  /\ Double.isDouble (DoubleSearch.high st) = true
  /\ DoubleSearch.high st < inject_Z (2 ^ 53).

(** The number of integer sizes from [low] to [high] that the search has
    left. *)
Definition doubleSpan (st : DoubleSearch.SearchState) : Z :=
  Qfloor (DoubleSearch.high st) - Qfloor (DoubleSearch.low st) + 1.

Definition doubleMeasure (st : DoubleSearch.SearchState) : nat :=
  Z.to_nat (doubleSpan st).

(** The default style with the smallest line height of the style panel. *)
Definition halfLineStyle : TextStyle.t :=
  TextStyle.mk "Arial" 24 "normal" "normal" "#000000" DecorationNone TransformNone
               0 (1 # 2) "none" 1.

Definition twoTo53 : Q := inject_Z (2 ^ 53).

(** Two search states hold the same numbers (their contexts may differ). *)
Definition sameSearch (st1 st2 : SearchState) : Prop :=
  low st1 = low st2 /\ high st1 = high st2 /\ optimalFontSize st1 = optimalFontSize st2.

(** Two graphics states agree on everything but the font. *)
Definition sameButFont (g g' : GraphicsState) : Prop :=
  globalAlpha g = globalAlpha g' /\ fillStyle g = fillStyle g'
  /\ strokeStyle g = strokeStyle g' /\ lineWidth g = lineWidth g'
  /\ textAlign g = textAlign g' /\ textBaseline g = textBaseline g'
  /\ shadowOffsetX g = shadowOffsetX g' /\ shadowOffsetY g = shadowOffsetY g'
  /\ shadowBlur g = shadowBlur g' /\ shadowColor g = shadowColor g'.

(** Two graphics states agree on everything but the shadow. *)
Definition sameButShadow (g g' : GraphicsState) : Prop :=
  globalAlpha g = globalAlpha g' /\ font g = font g' /\ fillStyle g = fillStyle g'
  /\ strokeStyle g = strokeStyle g' /\ lineWidth g = lineWidth g'
  /\ textAlign g = textAlign g' /\ textBaseline g = textBaseline g'.

(** How far below the anchor line a decoration is drawn. *)
Definition decorationOffset (d : TextDecoration) (fontSize : Z) : Q :=
  match d with
  | Underline => inject_Z fontSize / 4
  | LineThrough => 0
  | Overline => - (inject_Z fontSize / 2)
  | DecorationNone => 0
  end.

(** The style of [sampleArea] with an underline. *)
Definition underlinedStyle : TextStyle.t :=
  TextStyle.mk "Arial" 24 "normal" "normal" "#000000" Underline TransformNone
               0 (12 # 10) "none" 1.

(** A style with an underline, letters drawn 5 closer together and a line
    height of 3, and a small area of that style. *)
Definition crampedStyle : TextStyle.t :=
  TextStyle.mk "Arial" 24 "normal" "normal" "#000000" Underline TransformNone
               (-5) 3 "none" 1.
Definition crampedArea : TextArea.t := TextArea.mk "area-3" 100 100 20 20 crampedStyle.

(** The ends of the straight lines among paint operations. *)
Definition strokeEnds (ops : list DrawOp) : list (Q * Q) :=
  flat_map (fun op => match op with
                      | Stroke _ [MoveTo a _; LineTo b _] => [(a, b)]
                      | _ => []
                      end) ops.

(** The file names of the downloads that a run of events starts. *)
Definition clickedNames (events : list DomEvent) : list string :=
  flat_map (fun e => match e with Click link => [download link] | _ => [] end) events.

(** The object URLs that a run of events revokes. *)
Definition revokedUrls (events : list DomEvent) : list string :=
  flat_map (fun e => match e with RevokeObjectURL url => [url] | _ => [] end) events.


(** A host like [linearHost] that encodes no canvas. *)
Definition noBlobHost : Host :=
  mkHost (hostMeasureText linearHost) (hostLoadImage linearHost) (fun _ => true)
         (fun _ => None) (hostToDataURL linearHost).

(** An area is at least [MIN_AREA_SIZE] wide and high. *)
Definition bigEnough (area : TextArea.t) : Prop :=
  ImageCanvas.MIN_AREA_SIZE <= TextArea.width area
  /\ ImageCanvas.MIN_AREA_SIZE <= TextArea.height area.

(** A point is in an area as the editor shows it. *)
Definition hits (st : ImageCanvas.State) (px py : Q) (area : TextArea.t) : bool :=
  ImageCanvas.inside px py (ImageCanvas.scaledArea (ImageCanvas.scale st) area).

(** Whether an area has the selected identifier. *)
Definition isSelected (selected : option string) (area : TextArea.t) : Prop :=
  selected = Some (TextArea.id area).

(** Whether the handle that is dragged has [sub] in its key. *)
Definition grabs (ds : ImageCanvas.DragState) (sub : string) : bool :=
  match ImageCanvas.resizeHandle ds with
  | Some handle => includes handle sub
  | None => false
  end.

(** The mouse is moved through the points [moves], one after the other. *)
Definition moveThrough (image : option UploadedImage.t) (moves : list (Q * Q))
  (st : ImageCanvas.State) : ImageCanvas.State :=
  fold_left (fun s p => ImageCanvas.handleMouseMove image (fst p) (snd p) s) moves st.

(** The rectangle [r] spans from the point where the mouse was pressed to
    the point where it is. *)
Definition spans (r : Rect.t) (px py qx qy : Q) : Prop :=
  Rect.x r == Math.min px qx /\ Rect.y r == Math.min py qy
  /\ Rect.width r == Math.abs (qx - px) /\ Rect.height r == Math.abs (qy - py).

(** The style that a new area gets. *)
Definition styleOfNewArea (defaultTextStyle : option TextStyle.t) : TextStyle.t :=
  match defaultTextStyle with
  | Some style => style
  | None => defaultStyle
  end.

(** What the user does to the text areas of an image: the mouse events of
    the canvas, a change of style and the deletion of an area. *)
Inductive EditorEvent :=
| MouseDown (px py : Q)
| MouseMove (px py : Q)
| MouseUp (newId : string) (defaultTextStyle : option TextStyle.t)
| StyleChange (areaId : string) (styleUpdates : TextStyle.t -> TextStyle.t)
| DeleteArea (areaId : string).

(** The state after an event; a deletion also drops the selection of the
    deleted area. *)
Definition afterEvent (image : option UploadedImage.t) (st : ImageCanvas.State)
  (e : EditorEvent) : ImageCanvas.State :=
  match e with
  | MouseDown px py => ImageCanvas.handleMouseDown image px py st
  | MouseMove px py => ImageCanvas.handleMouseMove image px py st
  | MouseUp newId defaultTextStyle => ImageCanvas.handleMouseUp newId defaultTextStyle st
  | StyleChange areaId styleUpdates =>
      ImageCanvas.mkState (handleStyleChange areaId styleUpdates (ImageCanvas.textAreas st))
        (ImageCanvas.selectedAreaId st) (ImageCanvas.scale st) (ImageCanvas.isDrawing st)
        (ImageCanvas.drawStart st) (ImageCanvas.currentRect st) (ImageCanvas.dragState st)
  | DeleteArea areaId =>
      ImageCanvas.mkState (handleDeleteArea areaId (ImageCanvas.textAreas st))
        match ImageCanvas.selectedAreaId st with
        | Some selected =>
            if String.eqb selected areaId then None else ImageCanvas.selectedAreaId st
        | None => None
        end
        (ImageCanvas.scale st) (ImageCanvas.isDrawing st)
        (ImageCanvas.drawStart st) (ImageCanvas.currentRect st) (ImageCanvas.dragState st)
  end.

Definition afterEvents (image : option UploadedImage.t) (events : list EditorEvent)
  (st : ImageCanvas.State) : ImageCanvas.State :=
  fold_left (afterEvent image) events st.

(** The editor before anything is drawn, at the scale [s]. *)
Definition emptyEditor (s : Q) : ImageCanvas.State :=
  ImageCanvas.mkState [] None s false None None ImageCanvas.idle.

Definition sampleImage : UploadedImage.t := UploadedImage.mk "data:image/png" 800 600.

(** [l] without its leading elements that pass [p]. *)
Fixpoint dropWhileList (p : ascii -> bool) (l : list ascii) : list ascii :=
  match l with
  | [] => []
  | c :: rest => if p c then dropWhileList p rest else l
  end.

(** A name as the batch generator renders it: trimmed and not empty. *)
Definition cleanName (name : string) : Prop :=
  trim name = name /\ isEmptyString name = false.

(** A name on one line. *)
Definition onOneLine (name : string) : Prop :=
  Forall (fun c => NamesInput.isLineBreak c = false) (list_ascii_of_string name).

(** What the user does to the list of names. *)
Inductive NamesEvent :=
| AddName (inputValue : string)
| RemoveName (index : nat)
| ClearAll
| Paste (clipboard : option string)
| ApplyBulk (bulkInputValue : string).

Definition afterNamesEvent (names : list string) (e : NamesEvent) : list string :=
  match e with
  | AddName inputValue => fst (NamesInput.handleAddName inputValue names)
  | RemoveName index => NamesInput.handleRemoveName index names
  | ClearAll => NamesInput.handleClearAll names
  | Paste clipboard => NamesInput.handlePaste clipboard names
  | ApplyBulk bulkInputValue => NamesInput.handleApplyBulkInput bulkInputValue
  end.

Definition afterNamesEvents (events : list NamesEvent) (names : list string) : list string :=
  fold_left afterNamesEvent events names.

(** The line feed, as a string. *)
Definition lineFeed : string := String (ascii_of_nat 10) EmptyString.

(** The measured width of [text] in the font [f] is the sum of the
    measured widths of its characters. *)
Definition additiveAt (h : Host) (f : string) (text : string) : Prop :=
  hostMeasureText h f text == sumQ (charWidths h f text).

(** A host like [linearHost] whose fonts draw the characters of a text so
    close that a text of several characters measures nothing. *)
Definition kernedHost : Host :=
  mkHost (fun f t => if Nat.leb (String.length t) 1 then hostMeasureText linearHost f t else 0)
         (hostLoadImage linearHost) (hostGetContext linearHost)
         (hostToBlob linearHost) (hostToDataURL linearHost).

(** The default style with a letter spacing of 1, and an area of that style. *)
Definition spacedStyle : TextStyle.t :=
  TextStyle.mk "Arial" 24 "normal" "normal" "#000000" DecorationNone TransformNone
               1 (12 # 10) "none" 1.
Definition spacedArea : TextArea.t := TextArea.mk "area-1" 10 10 100 50 spacedStyle.

(** The left edges of the glyphs among paint operations: where the text
    is, less half of its measured width. *)
Definition leftEdges (h : Host) (ops : list DrawOp) : list Q :=
  flat_map (fun op => match op with
                      | FillText g text tx _ => [tx - hostMeasureText h (font g) text / 2]
                      | _ => []
                      end) ops.

(** Their right edges. *)
Definition rightEdges (h : Host) (ops : list DrawOp) : list Q :=
  flat_map (fun op => match op with
                      | FillText g text tx _ => [tx + hostMeasureText h (font g) text / 2]
                      | _ => []
                      end) ops.

(** A host whose fonts measure a "W" as wide as the font size and any
    other character a tenth of it, a text as much as its characters. *)
Definition unevenHost : Host :=
  mkHost (fun f t =>
            sumQ (map (fun c => if String.eqb c "W" then 1 else 1 # 10) (splitChars t))
            * fontSizeOf f)
         (fun url => Some {| src := url |}) (fun _ => true)
         (fun _ => Some {| mimeType := "image/png"; bytes := EmptyString |})
         (fun _ => "data:image/png"%string).

(** The default style with a letter spacing of -5, and an area of that style. *)
Definition tightStyle : TextStyle.t :=
  TextStyle.mk "Arial" 24 "normal" "normal" "#000000" DecorationNone TransformNone
               (-5) (12 # 10) "none" 1.
Definition tightArea : TextArea.t := TextArea.mk "area-4" 10 10 30 50 tightStyle.

(** A click on the bold button of the panel that shows [style]. *)
Definition clickBold (style : TextStyle.t) : TextStyle.t :=
  TextStylePanel.handleFormatToggle TextStylePanel.Bold style style.

(** The default style with the weight 800. *)
Definition heavyStyle : TextStyle.t := TextStylePanel.withFontWeight "800" defaultStyle.

(** The canvas of some rendered name does not encode. *)
Definition someCanvasFails (h : Host) (img : HTMLImageElement) (imageWidth imageHeight : Q)
  (textAreas : list TextArea.t) (names : list string) : Prop :=
  exists k : nat,
    (k < List.length names)%nat
    /\ isRendered h (k, nth k names EmptyString) = true
    /\ hostToBlob h (renderCanvas h img imageWidth imageHeight textAreas
                       (trim (nth k names EmptyString))) = None.

(** The links of the head that are marked with a font name. *)
Definition linksOfFont (fontName : string) (head : list LinkElement) : list LinkElement :=
  filter (fun link => match dataFont link with
                      | Some value => String.eqb value fontName
                      | None => false
                      end) head.

(** The fonts are loaded one after the other; the outcomes are dropped. *)
Definition loadFonts (linkLoads : string -> bool) (fontNames : list string)
  (head : list LinkElement) : list LinkElement :=
  fold_left (fun hd fontName => fst (loadGoogleFont linkLoads fontName hd)) fontNames head.

(** An application that is ready to generate, after an earlier run. *)
Definition sampleApp : App.State :=
  App.mkState (Some sampleImage) [sampleArea] sampleNames
    [mkGenerated "Old" "data:image/png" {| mimeType := "image/png"; bytes := EmptyString |}]
    false (0%Z, 0%Z) [].

(** * Properties *)

(** ** Arithmetic of the midpoint *)

Lemma Qle_bool_false_lt (a b : Q) : Qle_bool a b = false -> b < a.
Proof.
  intros Hf. apply Qnot_le_lt. intros Hle.
  apply Qle_bool_iff in Hle. congruence.
Qed.

Lemma Qfloor_ge_Z (x : Q) (m : Z) : inject_Z m <= x -> (m <= Qfloor x)%Z.
Proof.
  intros Hle. rewrite <- (Qfloor_Z m). now apply Qfloor_resp_le.
Qed.

Lemma inject_Z_pred (m : Z) : inject_Z m - 1 == inject_Z (m - 1).
Proof.
  unfold Z.sub. rewrite inject_Z_plus, inject_Z_opp. reflexivity.
Qed.

Lemma Qfloor_pred (m : Z) : Qfloor (inject_Z m - 1) = (m - 1)%Z.
Proof.
  rewrite (Qfloor_comp _ _ (inject_Z_pred m)). apply Qfloor_Z.
Qed.

Lemma half_between (a b : Q) : a <= b -> a <= (a + b) / 2 /\ (a + b) / 2 <= b.
Proof.
  intros Hab. unfold Qdiv. change (/ 2) with (1 # 2). split; lra.
Qed.

Lemma mid_bounds (l : Z) (hi : Q) :
  inject_Z l <= hi ->
  (l <= Math.floor ((inject_Z l + hi) / 2) <= Qfloor hi)%Z.
Proof.
  intros Hle. destruct (half_between _ _ Hle) as [Hlo Hhi]. unfold Math.floor. split.
  - now apply Qfloor_ge_Z.
  - now apply Qfloor_resp_le.
Qed.

Lemma Math_max_cases (a b : Q) :
  (a <= b /\ Math.max a b = b) \/ (b < a /\ Math.max a b = a).
Proof.
  unfold Math.max. destruct (Qle_bool a b) eqn:E.
  - left. split; [now apply Qle_bool_iff | reflexivity].
  - right. split; [now apply Qle_bool_false_lt | reflexivity].
Qed.

Lemma Math_max_ub (a b : Q) : a <= Math.max a b /\ b <= Math.max a b.
Proof.
  destruct (Math_max_cases a b) as [[H E] | [H E]]; rewrite E; split; lra.
Qed.


(** ** Printing and parsing integers *)

Lemma isDigit_not_space (c : ascii) : isDigit c = true -> isWhiteSpace c = false.
Proof.
  unfold isDigit, isWhiteSpace, inRange. intros Hd.
  apply andb_true_iff in Hd as [Hlo Hhi]. apply Nat.leb_le in Hlo, Hhi.
  repeat (apply orb_false_iff; split).
  - apply andb_false_iff. right. apply Nat.leb_gt. lia.
  - apply Nat.eqb_neq. lia.
  - apply Nat.eqb_neq. lia.
Qed.

Lemma isDigit_not_sign (c : ascii) :
  isDigit c = true -> Ascii.eqb c "-" = false /\ Ascii.eqb c "+" = false.
Proof.
  intros Hd. split.
  - destruct (Ascii.eqb_spec c "-") as [E | _]; [subst c; discriminate | reflexivity].
  - destruct (Ascii.eqb_spec c "+") as [E | _]; [subst c; discriminate | reflexivity].
Qed.

Lemma digitsValue_nonneg (s : string) (acc : Z) : (0 <= acc -> 0 <= digitsValue acc s)%Z.
Proof.
  revert acc. induction s as [| c rest IH]; intros acc Hacc; cbn [digitsValue]; [assumption |].
  destruct (isDigit c); [| assumption]. apply IH. unfold digitValue. lia.
Qed.

(** Digits parse to a number that is not negative. *)
Lemma parseInt_digits (d : ascii) (ds : list ascii) :
  isDigit d = true ->
  exists n : Z, parseInt (string_of_list_ascii (d :: ds)) = Some n /\ (0 <= n)%Z.
Proof.
  intros Hd. destruct (isDigit_not_sign d Hd) as [Hminus Hplus].
  exists (digitsValue 0 (string_of_list_ascii (d :: ds))).
  split; [| apply digitsValue_nonneg; lia].
  unfold parseInt. cbn [string_of_list_ascii dropWhileStr].
  rewrite (isDigit_not_space d Hd), Hminus, Hplus. unfold parseDigits. now rewrite Hd.
Qed.

Lemma uint_digits (d : Decimal.uint) :
  Forall (fun a => isDigit a = true) (list_ascii_of_string (NilEmpty.string_of_uint d)).
Proof.
  induction d; cbn [NilEmpty.string_of_uint list_ascii_of_string]; constructor;
    solve [reflexivity | assumption].
Qed.

Lemma digitsValue_acc (d : Decimal.uint) (p : positive) :
  digitsValue (Z.pos p) (NilEmpty.string_of_uint d) = Z.pos (Pos.of_uint_acc d p).
Proof.
  revert p. induction d as [| d IH | d IH | d IH | d IH | d IH | d IH | d IH | d IH | d IH | d IH];
    intros p; [reflexivity | ..];
    cbn [NilEmpty.string_of_uint digitsValue Pos.of_uint_acc];
    match goal with |- context [isDigit ?c] => change (isDigit c) with true end;
    cbn iota; rewrite <- IH; f_equal; vm_compute digitValue; lia.
Qed.

Lemma digitsValue_uint (d : Decimal.uint) :
  digitsValue 0 (NilEmpty.string_of_uint d) = Z.of_N (Pos.of_uint d).
Proof.
  induction d as [| d IH | d IH | d IH | d IH | d IH | d IH | d IH | d IH | d IH | d IH];
    [reflexivity | exact IH | ..];
    cbn [NilEmpty.string_of_uint digitsValue Pos.of_uint];
    match goal with |- context [isDigit ?c] => change (isDigit c) with true end;
    cbn iota; apply digitsValue_acc.
Qed.

Lemma numberToString_pos (p : positive) :
  numberToString (Z.pos p) = NilEmpty.string_of_uint (Pos.to_uint p).
Proof.
  unfold numberToString. cbn [Z.to_int NilZero.string_of_int].
  pose proof (Unsigned.to_uint_nonnil p) as Hnil.
  destruct (Pos.to_uint p); [now destruct Hnil | reflexivity ..].
Qed.

(** The decimal text of a positive number: a digit, then digits. *)
Lemma pos_digits (p : positive) :
  exists (d : ascii) (ds : list ascii),
    NilEmpty.string_of_uint (Pos.to_uint p) = String d (string_of_list_ascii ds)
    /\ list_ascii_of_string (NilEmpty.string_of_uint (Pos.to_uint p)) = d :: ds
    /\ isDigit d = true /\ Forall (fun a => isDigit a = true) ds.
Proof.
  pose proof (uint_digits (Pos.to_uint p)) as Hall.
  pose proof (Unsigned.to_uint_nonnil p) as Hnil.
  destruct (list_ascii_of_string (NilEmpty.string_of_uint (Pos.to_uint p))) as [| d ds] eqn:E.
  - destruct (Pos.to_uint p); [now destruct Hnil | discriminate E ..].
  - exists d, ds. inversion Hall; subst. repeat split; try assumption.
    rewrite <- (string_of_list_ascii_of_string (NilEmpty.string_of_uint (Pos.to_uint p))).
    now rewrite E.
Qed.

Lemma parseDigits_pos (p : positive) :
  parseDigits (NilEmpty.string_of_uint (Pos.to_uint p)) = Some (Z.pos p).
Proof.
  destruct (pos_digits p) as (d & ds & Es & _ & Hd & _).
  pose proof (digitsValue_uint (Pos.to_uint p)) as Hv.
  rewrite Unsigned.of_to in Hv. cbn [Z.of_N] in Hv.
  rewrite Es in *. unfold parseDigits. now rewrite Hd, Hv.
Qed.

(** Printing an integer and parsing it back gives the integer. *)
Lemma parseInt_numberToString (n : Z) : parseInt (numberToString n) = Some n.
Proof.
  destruct n as [| p | p].
  - reflexivity.
  - rewrite numberToString_pos. pose proof (parseDigits_pos p) as Hp.
    destruct (pos_digits p) as (d & ds & Es & _ & Hd & _). rewrite Es in *.
    unfold parseInt. cbn [dropWhileStr]. rewrite (isDigit_not_space d Hd).
    destruct (isDigit_not_sign d Hd) as [Hminus Hplus]. now rewrite Hminus, Hplus.
  - unfold numberToString. cbn [Z.to_int NilZero.string_of_int].
    pose proof (numberToString_pos p) as Hs. unfold numberToString in Hs.
    cbn [Z.to_int NilZero.string_of_int] in Hs. rewrite Hs.
    unfold parseInt. cbn [dropWhileStr]. change (isWhiteSpace "-") with false.
    change (Ascii.eqb "-" "-") with true. cbn iota. now rewrite parseDigits_pos.
Qed.

(** The decimal text of an integer: a minus sign if it is negative, a
    digit, then digits. *)
Lemma numberToString_shape (n : Z) :
  exists (sign : list ascii) (d : ascii) (ds : list ascii),
    list_ascii_of_string (numberToString n) = sign ++ d :: ds
    /\ (sign = [] \/ sign = ["-"%char])
    /\ ((0 <= n)%Z -> sign = [])
    /\ isDigit d = true /\ Forall (fun a => isDigit a = true) ds.
Proof.
  destruct n as [| p | p].
  - exists [], "0"%char, []. repeat split; auto.
  - destruct (pos_digits p) as (d & ds & _ & E & Hd & Hds).
    exists [], d, ds. rewrite numberToString_pos. repeat split; auto.
  - destruct (pos_digits p) as (d & ds & _ & E & Hd & Hds).
    exists ["-"%char], d, ds.
    pose proof (numberToString_pos p) as Hs. unfold numberToString in *.
    cbn [Z.to_int NilZero.string_of_int] in *. rewrite Hs.
    cbn [list_ascii_of_string app]. rewrite E. repeat split; auto. lia.
Qed.





(** ** One pass of the search loop *)

Section SearchFacts.

Variable h : Host.
Variable text : string.
Variables maxWidth maxHeight : Q.
Variable style : TextStyle.t.

Local Abbreviation step := (searchStep h text maxWidth maxHeight style).
Local Abbreviation loop := (fun fuel => searchLoop fuel h text maxWidth maxHeight style).
Local Abbreviation fit := (fits h text maxWidth maxHeight style).

(** What one pass does: it probes the midpoint, which lies between [low]
    and [high], and moves [low] above it or [high] below it. *)
Lemma searchStep_cases (st st' : SearchState) :
  step st = Some st' ->
  exists mid : Z,
    mid = Math.floor ((inject_Z (low st) + high st) / 2) /\
    inject_Z (low st) <= high st /\
    (low st <= mid <= Qfloor (high st))%Z /\
    saved (sctx st') = saved (sctx st) /\
    painted (sctx st') = painted (sctx st) /\
    path (sctx st') = path (sctx st) /\
    measured (sctx st') = measured (sctx st) ++ [(buildFontString style mid, text)] /\
    ((fit mid = true /\ low st' = (mid + 1)%Z /\ high st' = high st
      /\ optimalFontSize st' = mid)
     \/ (fit mid = false /\ low st' = low st /\ high st' = inject_Z mid - 1
         /\ optimalFontSize st' = optimalFontSize st)).
Proof.
  unfold searchStep. intros Hstep.
  destruct (Qle_bool (inject_Z (low st)) (high st)) eqn:Hcond; [| discriminate].
  apply Qle_bool_iff in Hcond.
  set (mid := Math.floor ((inject_Z (low st) + high st) / 2)) in *.
  exists mid. split; [reflexivity |]. split; [assumption |].
  split; [now apply mid_bounds |].
  change (snd (measureText h (setFont (buildFontString style mid) (sctx st)) text)
          + TextStyle.letterSpacing style * (strLength text - 1))
    with (effectiveWidth h text style mid) in Hstep.
  change (inject_Z mid * TextStyle.lineHeight style) with (effectiveHeight style mid) in Hstep.
  change (Qle_bool (effectiveWidth h text style mid) (maxWidth - padding)
          && Qle_bool (effectiveHeight style mid) (maxHeight - padding))%bool
    with (fit mid) in Hstep.
  destruct (fit mid) eqn:Hfit; inversion Hstep; subst st'; cbn;
    repeat split; auto.
Qed.

Lemma searchStep_none (st : SearchState) :
  step st = None <-> high st < inject_Z (low st).
Proof.
  unfold searchStep. destruct (Qle_bool (inject_Z (low st)) (high st)) eqn:Hcond.
  - split.
    + destruct (_ && _)%bool; discriminate.
    + intros Hlt. apply Qle_bool_iff in Hcond. lra.
  - split; [intros _; now apply Qle_bool_false_lt | reflexivity].
Qed.

(** Each pass strictly increases [low] or strictly decreases [high]. *)
Lemma searchStep_progress (st st' : SearchState) :
  step st = Some st' ->
  ((low st < low st')%Z /\ high st' = high st)
  \/ (low st' = low st /\ high st' < high st).
Proof.
  intros Hstep. destruct (searchStep_cases _ _ Hstep)
    as (mid & _ & Hcond & [Hlo Hhi] & _ & _ & _ & _ & [(_ & L & Hh & _) | (_ & L & Hh & _)]).
  - left. split; [lia | assumption].
  - right. split; [assumption |]. rewrite Hh.
    assert (inject_Z mid <= high st).
    { apply Qle_trans with (inject_Z (Qfloor (high st))); [| apply Qfloor_le].
      rewrite <- Zle_Qle. assumption. }
    lra.
Qed.

Lemma searchStep_measure (st st' : SearchState) :
  step st = Some st' -> (searchMeasure st' < searchMeasure st)%nat.
Proof.
  intros Hstep. destruct (searchStep_cases _ _ Hstep)
    as (mid & _ & Hcond & [Hlo Hhi] & _ & _ & _ & _ & [(_ & L & Hh & _) | (_ & L & Hh & _)]);
    unfold searchMeasure; rewrite L, Hh.
  - lia.
  - rewrite Qfloor_pred. lia.
Qed.

(** ** The loop *)

Lemma searchLoop_enough_fuel (fuel : nat) (st : SearchState) :
  (searchMeasure st < fuel)%nat -> exists final, loop fuel st = Some final.
Proof.
  revert st. induction fuel as [| fuel IH]; intros st Hm; [lia |].
  cbn. destruct (step st) as [st' |] eqn:Hstep.
  - apply IH. pose proof (searchStep_measure _ _ Hstep). lia.
  - now exists st.
Qed.

Lemma searchLoop_more_fuel (fuel fuel' : nat) (st final : SearchState) :
  loop fuel st = Some final -> (fuel <= fuel')%nat -> loop fuel' st = Some final.
Proof.
  revert fuel' st. induction fuel as [| fuel IH]; intros fuel' st Hrun Hle; [discriminate |].
  destruct fuel' as [| fuel']; [lia |].
  cbn in *. destruct (step st) as [st' |]; [| assumption].
  apply IH; [assumption | lia].
Qed.

(** A property kept by every pass holds when the loop exits, and the loop
    exits because its condition fails. *)
Lemma searchLoop_invariant (P : SearchState -> Prop) :
  (forall st st', P st -> step st = Some st' -> P st') ->
  forall fuel st final,
    P st -> loop fuel st = Some final -> P final /\ step final = None.
Proof.
  intros Hkeep. induction fuel as [| fuel IH]; intros st final HP Hrun; [discriminate |].
  cbn in Hrun. destruct (step st) as [st' |] eqn:Hstep.
  - apply (IH st'); [now apply (Hkeep st) | assumption].
  - inversion Hrun; subst. split; assumption.
Qed.

Lemma searchInit_measure (ctx : Ctx) :
  (searchMeasure (searchInit ctx maxWidth maxHeight) < searchFuel maxWidth maxHeight)%nat.
Proof.
  unfold searchMeasure, searchFuel, searchInit. cbn. lia.
Qed.

(** [calculateOptimalFontSize] returns what the loop exits with. *)
Lemma calculateOptimalFontSize_loop (ctx : Ctx) :
  exists final,
    loop (searchFuel maxWidth maxHeight) (searchInit ctx maxWidth maxHeight) = Some final /\
    calculateOptimalFontSize h ctx text maxWidth maxHeight style
    = (sctx final, Z.max (optimalFontSize final) minFontSize).
Proof.
  destruct (searchLoop_enough_fuel _ _ (searchInit_measure ctx)) as [final Hrun].
  exists final. split; [assumption |].
  unfold calculateOptimalFontSize. cbn beta in Hrun. now rewrite Hrun.
Qed.

End SearchFacts.

(** ** What the search returns *)

Section SearchResult.

Variable h : Host.
Variable text : string.
Variables maxWidth maxHeight : Q.
Variable style : TextStyle.t.

Local Abbreviation step := (searchStep h text maxWidth maxHeight style).
Local Abbreviation loop := (fun fuel => searchLoop fuel h text maxWidth maxHeight style).
Local Abbreviation fit := (fits h text maxWidth maxHeight style).
Local Abbreviation inRange := (inSearchRange maxWidth maxHeight).

Lemma searchInv_init (ctx : Ctx) :
  searchInv h text maxWidth maxHeight style ctx (searchInit ctx maxWidth maxHeight).
Proof.
  unfold searchInv, searchInit; cbn.
  split; [lia |]. split; [lra |]. split; [lia |]. split; [now left |].
  do 3 (split; [reflexivity |]).
  exists []. cbn. split; [now rewrite app_nil_r | constructor].
Qed.

Lemma searchInv_step (ctx : Ctx) (st st' : SearchState) :
  searchInv h text maxWidth maxHeight style ctx st ->
  step st = Some st' ->
  searchInv h text maxWidth maxHeight style ctx st'.
Proof.
  intros (Hlow & Hhigh & Hopt & Hkept & Hsaved & Hpainted & Hpath & cs & Hmeas & Hcs) Hstep.
  destruct (searchStep_cases _ _ _ _ _ _ _ Hstep)
    as (mid & _ & Hcond & [Hlo Hhi] & Es & Ep & Epath & Em & Hcase).
  assert (Hmid : inRange mid).
  { split; [lia |]. apply Qle_trans with (high st); [| assumption].
    apply Qle_trans with (inject_Z (Qfloor (high st))); [| apply Qfloor_le].
    now rewrite <- Zle_Qle. }
  assert (Hprobes : exists cs', measured (sctx st') = measured ctx ++ probesOf style text cs'
                                /\ Forall inRange cs').
  { exists (cs ++ [mid]). split.
    - rewrite Em, Hmeas. unfold probesOf. rewrite map_app, app_assoc. reflexivity.
    - apply Forall_app. split; [assumption | now constructor]. }
  unfold searchInv. rewrite Es, Ep, Epath.
  destruct Hcase as [(Hfit & L & Hh & O) | (Hfit & L & Hh & O)]; rewrite L, Hh, O.
  - repeat split; try assumption; try lia. right. split; [assumption | exact Hmid].
  - repeat split; try assumption. destruct Hmid as [_ Hm]. lra.
Qed.



(** The size returned is the size the loop keeps, the loop exits with
    [high < low], and the exit state satisfies [searchInv]. *)
Lemma calculateOptimalFontSize_exit (ctx : Ctx) :
  exists final,
    loop (searchFuel maxWidth maxHeight) (searchInit ctx maxWidth maxHeight) = Some final /\
    calculateOptimalFontSize h ctx text maxWidth maxHeight style
    = (sctx final, optimalFontSize final) /\
    searchInv h text maxWidth maxHeight style ctx final /\
    high final < inject_Z (low final).
Proof.
  destruct (calculateOptimalFontSize_loop h text maxWidth maxHeight style ctx)
    as (final & Hrun & Hcalc).
  exists final.
  destruct (searchLoop_invariant h text maxWidth maxHeight style
              (searchInv h text maxWidth maxHeight style ctx)
              (searchInv_step ctx) _ _ _ (searchInv_init ctx) Hrun) as [Hinv Hexit].
  split; [assumption |]. split; [| split; [assumption | now apply searchStep_none in Hexit]].
  rewrite Hcalc. f_equal. destruct Hinv as (_ & _ & Hopt & _). lia.
Qed.

(** The size returned is 4 or a size of the range that fits. *)
Lemma calculateOptimalFontSize_kept (ctx : Ctx) :
  let s := snd (calculateOptimalFontSize h ctx text maxWidth maxHeight style) in
  (minFontSize <= s)%Z /\ (s = minFontSize \/ (fit s = true /\ inRange s)).
Proof.
  destruct (calculateOptimalFontSize_exit ctx) as (final & _ & Hcalc & Hinv & _).
  cbn zeta. rewrite Hcalc. cbn [snd].
  destruct Hinv as (_ & _ & Hopt & Hkept & _). split; assumption.
Qed.


End SearchResult.

Section SearchProbes.

Variable h : Host.
Variable text : string.
Variables maxWidth maxHeight : Q.
Variable style : TextStyle.t.



End SearchProbes.



(** ** The claims about the search *)


(** The floor value is an escape hatch: a 10 by 10 rectangle gets size 4
    although size 4 does not fit it. *)
Example floor_size_need_not_fit :
  snd (calculateOptimalFontSize linearHost newContext "Alice" 10 10 defaultStyle) = 4%Z
  /\ fits linearHost "Alice" 10 10 defaultStyle 4 = false.
Proof.
  split; vm_compute; reflexivity.
Qed.







(** ** Rounding to a double *)

Section DoubleNumbers.

Import Double.

Lemma pow2_pos (k : Z) : 0 < 2 ^ k.
Proof. apply Qpower_0_lt. reflexivity. Qed.

Lemma pow2_succ (k : Z) : 2 ^ (k + 1) == 2 * 2 ^ k.
Proof. rewrite Qpower_plus by discriminate. rewrite Qpower_1_r. ring. Qed.

Lemma pow2_pred (k : Z) : 2 ^ (k - 1) == 2 ^ k / 2.
Proof. rewrite Qpower_minus by discriminate. rewrite Qpower_1_r. reflexivity. Qed.

Lemma pow2_log2 (n : Z) :
  (0 < n)%Z ->
  2 ^ Z.log2 n <= inject_Z n /\ inject_Z n < 2 * 2 ^ Z.log2 n.
Proof.
  intros Hn. destruct (Z.log2_spec n Hn) as [Hlo Hhi].
  pose proof (Z.log2_nonneg n) as H0.
  rewrite <- pow2_succ.
  change 2 with (inject_Z 2). rewrite <- !Zpower_Qpower by lia.
  rewrite <- Zle_Qle, <- Zlt_Qlt. unfold Z.succ in Hhi. split; assumption.
Qed.

Lemma Qabs_as_quotient (q : Q) :
  Qabs q == inject_Z (Z.abs (Qnum q)) / inject_Z (Z.pos (Qden q)).
Proof.
  destruct q as [n d]. cbn [Qabs Qnum Qden].
  rewrite (Qmake_Qdiv (Z.abs n) d). reflexivity.
Qed.

(** The exponent brackets the number. *)
Lemma exponent_spec (q : Q) :
  ~ q == 0 ->
  2 ^ exponent q <= Qabs q /\ Qabs q < 2 ^ (exponent q + 1).
Proof.
  intros Hq.
  assert (Hn : (0 < Z.abs (Qnum q))%Z).
  { destruct q as [n d]. cbn [Qnum]. unfold Qeq in Hq. cbn in Hq. lia. }
  destruct (pow2_log2 _ Hn) as [Hn1 Hn2].
  destruct (pow2_log2 (Z.pos (Qden q)) eq_refl) as [Hd1 Hd2].
  pose proof (Qabs_as_quotient q) as Habs.
  set (a := Z.log2 (Z.abs (Qnum q))) in *. set (b := Z.log2 (Z.pos (Qden q))) in *.
  set (n := inject_Z (Z.abs (Qnum q))) in *. set (d := inject_Z (Z.pos (Qden q))) in *.
  pose proof (pow2_pos a) as HA. pose proof (pow2_pos b) as HB.
  assert (He0 : 2 ^ (a - b) == 2 ^ a / 2 ^ b) by (apply Qpower_minus; discriminate).
  assert (Hd : 0 < d) by lra.
  unfold exponent. fold a b.
  destruct (Qle_bool (2 ^ (a - b)) (Qabs q)) eqn:E.
  - apply Qle_bool_iff in E. split; [exact E |].
    rewrite pow2_succ, He0, Habs.
    apply Qlt_shift_div_r; [exact Hd |].
    setoid_replace (2 * (2 ^ a / 2 ^ b) * d) with ((2 * 2 ^ a) * d / 2 ^ b)
      by (field; lra).
    apply Qlt_shift_div_l; [exact HB |]. nra.
  - assert (E' : Qabs q < 2 ^ (a - b)).
    { apply Qnot_le_lt. intros H. apply Qle_bool_iff in H. congruence. }
    replace (a - b - 1 + 1)%Z with (a - b)%Z by lia. split; [| exact E'].
    rewrite pow2_pred, He0, Habs.
    apply Qle_shift_div_l; [exact Hd |].
    setoid_replace (2 ^ a / 2 ^ b / 2 * d) with (2 ^ a * d / (2 * 2 ^ b))
      by (field; lra).
    apply Qle_shift_div_r; [lra |]. nra.
Qed.

(** Only one exponent brackets a number. *)
Lemma exponent_unique (q : Q) (e : Z) :
  2 ^ e <= Qabs q -> Qabs q < 2 ^ (e + 1) -> exponent q = e.
Proof.
  intros Hlo Hhi.
  assert (Hq : ~ q == 0).
  { intros H. rewrite H in Hlo. cbn [Qabs Qnum Z.abs] in Hlo.
    pose proof (pow2_pos e). change (0 # 1) with 0 in Hlo. lra. }
  destruct (exponent_spec q Hq) as [Hlo' Hhi'].
  assert (H1 : (2:Q) ^ e < 2 ^ (exponent q + 1)) by lra.
  assert (H2 : (2:Q) ^ exponent q < 2 ^ (e + 1)) by lra.
  apply Qpower_lt_compat_l_inv in H1; [| reflexivity].
  apply Qpower_lt_compat_l_inv in H2; [| reflexivity]. lia.
Qed.

Lemma exponent_comp (q q' : Q) : q == q' -> ~ q == 0 -> exponent q = exponent q'.
Proof.
  intros Heq Hq. symmetry. destruct (exponent_spec q Hq) as [Hlo Hhi].
  apply exponent_unique; rewrite <- Heq; assumption.
Qed.

Lemma nearestEven_comp (x y : Q) : x == y -> nearestEven x = nearestEven y.
Proof.
  intros H. unfold nearestEven.
  rewrite (Qfloor_comp x y H).
  assert (Hc : (x - inject_Z (Qfloor y) ?= 1 # 2) = (y - inject_Z (Qfloor y) ?= 1 # 2)).
  { apply Qcompare_comp; [rewrite H |]; reflexivity. }
  rewrite Hc. reflexivity.
Qed.

Lemma round_nonzero (q : Q) :
  ~ q == 0 -> round q == inject_Z (nearestEven (q / ulp q)) * ulp q.
Proof.
  intros Hq. unfold round.
  destruct (Qeq_bool q 0) eqn:E; [apply Qeq_bool_iff in E; contradiction |].
  apply Qred_correct.
Qed.

Lemma round_comp (q q' : Q) : q == q' -> round q == round q'.
Proof.
  intros Heq. destruct (Qeq_dec q 0) as [Hz | Hnz].
  - unfold round.
    assert (Hz' : q' == 0) by (rewrite <- Heq; exact Hz).
    rewrite (proj2 (Qeq_bool_iff q 0) Hz), (proj2 (Qeq_bool_iff q' 0) Hz'). reflexivity.
  - assert (Hnz' : ~ q' == 0) by (rewrite <- Heq; exact Hnz).
    rewrite !round_nonzero by assumption.
    unfold ulp. rewrite <- (exponent_comp q q' Heq Hnz).
    rewrite (nearestEven_comp (q / 2 ^ (exponent q - 52)) (q' / 2 ^ (exponent q - 52))).
    + reflexivity.
    + apply Qdiv_comp; [exact Heq | reflexivity].
Qed.

(** The nearest integer lies between any two integers that bracket the number. *)
Lemma nearestEven_ge (x : Q) (n : Z) : inject_Z n <= x -> (n <= nearestEven x)%Z.
Proof.
  intros H. assert (Hf : (n <= Qfloor x)%Z).
  { apply Qfloor_resp_le in H. now rewrite Qfloor_Z in H. }
  unfold nearestEven.
  destruct (Qcompare (x - inject_Z (Qfloor x)) (1 # 2));
    [destruct (Z.even (Qfloor x)) | |]; lia.
Qed.

Lemma nearestEven_le (x : Q) (n : Z) : x <= inject_Z n -> (nearestEven x <= n)%Z.
Proof.
  intros H. pose proof (Qfloor_le x) as Hfl.
  assert (Hf : (Qfloor x <= n)%Z).
  { rewrite Zle_Qle. lra. }
  destruct (Z.eq_dec (Qfloor x) n) as [E | NE].
  - assert (Hx : x == inject_Z (Qfloor x)) by (rewrite E in *; lra).
    unfold nearestEven.
    assert (Hc : Qcompare (x - inject_Z (Qfloor x)) (1 # 2) = Lt).
    { rewrite <- Qlt_alt. lra. }
    rewrite Hc. lia.
  - unfold nearestEven.
    destruct (Qcompare (x - inject_Z (Qfloor x)) (1 # 2));
      [destruct (Z.even (Qfloor x)) | |]; lia.
Qed.

Lemma nearestEven_Z (n : Z) : nearestEven (inject_Z n) = n.
Proof.
  apply Z.le_antisymm; [apply nearestEven_le | apply nearestEven_ge]; lra.
Qed.

Lemma ulp_pos (q : Q) : 0 < ulp q.
Proof. apply pow2_pos. Qed.

Lemma pow2_ulp (q : Q) : 2 ^ exponent q == inject_Z (2 ^ 52) * ulp q.
Proof.
  unfold ulp. rewrite Qpower_minus by discriminate.
  change (inject_Z (2 ^ 52)) with ((2:Q) ^ 52). field.
Qed.

Lemma pow2_succ_ulp (q : Q) : 2 ^ (exponent q + 1) == inject_Z (2 ^ 53) * ulp q.
Proof.
  assert (H : inject_Z (2 ^ 53) == 2 * inject_Z (2 ^ 52)) by reflexivity.
  rewrite pow2_succ, pow2_ulp, H. ring.
Qed.

Lemma Qabs_of_pos (q : Q) : 0 < q -> Qabs q == q.
Proof. intros H. apply Qabs_pos. lra. Qed.

(** A positive number is rounded within its binade. *)
Lemma round_binade (q : Q) :
  0 < q -> 2 ^ exponent q <= round q /\ round q <= 2 ^ (exponent q + 1).
Proof.
  intros Hq. assert (Hnz : ~ q == 0) by lra.
  destruct (exponent_spec q Hnz) as [Hlo Hhi].
  rewrite (Qabs_of_pos q Hq) in Hlo, Hhi.
  pose proof (ulp_pos q) as Hu.
  rewrite round_nonzero by exact Hnz.
  rewrite pow2_ulp in Hlo |- *. rewrite pow2_succ_ulp in Hhi |- *.
  split; apply Qmult_le_compat_r; try lra; rewrite <- Zle_Qle.
  - apply nearestEven_ge. apply Qle_shift_div_l; assumption.
  - apply nearestEven_le. apply Qle_shift_div_r; [assumption | lra].
Qed.

(** A double is a whole number of units in the last place. *)
Lemma isDouble_units (a : Q) :
  isDouble a = true -> ~ a == 0 -> a == inject_Z (nearestEven (a / ulp a)) * ulp a.
Proof.
  intros Ha Hnz. apply Qeq_bool_iff in Ha. rewrite <- Ha at 1.
  now apply round_nonzero.
Qed.

Lemma exponent_mono (a q : Q) : 0 < a -> a <= q -> (exponent a <= exponent q)%Z.
Proof.
  intros Ha Hle.
  destruct (exponent_spec a ltac:(lra)) as [Hlo _].
  destruct (exponent_spec q ltac:(lra)) as [_ Hhi].
  rewrite Qabs_of_pos in Hlo, Hhi by lra.
  assert (H : (2:Q) ^ exponent a < 2 ^ (exponent q + 1)) by lra.
  apply Qpower_lt_compat_l_inv in H; [lia | reflexivity].
Qed.

(** Rounding does not cross a double: a double below the number stays
    below the rounded number, a double above it stays above. *)
Lemma round_ge_double (a q : Q) :
  isDouble a = true -> 0 < a -> a <= q -> a <= round q.
Proof.
  intros Ha Hpos Hle. assert (Hq : 0 < q) by lra.
  pose proof (exponent_mono a q Hpos Hle) as He.
  destruct (round_binade q Hq) as [Hlo _].
  destruct (Z.eq_dec (exponent a) (exponent q)) as [E | NE].
  - pose proof (isDouble_units a Ha ltac:(lra)) as Hu.
    unfold ulp in Hu. rewrite E in Hu. fold (ulp q) in Hu.
    pose proof (ulp_pos q) as Hup.
    rewrite round_nonzero by lra. rewrite Hu at 1.
    apply Qmult_le_compat_r; [| lra]. rewrite <- Zle_Qle.
    apply nearestEven_ge. apply Qle_shift_div_l; [exact Hup |].
    rewrite <- Hu. exact Hle.
  - destruct (exponent_spec a ltac:(lra)) as [_ Hhi].
    rewrite Qabs_of_pos in Hhi by lra.
    assert (H : (2:Q) ^ (exponent a + 1) <= 2 ^ exponent q).
    { apply Qpower_le_compat_l; [lia | discriminate]. }
    lra.
Qed.

Lemma round_le_double (a q : Q) :
  isDouble a = true -> 0 < q -> q <= a -> round q <= a.
Proof.
  intros Ha Hq Hle. assert (Hpos : 0 < a) by lra.
  pose proof (exponent_mono q a Hq Hle) as He.
  destruct (round_binade q Hq) as [_ Hhi].
  destruct (Z.eq_dec (exponent a) (exponent q)) as [E | NE].
  - pose proof (isDouble_units a Ha ltac:(lra)) as Hu.
    unfold ulp in Hu. rewrite E in Hu. fold (ulp q) in Hu.
    pose proof (ulp_pos q) as Hup.
    rewrite round_nonzero by lra. rewrite Hu at 1.
    apply Qmult_le_compat_r; [| lra]. rewrite <- Zle_Qle.
    apply nearestEven_le. apply Qle_shift_div_r; [exact Hup |].
    rewrite <- Hu. exact Hle.
  - destruct (exponent_spec a ltac:(lra)) as [Hlo _].
    rewrite Qabs_of_pos in Hlo by lra.
    assert (H : (2:Q) ^ (exponent q + 1) <= 2 ^ exponent a).
    { apply Qpower_le_compat_l; [lia | discriminate]. }
    lra.
Qed.

(** Doubling is exact. *)
Lemma round_twice (q : Q) : round (2 * q) == 2 * round q.
Proof.
  destruct (Qeq_dec q 0) as [Hz | Hnz].
  - assert (E1 : round (2 * q) == round 0) by (apply round_comp; lra).
    assert (E2 : round q == round 0) by (apply round_comp; exact Hz).
    rewrite E1, E2. reflexivity.
  - assert (Hnz2 : ~ 2 * q == 0) by (intros H; apply Hnz; lra).
    destruct (exponent_spec q Hnz) as [Hlo Hhi].
    assert (He : exponent (2 * q) = (exponent q + 1)%Z).
    { apply exponent_unique; rewrite Qabs_Qmult; change (Qabs 2) with 2;
        rewrite !pow2_succ in *; lra. }
    rewrite !round_nonzero by assumption.
    assert (Hu : ulp (2 * q) == 2 * ulp q).
    { unfold ulp. rewrite He.
      replace (exponent q + 1 - 52)%Z with (exponent q - 52 + 1)%Z by lia.
      apply pow2_succ. }
    pose proof (ulp_pos q) as Hup.
    rewrite (nearestEven_comp (2 * q / ulp (2 * q)) (q / ulp q)).
    + rewrite Hu. ring.
    + rewrite Hu. field. lra.
Qed.

Lemma isDouble_twice (q : Q) : isDouble q = true -> isDouble (2 * q) = true.
Proof.
  unfold isDouble. rewrite !Qeq_bool_iff. intros H. rewrite round_twice, H. reflexivity.
Qed.

(** The whole numbers up to [2^53] are doubles. *)
Lemma round_Z (n : Z) :
  (0 <= n <= 2 ^ 53)%Z -> round (inject_Z n) == inject_Z n.
Proof.
  intros [H0 Hn].
  destruct (Z.eq_dec n 0) as [-> | Hnz]; [reflexivity |].
  destruct (Z.eq_dec n (2 ^ 53)) as [-> | Hlt]; [vm_compute; reflexivity |].
  assert (Hq : 0 < inject_Z n) by (change 0 with (inject_Z 0); rewrite <- Zlt_Qlt; lia).
  destruct (exponent_spec (inject_Z n) ltac:(lra)) as [Hlo _].
  rewrite Qabs_of_pos in Hlo by exact Hq.
  set (e := exponent (inject_Z n)) in *.
  assert (He : (e <= 52)%Z).
  { assert (H : (2:Q) ^ e < 2 ^ 53).
    { eapply Qle_lt_trans; [exact Hlo |].
      change ((2:Q) ^ 53) with (inject_Z (2 ^ 53)). rewrite <- Zlt_Qlt. lia. }
    apply Qpower_lt_compat_l_inv in H; [lia | reflexivity]. }
  rewrite round_nonzero by lra. unfold ulp. fold e.
  assert (Hu : (2:Q) ^ (e - 52) == / inject_Z (2 ^ (52 - e))).
  { replace (e - 52)%Z with (- (52 - e))%Z by lia.
    rewrite Qpower_opp. rewrite Zpower_Qpower by lia. reflexivity. }
  assert (Hp : 0 < inject_Z (2 ^ (52 - e))).
  { change 0 with (inject_Z 0). rewrite <- Zlt_Qlt. apply Z.pow_pos_nonneg; lia. }
  rewrite (nearestEven_comp _ (inject_Z (n * 2 ^ (52 - e)))).
  - rewrite nearestEven_Z, Hu, inject_Z_mult. field. lra.
  - rewrite Hu, inject_Z_mult. field. lra.
Qed.

Lemma isDouble_Z (n : Z) : (0 <= n <= 2 ^ 53)%Z -> isDouble (inject_Z n) = true.
Proof. intros H. apply Qeq_bool_iff. now apply round_Z. Qed.

Lemma isDouble_comp (q q' : Q) : q == q' -> isDouble q = isDouble q'.
Proof.
  intros H. unfold isDouble. apply eq_true_iff_eq.
  rewrite !Qeq_bool_iff. rewrite (round_comp q q' H), H. reflexivity.
Qed.

(** Halving is exact. *)
Lemma round_half (q : Q) : round (q / 2) == round q / 2.
Proof.
  assert (E : q == 2 * (q / 2)) by (field).
  pose proof (round_comp q _ E) as H. rewrite round_twice in H.
  rewrite H. field.
Qed.

Lemma isDouble_half (q : Q) : isDouble q = true -> isDouble (q / 2) = true.
Proof.
  unfold isDouble. rewrite !Qeq_bool_iff. intros H. rewrite round_half, H. reflexivity.
Qed.

(** From [2^52] on, the doubles are whole numbers. *)
Lemma isDouble_whole (a : Q) :
  isDouble a = true -> inject_Z (2 ^ 52) <= a -> a == inject_Z (Qfloor a).
Proof.
  intros Ha Hbig.
  assert (Hpos : 0 < a).
  { eapply Qlt_le_trans; [| exact Hbig]. reflexivity. }
  destruct (exponent_spec a ltac:(lra)) as [_ Hhi].
  rewrite Qabs_of_pos in Hhi by exact Hpos.
  assert (He : (52 <= exponent a)%Z).
  { assert (H : (2:Q) ^ 52 < 2 ^ (exponent a + 1)).
    { change ((2:Q) ^ 52) with (inject_Z (2 ^ 52)). lra. }
    apply Qpower_lt_compat_l_inv in H; [lia | reflexivity]. }
  pose proof (isDouble_units a Ha ltac:(lra)) as Hu.
  assert (Hulp : ulp a == inject_Z (2 ^ (exponent a - 52))).
  { unfold ulp. rewrite Zpower_Qpower by lia. reflexivity. }
  set (z := nearestEven (a / ulp a)) in Hu.
  rewrite Hulp, <- inject_Z_mult in Hu.
  rewrite (Qfloor_comp _ _ Hu), Qfloor_Z. exact Hu.
Qed.

(** The rounding at work: [2^53 + 1] lies half way between two doubles and
    goes to the even one, [2^53]; [2^53 + 3] goes to [2^53 + 4]; a tenth
    is not a double, and the sum of the doubles nearest to 0.1 and 0.2 is
    rounded to a double above the one nearest to 0.3. *)
Example round_examples :
  round (inject_Z (2 ^ 53) + 1) == inject_Z (2 ^ 53)
  /\ round (inject_Z (2 ^ 53) + 3) == inject_Z (2 ^ 53) + 4
  /\ isDouble (1 # 10) = false
  /\ round (1 # 10) == 3602879701896397 # 36028797018963968
  /\ round (3 # 10) < round (round (1 # 10) + round (2 # 10)).
Proof. repeat split; vm_compute; reflexivity. Qed.

(** The same sums in the binary64 addition that the Standard Library
    specifies: [2^53 + 1] gives [2^53], and [(2^53 - 1) + 2^53] gives
    [2^54], as [round] has it. *)
Example round_agrees_with_binary64 :
  let big := SpecFloat.S754_finite false (2 ^ 52) 1 in
  let one := SpecFloat.S754_finite false (2 ^ 52) (-52) in
  let below := SpecFloat.S754_finite false (2 ^ 53 - 1) 0 in
  option_map Qred (ofSpecFloat big) = Some (inject_Z (2 ^ 53))
  /\ option_map Qred (ofSpecFloat one) = Some 1
  /\ option_map Qred (ofSpecFloat below) = Some (inject_Z (2 ^ 53 - 1))
  /\ option_map Qred (ofSpecFloat (SpecFloat.SFadd 53 1024 big one))
     = Some (round (inject_Z (2 ^ 53) + 1))
  /\ option_map Qred (ofSpecFloat (SpecFloat.SFadd 53 1024 below big))
     = Some (round (inject_Z (2 ^ 53 - 1) + inject_Z (2 ^ 53))).
Proof. repeat split; vm_compute; reflexivity. Qed.

End DoubleNumbers.

(** ** The search on doubles *)

Section SearchOnDoubles.

Import Double.

Variable h : Host.
Variable text : string.
Variables maxWidth maxHeight : Q.
Variable style : TextStyle.t.

Local Abbreviation dstep := (DoubleSearch.searchStep h text maxWidth maxHeight style).
Local Abbreviation dloop := (fun fuel => DoubleSearch.searchLoop fuel h text maxWidth maxHeight style).

(** The middle lies between the bounds, although the sum is rounded. *)
Lemma double_mid_between (lo hi : Q) (l : Z) :
  lo == inject_Z l -> (4 <= l <= 2 ^ 53)%Z -> isDouble hi = true -> lo <= hi ->
  (l <= Math.floor (round (round (lo + hi) / 2)))%Z
  /\ inject_Z (Math.floor (round (round (lo + hi) / 2))) <= hi.
Proof.
  intros Hlo Hl Hhi Hle.
  assert (Hl4 : 4 <= inject_Z l) by (change 4 with (inject_Z 4); rewrite <- Zle_Qle; lia).
  assert (Hdl : isDouble lo = true).
  { rewrite (isDouble_comp lo (inject_Z l) Hlo). apply isDouble_Z. lia. }
  assert (H2l : 2 * lo <= round (lo + hi)).
  { apply round_ge_double; [now apply isDouble_twice | lra | lra]. }
  assert (H2h : round (lo + hi) <= 2 * hi).
  { apply round_le_double; [now apply isDouble_twice | lra | lra]. }
  assert (Hhalf : lo <= round (lo + hi) / 2 /\ round (lo + hi) / 2 <= hi).
  { unfold Qdiv. change (/ 2) with (1 # 2). split; lra. }
  destruct Hhalf as [Hhalf1 Hhalf2].
  set (m := round (lo + hi) / 2) in *.
  assert (Hl' : lo <= round m).
  { apply round_ge_double; [exact Hdl | lra | exact Hhalf1]. }
  assert (Hh' : round m <= hi).
  { apply round_le_double; [exact Hhi | lra | exact Hhalf2]. }
  unfold Math.floor. split.
  - rewrite Hlo in Hl'. apply Qfloor_resp_le in Hl'. now rewrite Qfloor_Z in Hl'.
  - eapply Qle_trans; [apply Qfloor_le | exact Hh'].
Qed.

(** The middle splits the candidates in two halves, although the sum is
    rounded: twice the middle is within one of the sum of the bounds. *)
Lemma double_mid_tight (lo hi : Q) (l : Z) :
  lo == inject_Z l -> (4 <= l <= 2 ^ 53)%Z -> isDouble hi = true -> lo <= hi ->
  hi < inject_Z (2 ^ 53) ->
  (l + Qfloor hi - 1 <= 2 * Math.floor (round (round (lo + hi) / 2))
   <= l + Qfloor hi + 1)%Z.
Proof.
  intros Hlo Hl Hhi Hle Hbelow.
  pose proof (Qfloor_le hi) as Hf1. pose proof (Qlt_floor hi) as Hf2.
  rewrite inject_Z_plus in Hf2. change (inject_Z 1) with 1 in Hf2.
  set (H := Qfloor hi) in *.
  assert (HlH : (l <= H)%Z).
  { assert (E : inject_Z l <= hi) by lra.
    apply Qfloor_resp_le in E. now rewrite Qfloor_Z in E. }
  assert (HH : (H < 2 ^ 53)%Z) by (rewrite Zlt_Qlt; lra).
  set (m := round (lo + hi) / 2).
  assert (Hm : round (lo + hi) == 2 * m) by (subst m; field).
  assert (Hl4 : 4 <= inject_Z l)
    by (change 4 with (inject_Z 4); rewrite <- Zle_Qle; lia).
  unfold Math.floor. split.
  - (* below: twice the half of [l + H], rounded down *)
    pose proof (Z.div_mod (l + H) 2 ltac:(lia)) as Hdiv.
    pose proof (Z.mod_pos_bound (l + H) 2 ltac:(lia)) as Hmod.
    set (k := ((l + H) / 2)%Z) in *.
    assert (Hk : isDouble (inject_Z k) = true) by (apply isDouble_Z; lia).
    assert (Hk4 : 4 <= inject_Z k)
      by (change 4 with (inject_Z 4); rewrite <- Zle_Qle; lia).
    assert (Hsum : 2 * inject_Z k <= lo + hi).
    { assert (E : inject_Z (2 * k) <= inject_Z (l + H)) by (rewrite <- Zle_Qle; lia).
      rewrite !inject_Z_mult, inject_Z_plus in E. change (inject_Z 2) with 2 in E. lra. }
    assert (H1 : 2 * inject_Z k <= round (lo + hi)).
    { apply round_ge_double; [now apply isDouble_twice | lra | exact Hsum]. }
    assert (H2 : inject_Z k <= round m).
    { apply round_ge_double; [exact Hk | lra | lra]. }
    apply Qfloor_resp_le in H2. rewrite Qfloor_Z in H2. lia.
  - (* above *)
    assert (Hmid : inject_Z (Qfloor (round m)) <= round m) by apply Qfloor_le.
    assert (Hmpos : 0 < m).
    { assert (E : 2 * lo <= round (lo + hi)).
      { apply round_ge_double; [| lra | lra].
        apply isDouble_twice. rewrite (isDouble_comp lo (inject_Z l) Hlo).
        apply isDouble_Z. lia. }
      lra. }
    destruct (Qlt_le_dec hi (inject_Z (2 ^ 52))) as [Hsmall | Hbig].
    + (* below [2^52] the next whole number above the sum is a double *)
      assert (HH' : (H < 2 ^ 52)%Z) by (rewrite Zlt_Qlt; lra).
      assert (Hup : isDouble (inject_Z (l + H + 1)) = true) by (apply isDouble_Z; lia).
      assert (E : inject_Z (l + H + 1) == inject_Z l + inject_Z H + 1).
      { rewrite !inject_Z_plus. reflexivity. }
      assert (H1 : round (lo + hi) <= inject_Z (l + H + 1)).
      { apply round_le_double; [exact Hup | lra | lra]. }
      assert (H2 : round m <= inject_Z (l + H + 1) / 2).
      { apply round_le_double; [now apply isDouble_half | exact Hmpos |].
        unfold Qdiv. change (/ 2) with (1 # 2). lra. }
      assert (H3 : inject_Z (2 * Qfloor (round m)) <= inject_Z (l + H + 1)).
      { rewrite inject_Z_mult. change (inject_Z 2) with 2.
        unfold Qdiv in H2. change (/ 2) with (1 # 2) in H2. lra. }
      rewrite <- Zle_Qle in H3. exact H3.
    + (* from [2^52] on [high] is a whole number, and so is the sum *)
      pose proof (isDouble_whole hi Hhi Hbig) as Hwhole. fold H in Hwhole.
      pose proof (Z.div_mod (l + H + 1) 2 ltac:(lia)) as Hdiv.
      pose proof (Z.mod_pos_bound (l + H + 1) 2 ltac:(lia)) as Hmod.
      set (k := ((l + H + 1) / 2)%Z) in *.
      assert (Hk : isDouble (inject_Z k) = true) by (apply isDouble_Z; lia).
      assert (Hsum : lo + hi <= 2 * inject_Z k).
      { assert (E : inject_Z (l + H) <= inject_Z (2 * k)) by (rewrite <- Zle_Qle; lia).
        rewrite !inject_Z_mult, inject_Z_plus in E. change (inject_Z 2) with 2 in E. lra. }
      assert (H1 : round (lo + hi) <= 2 * inject_Z k).
      { apply round_le_double; [now apply isDouble_twice | lra | exact Hsum]. }
      assert (H2 : round m <= inject_Z k).
      { apply round_le_double; [exact Hk | exact Hmpos | lra]. }
      assert (H3 : inject_Z (Qfloor (round m)) <= inject_Z k) by lra.
      rewrite <- Zle_Qle in H3. lia.
Qed.

(** One pass under the invariant: the middle is a whole number between the
    bounds, and the bound that is assigned is the middle plus or minus one,
    exactly. *)
Lemma double_searchStep_cases (st st' : DoubleSearch.SearchState) :
  doubleInv st -> dstep st = Some st' ->
  exists mid : Z,
    DoubleSearch.low st <= inject_Z mid /\ inject_Z mid <= DoubleSearch.high st
    /\ ((DoubleSearch.low st' == inject_Z mid + 1 /\ DoubleSearch.high st' = DoubleSearch.high st)
        \/ (DoubleSearch.low st' = DoubleSearch.low st /\ DoubleSearch.high st' == inject_Z mid - 1))
    /\ doubleInv st'
    /\ (Qfloor (DoubleSearch.low st) + Qfloor (DoubleSearch.high st) - 1 <= 2 * mid
        <= Qfloor (DoubleSearch.low st) + Qfloor (DoubleSearch.high st) + 1)%Z
    /\ measured (DoubleSearch.sctx st')
       = measured (DoubleSearch.sctx st) ++ probesOf style text [mid].
Proof.
  intros ((l & Hlo & Hl) & Hdh & Hh) Hstep. unfold DoubleSearch.searchStep in Hstep.
  destruct (Qle_bool (DoubleSearch.low st) (DoubleSearch.high st)) eqn:Hcond; [| discriminate].
  apply Qle_bool_iff in Hcond.
  destruct (double_mid_between _ _ l Hlo Hl Hdh Hcond) as [Hm1 Hm2].
  pose proof (double_mid_tight _ _ l Hlo Hl Hdh Hcond Hh) as Htight.
  assert (Hfl : Qfloor (DoubleSearch.low st) = l).
  { rewrite (Qfloor_comp _ _ Hlo). apply Qfloor_Z. }
  rewrite <- Hfl in Htight.
  cbv zeta in Hstep.
  set (mid := Math.floor (round (round (DoubleSearch.low st + DoubleSearch.high st) / 2))) in *.
  assert (Hmid : (mid < 2 ^ 53)%Z) by (rewrite Zlt_Qlt; lra).
  assert (Hplus : round (inject_Z mid + 1) == inject_Z mid + 1).
  { change 1 with (inject_Z 1). rewrite <- inject_Z_plus. apply round_Z. lia. }
  assert (Hminus : round (inject_Z mid - 1) == inject_Z mid - 1).
  { assert (E : inject_Z mid - 1 == inject_Z (mid - 1)).
    { unfold Z.sub. rewrite inject_Z_plus. reflexivity. }
    rewrite (round_comp _ _ E), E. apply round_Z. lia. }
  exists mid. split; [rewrite Hlo, <- Zle_Qle; exact Hm1 |]. split; [exact Hm2 |].
  match type of Hstep with (if ?c then _ else _) = _ => destruct c end;
    inversion Hstep; subst st'; clear Hstep; unfold doubleInv;
    cbn [DoubleSearch.low DoubleSearch.high].
  - split; [left; split; [exact Hplus | reflexivity] |].
    split; [| split; [exact Htight | reflexivity]].
    split; [| split; assumption].
    exists (mid + 1)%Z. split; [| lia].
    eapply Qeq_trans; [exact Hplus |]. rewrite inject_Z_plus. reflexivity.
  - split; [right; split; [reflexivity | exact Hminus] |].
    split; [| split; [exact Htight | reflexivity]].
    split; [exists l; split; assumption |]. split.
    + assert (E : inject_Z mid - 1 == inject_Z (mid - 1)).
      { unfold Z.sub. rewrite inject_Z_plus. reflexivity. }
      rewrite (isDouble_comp _ (inject_Z (mid - 1)))
        by (eapply Qeq_trans; [exact Hminus | exact E]).
      apply isDouble_Z. lia.
    + lra.
Qed.

Lemma double_searchStep_keeps (st st' : DoubleSearch.SearchState) :
  doubleInv st -> dstep st = Some st' -> doubleInv st'.
Proof.
  intros Hinv Hstep.
  destruct (double_searchStep_cases st st' Hinv Hstep) as (_ & _ & _ & _ & H & _). exact H.
Qed.

Lemma double_searchStep_progress (st st' : DoubleSearch.SearchState) :
  doubleInv st -> dstep st = Some st' ->
  (DoubleSearch.low st < DoubleSearch.low st' /\ DoubleSearch.high st' = DoubleSearch.high st)
  \/ (DoubleSearch.low st' = DoubleSearch.low st /\ DoubleSearch.high st' < DoubleSearch.high st).
Proof.
  intros Hinv Hstep.
  destruct (double_searchStep_cases st st' Hinv Hstep)
    as (mid & H1 & H2 & [[L Hh] | [L Hh]] & _).
  - left. split; [lra | exact Hh].
  - right. split; [exact L | lra].
Qed.

Lemma double_searchStep_measure (st st' : DoubleSearch.SearchState) :
  doubleInv st -> dstep st = Some st' -> (doubleMeasure st' < doubleMeasure st)%nat.
Proof.
  intros Hinv Hstep.
  destruct (double_searchStep_cases st st' Hinv Hstep)
    as (mid & H1 & H2 & Hcase & _).
  unfold doubleMeasure, doubleSpan.
  assert (F1 : (Qfloor (DoubleSearch.low st) <= mid)%Z).
  { apply Qfloor_resp_le in H1. now rewrite Qfloor_Z in H1. }
  assert (F2 : (mid <= Qfloor (DoubleSearch.high st))%Z).
  { apply Qfloor_resp_le in H2. now rewrite Qfloor_Z in H2. }
  destruct Hcase as [[L Hh] | [L Hh]].
  - rewrite Hh.
    assert (E : Qfloor (DoubleSearch.low st') = (mid + 1)%Z).
    { rewrite (Qfloor_comp _ (inject_Z (mid + 1))); [apply Qfloor_Z |].
      rewrite L, inject_Z_plus. reflexivity. }
    rewrite E. lia.
  - rewrite L.
    assert (E : Qfloor (DoubleSearch.high st') = (mid - 1)%Z).
    { rewrite (Qfloor_comp _ (inject_Z (mid - 1))); [apply Qfloor_Z |].
      rewrite Hh. unfold Z.sub. rewrite inject_Z_plus. reflexivity. }
    rewrite E. lia.
Qed.

Lemma double_searchLoop_enough_fuel (fuel : nat) (st : DoubleSearch.SearchState) :
  doubleInv st -> (doubleMeasure st < fuel)%nat ->
  exists final, dloop fuel st = Some final /\ dstep final = None.
Proof.
  revert st. induction fuel as [| fuel IH]; intros st Hinv Hm; [lia |].
  cbn. destruct (dstep st) as [st' |] eqn:Hstep.
  - apply IH; [now apply (double_searchStep_keeps st) |].
    pose proof (double_searchStep_measure _ _ Hinv Hstep). lia.
  - now exists st.
Qed.

Lemma double_searchLoop_more_fuel (fuel fuel' : nat) (st final : DoubleSearch.SearchState) :
  dloop fuel st = Some final -> (fuel <= fuel')%nat -> dloop fuel' st = Some final.
Proof.
  revert fuel' st. induction fuel as [| fuel IH]; intros fuel' st Hrun Hle; [discriminate |].
  destruct fuel' as [| fuel']; [lia |].
  cbn in *. destruct (dstep st) as [st' |]; [| assumption].
  apply IH; [assumption | lia].
Qed.

Lemma double_passes_keep (n : nat) (st st' : DoubleSearch.SearchState) :
  doubleInv st -> DoubleSearch.passes n h text maxWidth maxHeight style st = Some st' ->
  doubleInv st'.
Proof.
  revert st. induction n as [| n IH]; intros st Hinv Hrun; cbn in Hrun.
  - inversion Hrun; subst. exact Hinv.
  - destruct (dstep st) as [st1 |] eqn:Hstep; [| discriminate].
    apply (IH st1); [now apply (double_searchStep_keeps st) | exact Hrun].
Qed.

Lemma double_searchInit_inv (ctx : Ctx) :
  isDouble maxWidth = true -> isDouble maxHeight = true ->
  Math.max maxHeight maxWidth < inject_Z (2 ^ 53) ->
  doubleInv (DoubleSearch.searchInit ctx maxWidth maxHeight).
Proof.
  intros Hw Hh Hmax. split; [exists 4%Z; split; [reflexivity | lia] |].
  split; [| exact Hmax]. cbn [DoubleSearch.searchInit DoubleSearch.high].
  unfold Math.max. destruct (Qle_bool maxHeight maxWidth); assumption.
Qed.

Lemma double_searchStep_none (st : DoubleSearch.SearchState) :
  dstep st = None -> Qle_bool (DoubleSearch.low st) (DoubleSearch.high st) = false.
Proof.
  unfold DoubleSearch.searchStep.
  destruct (Qle_bool (DoubleSearch.low st) (DoubleSearch.high st)); [| reflexivity].
  cbv zeta. match goal with |- (if ?c then _ else _) = _ -> _ => destruct c end; discriminate.
Qed.

(** Each pass leaves at most half of the candidates. *)
Lemma double_searchStep_halves (st st' : DoubleSearch.SearchState) :
  doubleInv st -> dstep st = Some st' ->
  (1 <= doubleSpan st /\ 2 * doubleSpan st' <= doubleSpan st)%Z.
Proof.
  intros Hinv Hstep.
  destruct (double_searchStep_cases st st' Hinv Hstep)
    as (mid & H1 & H2 & Hcase & _ & Htight & _).
  unfold doubleSpan.
  assert (F1 : (Qfloor (DoubleSearch.low st) <= mid)%Z).
  { apply Qfloor_resp_le in H1. now rewrite Qfloor_Z in H1. }
  assert (F2 : (mid <= Qfloor (DoubleSearch.high st))%Z).
  { apply Qfloor_resp_le in H2. now rewrite Qfloor_Z in H2. }
  destruct Hcase as [[L Hh] | [L Hh]].
  - rewrite Hh.
    assert (E : Qfloor (DoubleSearch.low st') = (mid + 1)%Z).
    { rewrite (Qfloor_comp _ (inject_Z (mid + 1))); [apply Qfloor_Z |].
      rewrite L, inject_Z_plus. reflexivity. }
    rewrite E. lia.
  - rewrite L.
    assert (E : Qfloor (DoubleSearch.high st') = (mid - 1)%Z).
    { rewrite (Qfloor_comp _ (inject_Z (mid - 1))); [apply Qfloor_Z |].
      rewrite Hh. unfold Z.sub. rewrite inject_Z_plus. reflexivity. }
    rewrite E. lia.
Qed.

Lemma double_searchLoop_probe_count (fuel : nat) :
  forall st final : DoubleSearch.SearchState,
    doubleInv st -> dloop fuel st = Some final ->
    exists cs : list Z,
      measured (DoubleSearch.sctx final) = measured (DoubleSearch.sctx st) ++ probesOf style text cs
      /\ (2 ^ Z.of_nat (List.length cs) <= 2 * Z.max 1 (doubleSpan st))%Z
      /\ ((doubleSpan st <= 0)%Z -> cs = []).
Proof.
  induction fuel as [| fuel IH]; intros st final Hinv Hrun; [discriminate |].
  cbn [DoubleSearch.searchLoop] in Hrun.
  destruct (dstep st) as [st' |] eqn:Hstep.
  - destruct (double_searchStep_cases st st' Hinv Hstep)
      as (mid & _ & _ & _ & Hinv' & _ & Em).
    destruct (IH _ _ Hinv' Hrun) as (cs & Hm & Hcount & Hnone).
    destruct (double_searchStep_halves _ _ Hinv Hstep) as [Hone Hhalf].
    exists (mid :: cs). split; [| split; [| lia]].
    + rewrite Hm, Em, <- app_assoc. reflexivity.
    + cbn [List.length]. rewrite Nat2Z.inj_succ, Z.pow_succ_r by lia.
      destruct (Z_le_gt_dec (doubleSpan st') 0) as [Hz | Hpos].
      * rewrite (Hnone Hz). cbn [List.length]. change (2 ^ Z.of_nat 0)%Z with 1%Z. lia.
      * lia.
  - inversion Hrun; subst final. exists []. cbn [probesOf map List.length].
    rewrite app_nil_r. change (2 ^ Z.of_nat 0)%Z with 1%Z.
    split; [reflexivity |]. split; [lia | reflexivity].
Qed.

Lemma double_searchInit_measure (ctx : Ctx) :
  (doubleMeasure (DoubleSearch.searchInit ctx maxWidth maxHeight)
   < searchFuel maxWidth maxHeight)%nat.
Proof.
  unfold doubleMeasure, doubleSpan, searchFuel, DoubleSearch.searchInit.
  cbn [DoubleSearch.high DoubleSearch.low]. rewrite Qfloor_Z. unfold minFontSize. lia.
Qed.

End SearchOnDoubles.

Lemma double_passes_then_stuck (h : Host) (text : string) (maxWidth maxHeight : Q)
  (style : TextStyle.t) (n : nat) (st st' : DoubleSearch.SearchState) :
  DoubleSearch.passes n h text maxWidth maxHeight style st = Some st' ->
  (forall fuel, DoubleSearch.searchLoop fuel h text maxWidth maxHeight style st' = None) ->
  forall fuel, DoubleSearch.searchLoop fuel h text maxWidth maxHeight style st = None.
Proof.
  revert st. induction n as [| n IH]; intros st Hrun Hstuck fuel; cbn in Hrun.
  - inversion Hrun; subst. apply Hstuck.
  - destruct (DoubleSearch.searchStep h text maxWidth maxHeight style st) as [st1 |] eqn:Hstep;
      [| discriminate].
    destruct fuel as [| fuel]; [reflexivity |].
    cbn [DoubleSearch.searchLoop]. rewrite Hstep. now apply (IH st1).
Qed.

(** At [low = high = 2^53] a pass that fits leaves both where they are:
    [2^53 + 1] is rounded back to [2^53]. *)
Lemma double_searchStep_stuck (ctx : Ctx) (o : Z) :
  DoubleSearch.searchStep linearHost "I" twoTo53 twoTo53 halfLineStyle
    (DoubleSearch.mkSearch ctx twoTo53 twoTo53 o)
  = Some (DoubleSearch.mkSearch
            (fst (measureText linearHost
                    (setFont (buildFontString halfLineStyle (2 ^ 53)) ctx) "I"))
            twoTo53 twoTo53 (2 ^ 53)).
Proof. vm_compute. reflexivity. Qed.

Lemma double_searchLoop_stuck (fuel : nat) (ctx : Ctx) (o : Z) :
  DoubleSearch.searchLoop fuel linearHost "I" twoTo53 twoTo53 halfLineStyle
    (DoubleSearch.mkSearch ctx twoTo53 twoTo53 o) = None.
Proof.
  revert ctx o. induction fuel as [| fuel IH]; intros ctx o; [reflexivity |].
  cbn [DoubleSearch.searchLoop]. rewrite double_searchStep_stuck. apply IH.
Qed.

(** C9, as stated, fails: on a box of [2^53] by [2^53], with a text that
    fits at every size, the loop does not terminate.  After 52 passes [low]
    and [high] are both [2^53]; the next pass assigns [low] the double
    nearest to [2^53 + 1], which is [2^53], so that it increases neither
    [low] nor decreases [high], and no amount of fuel lets the loop exit. *)
Lemma searchLoop_runs_forever_at_2p53 :
  Double.isDouble twoTo53 = true
  /\ (exists st st' : DoubleSearch.SearchState,
        DoubleSearch.passes 52 linearHost "I" twoTo53 twoTo53 halfLineStyle
          (DoubleSearch.searchInit newContext twoTo53 twoTo53) = Some st
        /\ DoubleSearch.searchStep linearHost "I" twoTo53 twoTo53 halfLineStyle st = Some st'
        /\ DoubleSearch.low st' = DoubleSearch.low st
        /\ DoubleSearch.high st' = DoubleSearch.high st)
  /\ ~ exists (fuel : nat) (final : DoubleSearch.SearchState),
         DoubleSearch.searchLoop fuel linearHost "I" twoTo53 twoTo53 halfLineStyle
           (DoubleSearch.searchInit newContext twoTo53 twoTo53) = Some final.
Proof.
  assert (Hreach : exists ctx o,
             DoubleSearch.passes 52 linearHost "I" twoTo53 twoTo53 halfLineStyle
               (DoubleSearch.searchInit newContext twoTo53 twoTo53)
             = Some (DoubleSearch.mkSearch ctx twoTo53 twoTo53 o)).
  { do 2 eexists. vm_compute. reflexivity. }
  destruct Hreach as (c & o & Hreach).
  split; [vm_compute; reflexivity |]. split.
  - eexists. eexists. split; [exact Hreach |].
    split; [apply double_searchStep_stuck |]. split; reflexivity.
  - intros (fuel & final & Hrun).
    rewrite (double_passes_then_stuck _ _ _ _ _ 52 _ _ Hreach) in Hrun; [discriminate |].
    intros f. apply double_searchLoop_stuck.
Qed.

(** C9, amended.  On doubles the binary-search loop terminates when the two
    dimensions are doubles (whole or not, zero, negative) and the larger one
    is below [2^53], for every host, text and style: each pass of the run
    strictly increases [low] or strictly decreases [high], and the loop
    exits, with its condition [low <= high] false, within [searchFuel]
    tests of the condition, whatever fuel above that it is given. *)
Theorem searchLoop_terminates_on_doubles (h : Host) (ctx : Ctx) (text : string)
  (maxWidth maxHeight : Q) (style : TextStyle.t) :
  Double.isDouble maxWidth = true ->
  Double.isDouble maxHeight = true ->
  Math.max maxHeight maxWidth < inject_Z (2 ^ 53) ->
  (forall (n : nat) (st st' : DoubleSearch.SearchState),
      DoubleSearch.passes n h text maxWidth maxHeight style
        (DoubleSearch.searchInit ctx maxWidth maxHeight) = Some st ->
      DoubleSearch.searchStep h text maxWidth maxHeight style st = Some st' ->
      (DoubleSearch.low st < DoubleSearch.low st'
       /\ DoubleSearch.high st' = DoubleSearch.high st)
      \/ (DoubleSearch.low st' = DoubleSearch.low st
          /\ DoubleSearch.high st' < DoubleSearch.high st))
  /\ exists final : DoubleSearch.SearchState,
       Qle_bool (DoubleSearch.low final) (DoubleSearch.high final) = false
       /\ forall fuel : nat,
            (searchFuel maxWidth maxHeight <= fuel)%nat ->
            DoubleSearch.searchLoop fuel h text maxWidth maxHeight style
              (DoubleSearch.searchInit ctx maxWidth maxHeight) = Some final.
Proof.
  intros Hw Hh Hmax.
  pose proof (double_searchInit_inv maxWidth maxHeight ctx Hw Hh Hmax) as Hinit.
  split.
  - intros n st st' Hrun Hstep.
    apply (double_searchStep_progress h text maxWidth maxHeight style); [| exact Hstep].
    exact (double_passes_keep h text maxWidth maxHeight style n _ _ Hinit Hrun).
  - destruct (double_searchLoop_enough_fuel h text maxWidth maxHeight style
                (searchFuel maxWidth maxHeight) _ Hinit) as (final & Hrun & Hexit).
    { apply double_searchInit_measure. }
    exists final. split; [now apply (double_searchStep_none h text maxWidth maxHeight style) |].
    intros fuel Hfuel.
    now apply (double_searchLoop_more_fuel h text maxWidth maxHeight style
                 (searchFuel maxWidth maxHeight)).
Qed.

Lemma searchLoop_terminates_on_doubles_witness :
  (forall (n : nat) (st st' : DoubleSearch.SearchState),
      DoubleSearch.passes n linearHost "Bob" (Double.round (1003 # 10)) 50 defaultStyle
        (DoubleSearch.searchInit newContext (Double.round (1003 # 10)) 50) = Some st ->
      DoubleSearch.searchStep linearHost "Bob" (Double.round (1003 # 10)) 50 defaultStyle st
      = Some st' ->
      (DoubleSearch.low st < DoubleSearch.low st'
       /\ DoubleSearch.high st' = DoubleSearch.high st)
      \/ (DoubleSearch.low st' = DoubleSearch.low st
          /\ DoubleSearch.high st' < DoubleSearch.high st))
  /\ exists final : DoubleSearch.SearchState,
       Qle_bool (DoubleSearch.low final) (DoubleSearch.high final) = false
       /\ forall fuel : nat,
            (searchFuel (Double.round (1003 # 10)) 50 <= fuel)%nat ->
            DoubleSearch.searchLoop fuel linearHost "Bob" (Double.round (1003 # 10)) 50
              defaultStyle
              (DoubleSearch.searchInit newContext (Double.round (1003 # 10)) 50)
            = Some final.
Proof.
  apply (searchLoop_terminates_on_doubles linearHost newContext "Bob"
           (Double.round (1003 # 10)) 50 defaultStyle); vm_compute; reflexivity.
Defined.

(** One less and the loop ends: on a box of [2^53 - 1] by [2^53 - 1] the
    same search exits after 53 probes and returns [2^53 - 1]. *)
Example searchLoop_ends_below_2p53 :
  exists ctx : Ctx,
    DoubleSearch.calculateOptimalFontSize 54 linearHost newContext "I"
      (twoTo53 - 1) (twoTo53 - 1) halfLineStyle
    = Some (ctx, (2 ^ 53 - 1)%Z)
    /\ List.length (measured ctx) = 53%nat.
Proof. eexists. split; vm_compute; reflexivity. Qed.

(** ** Letter spacing *)

Section LetterSpacing.

Variable h : Host.
Variable letterSpacing : Q.

Lemma measureChars_state (chars : list string) (ctx : Ctx) (acc : Q) :
  gstate (fst (measureChars h chars letterSpacing ctx acc)) = gstate ctx
  /\ painted (fst (measureChars h chars letterSpacing ctx acc)) = painted ctx
  /\ saved (fst (measureChars h chars letterSpacing ctx acc)) = saved ctx
  /\ path (fst (measureChars h chars letterSpacing ctx acc)) = path ctx.
Proof.
  revert ctx acc. induction chars as [| c rest IH]; intros ctx acc; cbn [measureChars].
  - repeat split.
  - destruct (IH (fst (measureText h ctx c))
                 (acc + (snd (measureText h ctx c) + letterSpacing)))
      as (G & P & S & T).
    rewrite G, P, S, T. repeat split.
Qed.

(** The first loop adds, to what it starts from, every width and one
    spacing per character. *)
Lemma measureChars_total (chars : list string) (ctx : Ctx) (acc : Q) :
  snd (measureChars h chars letterSpacing ctx acc)
  == acc + sumQ (map (hostMeasureText h (font (gstate ctx))) chars)
     + inject_Z (Z.of_nat (List.length chars)) * letterSpacing.
Proof.
  revert ctx acc. induction chars as [| c rest IH]; intros ctx acc.
  - cbn [measureChars snd map sumQ List.length Z.of_nat]. change (inject_Z 0) with 0. lra.
  - cbn [measureChars]. rewrite IH.
    change (font (gstate (fst (measureText h ctx c)))) with (font (gstate ctx)).
    change (snd (measureText h ctx c)) with (hostMeasureText h (font (gstate ctx)) c).
    cbn [map sumQ List.length]. rewrite Nat2Z.inj_succ. unfold Z.succ.
    rewrite inject_Z_plus. change (inject_Z 1) with 1. lra.
Qed.

(** The second loop: the cursor starts at [x0], each character is painted
    with its centre half its width after the cursor, and the cursor then
    advances by the width of the character plus the spacing. *)
Lemma paintChars_cursors (ty : Q) (chars : list string) (ctx : Ctx) (x0 : Q) :
  exists xs cursors : list Q,
    List.length xs = List.length chars
    /\ List.length cursors = S (List.length chars)
    /\ nth 0 cursors 0 = x0
    /\ nth (List.length chars) cursors 0 = snd (paintChars h chars ty letterSpacing ctx x0)
    /\ (forall k : nat, (k < List.length chars)%nat ->
          nth (S k) cursors 0
          == nth k cursors 0
             + (nth k (map (hostMeasureText h (font (gstate ctx))) chars) 0 + letterSpacing)
          /\ nth k xs 0
             == nth k cursors 0
                + nth k (map (hostMeasureText h (font (gstate ctx))) chars) 0 / 2)
    /\ painted (fst (paintChars h chars ty letterSpacing ctx x0))
       = painted ctx ++ glyphOps (gstate ctx) chars xs ty
    /\ gstate (fst (paintChars h chars ty letterSpacing ctx x0)) = gstate ctx.
Proof.
  revert ctx x0. induction chars as [| c rest IH]; intros ctx x0.
  - exists [], [x0]. cbn. repeat split; try reflexivity; try lia.
    now rewrite app_nil_r.
  - cbn [paintChars].
    set (w := snd (measureText h ctx c)).
    set (ctx' := fillText c (x0 + w / 2) ty (fst (measureText h ctx c))).
    destruct (IH ctx' (x0 + (w + letterSpacing)))
      as (xs & cs & Lx & Lc & C0 & Cn & Hadv & Hp & Hg).
    change (gstate ctx') with (gstate ctx) in *.
    exists ((x0 + w / 2) :: xs), (x0 :: cs).
    split; [cbn; lia |]. split; [cbn; lia |]. split; [reflexivity |].
    split; [exact Cn |]. split; [| split].
    + intros [| k] Hk.
      * cbn [nth map]. rewrite C0. subst w. cbn. split; reflexivity.
      * cbn [nth map]. apply Hadv. cbn in Hk. lia.
    + rewrite Hp. subst ctx'. cbn. unfold glyphOps. cbn. rewrite <- app_assoc. reflexivity.
    + exact Hg.
Qed.

End LetterSpacing.

Lemma splitChars_length (text : string) :
  List.length (splitChars text) = String.length text.
Proof.
  unfold splitChars. rewrite length_map.
  induction text as [| c rest IH]; cbn; [reflexivity | now rewrite IH].
Qed.

(** C6.  For a text of [n] characters and every letter spacing, the total
    width that [drawTextWithLetterSpacing] computes is the sum of the [n]
    measured character widths plus [(n - 1) * letterSpacing]; the
    characters are painted from the cursor [tx - totalWidth / 2], each with
    its centre half its own width after the cursor, and after each
    character the cursor advances by that character's measured width plus
    [letterSpacing]. *)
Theorem drawTextWithLetterSpacing_total_width (h : Host) (ctx : Ctx) (text : string)
  (tx ty letterSpacing : Q) :
  snd (totalWidthOf h ctx text letterSpacing)
  == sumQ (charWidths h (font (gstate ctx)) text) + (strLength text - 1) * letterSpacing
  /\ exists xs cursors : list Q,
       List.length xs = String.length text
       /\ List.length cursors = S (String.length text)
       /\ nth 0 cursors 0 == tx - snd (totalWidthOf h ctx text letterSpacing) / 2
       /\ (forall k : nat, (k < String.length text)%nat ->
             nth (S k) cursors 0
             == nth k cursors 0
                + (nth k (charWidths h (font (gstate ctx)) text) 0 + letterSpacing)
             /\ nth k xs 0
                == nth k cursors 0 + nth k (charWidths h (font (gstate ctx)) text) 0 / 2)
       /\ painted (drawTextWithLetterSpacing h ctx text tx ty letterSpacing)
          = painted ctx ++ glyphOps (gstate ctx) (splitChars text) xs ty.
Proof.
  assert (Htotal : snd (totalWidthOf h ctx text letterSpacing)
            == sumQ (charWidths h (font (gstate ctx)) text)
               + (strLength text - 1) * letterSpacing).
  { unfold totalWidthOf. cbn [snd]. rewrite measureChars_total.
    rewrite splitChars_length. unfold charWidths, strLength. lra. }
  split; [exact Htotal |].
  unfold drawTextWithLetterSpacing.
  set (ctx1 := fst (totalWidthOf h ctx text letterSpacing)).
  assert (Hstate : gstate ctx1 = gstate ctx /\ painted ctx1 = painted ctx).
  { subst ctx1. unfold totalWidthOf. cbn [fst].
    destruct (measureChars_state h letterSpacing (splitChars text) ctx 0) as (G & P & _).
    now split. }
  destruct Hstate as [Hg Hp].
  destruct (paintChars_cursors h letterSpacing ty (splitChars text) ctx1
              (tx - snd (totalWidthOf h ctx text letterSpacing) / 2))
    as (xs & cs & Lx & Lc & C0 & _ & Hadv & Hpaint & _).
  rewrite splitChars_length in *. rewrite Hg, Hp in *.
  exists xs, cs. split; [exact Lx |]. split; [exact Lc |].
  split; [rewrite C0; reflexivity |]. split; [| exact Hpaint].
  intros k Hk. unfold charWidths. now apply Hadv.
Qed.

(** ** Text transforms *)




Lemma list_ascii_of_string_app (a b : string) :
  list_ascii_of_string (a ++ b) = list_ascii_of_string a ++ list_ascii_of_string b.
Proof.
  induction a as [| c a IH]; cbn; [reflexivity | now rewrite IH].
Qed.






(** A run that starts with a digit or an underscore keeps its letters as
    they are: the character that is upper-cased is the first of the run. *)
Example capitalize_first_character_of_run :
  applyTextTransform Capitalize "1abc _foo bar-baz" = "1abc _foo Bar-Baz"%string.
Proof. reflexivity. Qed.

(** ** The batch generator *)

Lemma indexedFrom_cons (i : nat) (raw : string) (rest : list string) :
  indexedFrom i (raw :: rest) = (i, raw) :: indexedFrom (S i) rest.
Proof. reflexivity. Qed.

Lemma renderedFrom_cons (h : Host) (i : nat) (raw : string) (rest : list string) :
  renderedFrom h i (raw :: rest)
  = (if isRendered h (i, raw) then [(i, trim raw)] else []) ++ renderedFrom h (S i) rest.
Proof.
  unfold renderedFrom. rewrite indexedFrom_cons. cbn [filter].
  destruct (isRendered h (i, raw)); reflexivity.
Qed.

Lemma indexedFrom_In (names : list string) (i j : nat) (raw : string) :
  In (j, raw) (indexedFrom i names)
  <-> (i <= j < i + List.length names)%nat /\ nth (j - i) names EmptyString = raw.
Proof.
  revert i. induction names as [| a rest IH]; intros i.
  - cbn. split; [tauto | lia].
  - rewrite indexedFrom_cons. cbn [In List.length]. rewrite IH. split.
    + intros [E | [Hr Hn]].
      * inversion E; subst. rewrite Nat.sub_diag. split; [lia | reflexivity].
      * split; [lia |]. replace (j - i)%nat with (S (j - S i)) by lia. exact Hn.
    + intros [Hr Hn]. destruct (Nat.eq_dec i j) as [E | Hne].
      * left. subst j. rewrite Nat.sub_diag in Hn. cbn in Hn. now subst.
      * right. split; [lia |].
        replace (j - i)%nat with (S (j - S i)) in Hn by lia. exact Hn.
Qed.

(** A name is among the rendered ones exactly when it is in the list, is
    not blank after trimming, and its canvas yields a context. *)
Lemma renderedNames_In (h : Host) (names : list string) (j : nat) (s : string) :
  In (j, s) (renderedNames h names)
  <-> (j < List.length names)%nat /\ s = trim (nth j names EmptyString)
      /\ isRendered h (j, nth j names EmptyString) = true.
Proof.
  unfold renderedNames, renderedFrom. rewrite in_map_iff. split.
  - intros ([j' raw] & E & Hin). cbn in E. inversion E; subst.
    apply filter_In in Hin as [Hin Hr]. apply indexedFrom_In in Hin as [Hj Hn].
    rewrite Nat.sub_0_r in Hn. subst raw. repeat split; [lia | assumption].
  - intros (Hj & Es & Hr). exists (j, nth j names EmptyString). split; [now subst |].
    apply filter_In. split; [| assumption].
    apply indexedFrom_In. rewrite Nat.sub_0_r. split; [lia | reflexivity].
Qed.

Lemma renderedFrom_all_contexts (h : Host) (names : list string) (i : nat) :
  (forall j : nat, hostGetContext h j = true) ->
  map snd (renderedFrom h i names)
  = filter (fun n => negb (isEmptyString n)) (map trim names).
Proof.
  intros Hctx. revert i. induction names as [| raw rest IH]; intros i; [reflexivity |].
  rewrite renderedFrom_cons, map_app, IH. cbn [map filter].
  unfold isRendered. cbn [fst snd]. rewrite Hctx, andb_true_r.
  destruct (isEmptyString (trim raw)); reflexivity.
Qed.

Section Batch.

Context {W : Type}.
Variable h : Host.
Variable img : HTMLImageElement.
Variables imageWidth imageHeight : Q.
Variable textAreas : list TextArea.t.
Variable onProgress : option (Z -> Z -> W -> W).
Variable total : Z.
Hypothesis Hencodes : encodes h.

(** The loop, from any index: it resolves, it calls [onProgress] once for
    each rendered name, in order, and it appends one record for each
    rendered name, in order. *)
Lemma generateLoop_rendered (rest : list string) (i : nat)
  (results : list GeneratedImage) (w : W) :
  exists recs : list GeneratedImage,
    generateLoop h img imageWidth imageHeight textAreas onProgress total i rest results w
    = (fold_left (fun w' p => notify onProgress ((Z.of_nat (fst p) + 1)%Z, total) w')
                 (renderedFrom h i rest) w,
       Resolved (results ++ recs))
    /\ map name recs = map snd (renderedFrom h i rest)
    /\ Forall (isOutputOf h img imageWidth imageHeight textAreas) recs.
Proof.
  revert i results w. induction rest as [| raw rest IH]; intros i results w.
  - exists []. cbn. rewrite app_nil_r. repeat split. constructor.
  - rewrite renderedFrom_cons. cbn [generateLoop]. unfold isRendered. cbn [fst snd].
    destruct (isEmptyString (trim raw)) eqn:Hblank; cbn [negb andb app].
    + apply IH.
    + destruct (hostGetContext h i) eqn:Hctx; cbn [negb app].
      * change {| canvasWidth := imageWidth; canvasHeight := imageHeight;
                  pixels := painted (drawAreas h (trim raw) textAreas
                              (drawImage img 0 0 imageWidth imageHeight newContext)) |}
          with (renderCanvas h img imageWidth imageHeight textAreas (trim raw)).
        destruct (hostToBlob h (renderCanvas h img imageWidth imageHeight textAreas (trim raw)))
          as [blob |] eqn:Hblob; [| now destruct (Hencodes _ Hblob)].
        destruct (IH (S i)
                    (results ++ [mkGenerated (trim raw)
                       (hostToDataURL h (renderCanvas h img imageWidth imageHeight textAreas (trim raw)))
                       blob])
                    (match onProgress with
                     | Some callback => callback (Z.of_nat i + 1)%Z total w
                     | None => w
                     end)) as (recs & Hrun & Hnames & Hout).
        exists (mkGenerated (trim raw)
                  (hostToDataURL h (renderCanvas h img imageWidth imageHeight textAreas (trim raw)))
                  blob :: recs).
        split; [| split].
        -- rewrite Hrun. cbn [fold_left fst]. rewrite <- app_assoc. reflexivity.
        -- cbn [map name snd]. now rewrite Hnames.
        -- constructor; [| assumption]. split; [exact Hblob | reflexivity].
      * apply IH.
Qed.

End Batch.

(** [generateImages], when the image loads and every canvas encodes. *)
Lemma generateImages_rendered {W : Type} (h : Host) (imageDataUrl : string)
  (imageWidth imageHeight : Q) (names : list string) (textAreas : list TextArea.t)
  (onProgress : option (Z -> Z -> W -> W)) (w : W) (img : HTMLImageElement) :
  hostLoadImage h imageDataUrl = Some img ->
  encodes h ->
  exists results : list GeneratedImage,
    generateImages h imageDataUrl imageWidth imageHeight names textAreas onProgress w
    = (fold_left (fun w' args => notify onProgress args w') (progressCalls h names) w,
       Resolved results)
    /\ map name results = map snd (renderedNames h names)
    /\ Forall (isOutputOf h img imageWidth imageHeight textAreas) results.
Proof.
  intros Hload Henc. unfold generateImages. rewrite Hload.
  destruct (generateLoop_rendered h img imageWidth imageHeight textAreas onProgress
              (Z.of_nat (List.length names)) Henc names 0 [] w) as (recs & Hrun & Hnames & Hout).
  exists recs. split; [| split; assumption].
  rewrite Hrun. cbn [app]. f_equal. clear Hrun.
  unfold progressCalls, renderedNames.
  generalize (renderedFrom h 0 names) as l. intros l. revert w.
  induction l as [| p l IHl]; intros w0; [reflexivity |]. cbn [map fold_left]. apply IHl.
Qed.

Lemma renderedFrom_indices (h : Host) (names : list string) (i : nat) :
  map fst (renderedFrom h i names)
  = filter (fun j => isRendered h (j, nth (j - i) names EmptyString))
           (seq i (List.length names)).
Proof.
  revert i. induction names as [| raw rest IH]; intros i; [reflexivity |].
  rewrite renderedFrom_cons, map_app, IH.
  assert (E : filter (fun j => isRendered h (j, nth (j - i) (raw :: rest) EmptyString))
                     (seq (S i) (List.length rest))
              = filter (fun j => isRendered h (j, nth (j - S i) rest EmptyString))
                       (seq (S i) (List.length rest))).
  { apply filter_ext_in. intros j Hj. apply in_seq in Hj.
    replace (j - i)%nat with (S (j - S i)) by lia. reflexivity. }
  cbn [List.length seq filter]. rewrite E, Nat.sub_diag. cbn [nth].
  destruct (isRendered h (i, raw)); reflexivity.
Qed.

(** The calls of [onProgress] are, in increasing order of the index, one
    for each index whose name is rendered. *)
Lemma progressCalls_indices (h : Host) (names : list string) :
  progressCalls h names
  = map (fun j => ((Z.of_nat j + 1)%Z, Z.of_nat (List.length names)))
        (filter (fun j => isRendered h (j, nth j names EmptyString))
                (seq 0 (List.length names))).
Proof.
  unfold progressCalls, renderedNames.
  rewrite <- (map_map fst (fun j => ((Z.of_nat j + 1)%Z, Z.of_nat (List.length names)))).
  rewrite renderedFrom_indices. f_equal.
  apply filter_ext. intros j. now rewrite Nat.sub_0_r.
Qed.

Lemma linearHost_encodes : encodes linearHost.
Proof. intros canvas. cbn. discriminate. Qed.

Lemma noContextAt_encodes (i : nat) : encodes (noContextAt i).
Proof. intros canvas. cbn. discriminate. Qed.

(** ** The claims about the batch generator *)

(** C3, as stated, fails: for the names "Alice", "  ", "" and "Bob" the
    callback is called twice, with (1, 4) and (4, 4), not four times. *)
Lemma blank_names_get_no_progress_call :
  fst (generateImages linearHost "data:image/png" 200 100 sampleNames [sampleArea]
         (Some logProgress) [])
  = [(1, 4); (4, 4)]%Z
  /\ List.length
       (fst (generateImages linearHost "data:image/png" 200 100 sampleNames [sampleArea]
               (Some logProgress) []))
     <> List.length sampleNames.
Proof.
  split; [vm_compute; reflexivity | vm_compute; discriminate].
Qed.

(** C3, amended.  When the image loads and every canvas encodes,
    [onProgress] is called exactly once for each name that is rendered
    (not blank after trimming, context obtained), in input order, with the
    arguments (index + 1, number of names), and it is not called for the
    other names: the caller's state after the batch is the one that these
    calls, in this order, produce. *)
Theorem generateImages_progress_calls {W : Type} (h : Host) (imageDataUrl : string)
  (imageWidth imageHeight : Q) (names : list string) (textAreas : list TextArea.t)
  (callback : Z -> Z -> W -> W) (w : W) (img : HTMLImageElement) :
  hostLoadImage h imageDataUrl = Some img ->
  encodes h ->
  fst (generateImages h imageDataUrl imageWidth imageHeight names textAreas (Some callback) w)
  = fold_left (fun w' args => callback (fst args) (snd args) w')
      (map (fun j => ((Z.of_nat j + 1)%Z, Z.of_nat (List.length names)))
           (filter (fun j => (negb (isEmptyString (trim (nth j names EmptyString)))
                              && hostGetContext h j)%bool)
                   (seq 0 (List.length names))))
      w.
Proof.
  intros Hload Henc.
  destruct (generateImages_rendered h imageDataUrl imageWidth imageHeight names textAreas
              (Some callback) w img Hload Henc) as (results & Hrun & _).
  rewrite Hrun, progressCalls_indices. reflexivity.
Qed.

Lemma generateImages_progress_calls_witness :
  fst (generateImages linearHost "data:image/png" 200 100 ["Ann"; " "; "Bo "]%string [sampleArea]
         (Some logProgress) [])
  = [(1, 3); (3, 3)]%Z.
Proof.
  rewrite (generateImages_progress_calls linearHost "data:image/png" 200 100
             ["Ann"; " "; "Bo "]%string [sampleArea] logProgress []
             {| src := "data:image/png" |}).
  - reflexivity.
  - reflexivity.
  - exact linearHost_encodes.
Defined.

(** C4.  When the image loads, every canvas yields a context and every
    canvas encodes, [generateImages] resolves to one record per name that
    is not empty after trimming, in input order; the record's name is the
    trimmed name, and its raster and blob are those of the canvas composed
    for that name; blank names get no record.  The names "Alice", "  ", ""
    and "Bob" yield the two records of "Alice" and "Bob". *)
Theorem generateImages_records {W : Type} (h : Host) (imageDataUrl : string)
  (imageWidth imageHeight : Q) (names : list string) (textAreas : list TextArea.t)
  (onProgress : option (Z -> Z -> W -> W)) (w : W) (img : HTMLImageElement) :
  hostLoadImage h imageDataUrl = Some img ->
  (forall i : nat, hostGetContext h i = true) ->
  encodes h ->
  exists results : list GeneratedImage,
    snd (generateImages h imageDataUrl imageWidth imageHeight names textAreas onProgress w)
    = Resolved results
    /\ map name results = filter (fun n => negb (isEmptyString n)) (map trim names)
    /\ Forall (isOutputOf h img imageWidth imageHeight textAreas) results
    /\ (names = ["Alice"; "  "; ""; "Bob"]%string ->
        map name results = ["Alice"; "Bob"]%string).
Proof.
  intros Hload Hctx Henc.
  destruct (generateImages_rendered h imageDataUrl imageWidth imageHeight names textAreas
              onProgress w img Hload Henc) as (results & Hrun & Hnames & Hout).
  exists results. rewrite Hrun.
  assert (Hn : map name results = filter (fun n => negb (isEmptyString n)) (map trim names)).
  { rewrite Hnames. now apply renderedFrom_all_contexts. }
  split; [reflexivity |]. split; [exact Hn |]. split; [exact Hout |].
  intros E. rewrite Hn, E. reflexivity.
Qed.

Lemma generateImages_records_witness :
  exists results : list GeneratedImage,
    snd (generateImages linearHost "data:image/png" 200 100 sampleNames [sampleArea]
           (Some logProgress) [])
    = Resolved results
    /\ map name results = ["Alice"; "Bob"]%string.
Proof.
  destruct (generateImages_records linearHost "data:image/png" 200 100 sampleNames [sampleArea]
              (Some logProgress) [] {| src := "data:image/png" |})
    as (results & Hrun & _ & _ & Hsample).
  - reflexivity.
  - intros i. reflexivity.
  - exact linearHost_encodes.
  - exists results. split; [exact Hrun | apply Hsample; reflexivity].
Defined.

(** C10.  When the canvas of the name at index [i] yields no context (the
    image loads and the canvases encode), that name is skipped silently:
    the batch still resolves, no record and no call of [onProgress] is made
    for index [i], and every other name that is not blank and whose canvas
    yields a context still gets its record and its call. *)
Theorem generateImages_skips_without_context {W : Type} (h : Host) (imageDataUrl : string)
  (imageWidth imageHeight : Q) (names : list string) (textAreas : list TextArea.t)
  (onProgress : option (Z -> Z -> W -> W)) (w : W) (img : HTMLImageElement) (i : nat) :
  hostLoadImage h imageDataUrl = Some img ->
  encodes h ->
  (i < List.length names)%nat ->
  hostGetContext h i = false ->
  exists results : list GeneratedImage,
    generateImages h imageDataUrl imageWidth imageHeight names textAreas onProgress w
    = (fold_left (fun w' args => notify onProgress args w') (progressCalls h names) w,
       Resolved results)
    /\ map name results = map snd (renderedNames h names)
    /\ ~ In i (map fst (renderedNames h names))
    /\ ~ In (Z.of_nat i + 1)%Z (map fst (progressCalls h names))
    /\ forall j : nat,
         (j < List.length names)%nat ->
         isEmptyString (trim (nth j names EmptyString)) = false ->
         hostGetContext h j = true ->
         In (j, trim (nth j names EmptyString)) (renderedNames h names)
         /\ In ((Z.of_nat j + 1)%Z, Z.of_nat (List.length names)) (progressCalls h names).
Proof.
  intros Hload Henc Hi Hctx.
  destruct (generateImages_rendered h imageDataUrl imageWidth imageHeight names textAreas
              onProgress w img Hload Henc) as (results & Hrun & Hnames & _).
  exists results. split; [exact Hrun |]. split; [exact Hnames |].
  assert (Hnot : ~ In i (map fst (renderedNames h names))).
  { intros Hin. apply in_map_iff in Hin as ([j s] & E & Hin). cbn in E. subst j.
    apply renderedNames_In in Hin as (_ & _ & Hr).
    unfold isRendered in Hr. cbn [fst snd] in Hr. rewrite Hctx, andb_false_r in Hr.
    discriminate. }
  split; [exact Hnot |]. split.
  - intros Hin. apply Hnot. unfold progressCalls in Hin. rewrite map_map in Hin. cbn [fst] in Hin.
    apply in_map_iff in Hin as (p & E & Hin). apply in_map_iff. exists p.
    split; [lia | assumption].
  - intros j Hj Hblank Hj_ctx.
    assert (Hin : In (j, trim (nth j names EmptyString)) (renderedNames h names)).
    { apply renderedNames_In. split; [assumption |]. split; [reflexivity |].
      unfold isRendered. cbn [fst snd]. now rewrite Hblank, Hj_ctx. }
    split; [exact Hin |]. unfold progressCalls. apply in_map_iff.
    exists (j, trim (nth j names EmptyString)). split; [reflexivity | exact Hin].
Qed.

Lemma generateImages_skips_without_context_witness :
  generateImages (noContextAt 0) "data:image/png" 200 100 sampleNames [sampleArea]
    (Some logProgress) []
  = ([(4, 4)]%Z,
     Resolved [recordOf (noContextAt 0) {| src := "data:image/png" |} 200 100 [sampleArea] "Bob"
                 {| mimeType := "image/png"; bytes := EmptyString |}]).
Proof.
  destruct (generateImages_skips_without_context (noContextAt 0) "data:image/png" 200 100
              sampleNames [sampleArea] (Some logProgress) [] {| src := "data:image/png" |} 0%nat)
    as (results & Hrun & _).
  - reflexivity.
  - exact (noContextAt_encodes 0).
  - cbn. lia.
  - reflexivity.
  - vm_compute. reflexivity.
Defined.

(** ** The shadow pattern *)

Lemma consumed_app (pre rest : list ascii) :
  consumed (pre ++ rest) rest = string_of_list_ascii pre.
Proof.
  unfold consumed. rewrite length_app.
  replace (List.length pre + List.length rest - List.length rest)%nat
    with (List.length pre + 0)%nat by lia.
  rewrite firstn_app_2. cbn. now rewrite app_nil_r.
Qed.

Lemma starMatch_sound {A : Type} (p : ascii -> bool) (input : list ascii)
  (k : list ascii -> option A) (x : A) :
  starMatch p input k = Some x ->
  exists pre rest : list ascii,
    input = pre ++ rest /\ Forall (fun a => p a = true) pre /\ k rest = Some x.
Proof.
  induction input as [| c input IH]; cbn; intros Hrun.
  - exists [], []. repeat split; [constructor | assumption].
  - destruct (p c) eqn:Hp; [destruct (starMatch p input k) as [y |] eqn:Hin |].
    + inversion Hrun; subst y. destruct (IH eq_refl) as (pre & rest & E & Hall & Hk).
      exists (c :: pre), rest. subst input. repeat split; [now constructor | assumption].
    + exists [], (c :: input). repeat split; [constructor | assumption].
    + exists [], (c :: input). repeat split; [constructor | assumption].
Qed.

(** The matcher only succeeds on a match: it hands its continuation the
    rest of the input after a prefix that the expression matches, and the
    captures made on that prefix. *)
Lemma matchRegex_sound {A : Type} (r : Regex) :
  forall (input : list ascii) (caps : list string)
         (k : list ascii -> list string -> option A) (x : A),
    matchRegex r input caps k = Some x ->
    exists (pre rest : list ascii) (new : list string),
      input = pre ++ rest /\ Matches r pre new /\ k rest (caps ++ new) = Some x.
Proof.
  induction r as [| c | p | r IH | p | p | r1 IH1 r2 IH2 | r IH]; intros input caps k x Hrun.
  - exists [], input, []. rewrite app_nil_r. repeat split; [constructor | assumption].
  - cbn in Hrun. destruct input as [| c' rest]; [discriminate |].
    destruct (Ascii.eqb_spec c c') as [E | _]; [subst c' | discriminate].
    exists [c], rest, []. rewrite app_nil_r. repeat split; [constructor | assumption].
  - cbn in Hrun. destruct input as [| c' rest]; [discriminate |].
    destruct (p c') eqn:Hp; [| discriminate].
    exists [c'], rest, []. rewrite app_nil_r. repeat split; [now constructor | assumption].
  - cbn in Hrun. destruct (matchRegex r input caps k) as [y |] eqn:Hin.
    + inversion Hrun; subst y. destruct (IH _ _ _ _ Hin) as (pre & rest & new & E & Hm & Hk).
      exists pre, rest, new. repeat split; [assumption | now constructor | assumption].
    + exists [], input, []. rewrite app_nil_r. repeat split; [apply MatchOptNone | assumption].
  - cbn in Hrun. destruct input as [| c' input]; [discriminate |].
    destruct (p c') eqn:Hp; [| discriminate].
    destruct (starMatch_sound _ _ _ _ Hrun) as (pre & rest & E & Hall & Hk).
    exists (c' :: pre), rest, []. subst input. rewrite app_nil_r.
    repeat split; [now constructor | assumption].
  - cbn in Hrun. destruct (starMatch_sound _ _ _ _ Hrun) as (pre & rest & E & Hall & Hk).
    exists pre, rest, []. rewrite app_nil_r. repeat split; [assumption | now constructor | assumption].
  - cbn in Hrun. destruct (IH1 _ _ _ _ Hrun) as (pre1 & rest1 & new1 & E1 & Hm1 & Hk1).
    destruct (IH2 _ _ _ _ Hk1) as (pre2 & rest2 & new2 & E2 & Hm2 & Hk2).
    exists (pre1 ++ pre2), rest2, (new1 ++ new2). subst. rewrite <- app_assoc.
    repeat split; [now constructor | now rewrite app_assoc].
  - cbn in Hrun. destruct (IH _ _ _ _ Hrun) as (pre & rest & new & E & Hm & Hk).
    exists pre, rest, (new ++ [string_of_list_ascii pre]). subst input.
    rewrite consumed_app in Hk. rewrite app_assoc.
    repeat split; [now constructor | assumption].
Qed.

(** A successful search returns the matched text and the captures of a
    match that starts somewhere in the input. *)
Lemma searchRegex_sound (r : Regex) (input : list ascii) (m : list string) :
  searchRegex r input = Some m ->
  exists (skipped pre rest : list ascii) (caps : list string),
    input = skipped ++ pre ++ rest /\ Matches r pre caps
    /\ m = string_of_list_ascii pre :: caps.
Proof.
  assert (Hhere : forall inp,
             matchRegex r inp [] (fun rest caps => Some (consumed inp rest :: caps)) = Some m ->
             exists pre rest caps, inp = pre ++ rest /\ Matches r pre caps
                                   /\ m = string_of_list_ascii pre :: caps).
  { intros inp Hrun. destruct (matchRegex_sound r _ _ _ _ Hrun) as (pre & rest & new & E & Hm & Hk).
    exists pre, rest, new. subst inp. rewrite consumed_app in Hk. cbn in Hk.
    inversion Hk. repeat split; assumption. }
  induction input as [| c input IH]; cbn; intros Hrun.
  - destruct (matchRegex r [] [] _) as [y |] eqn:Hin; [| discriminate].
    inversion Hrun; subst y. destruct (Hhere _ Hin) as (pre & rest & caps & E & Hm & Em).
    exists [], pre, rest, caps. repeat split; assumption.
  - destruct (matchRegex r (c :: input) [] _) as [y |] eqn:Hin.
    + inversion Hrun; subst y. destruct (Hhere _ Hin) as (pre & rest & caps & E & Hm & Em).
      exists [], pre, rest, caps. repeat split; assumption.
    + destruct (IH Hrun) as (skipped & pre & rest & caps & E & Hm & Em).
      exists (c :: skipped), pre, rest, caps. subst input. repeat split; assumption.
Qed.

(** An optional minus sign followed by digits parses to a number. *)
Lemma parseInt_signed_digits (sign : list ascii) (d : ascii) (ds : list ascii) :
  Matches (Opt (Lit "-")) sign [] -> isDigit d = true ->
  exists n : Z, parseInt (string_of_list_ascii (sign ++ d :: ds)) = Some n.
Proof.
  intros Hsign Hd. inversion Hsign as [| | | r pre caps Hlit | | | | |]; subst.
  - inversion Hlit; subst.
    exists (- digitsValue 0 (string_of_list_ascii (d :: ds)))%Z.
    unfold parseInt. cbn [app string_of_list_ascii dropWhileStr].
    change (isWhiteSpace "-") with false. change (Ascii.eqb "-" "-") with true.
    cbn iota. unfold parseDigits. now rewrite Hd.
  - destruct (parseInt_digits d ds Hd) as (n & Hn & _). now exists n.
Qed.

(** What a match of the shadow pattern captures: four groups, of which the
    first three parse to integers, the third to one that is not negative. *)
Lemma shadowPattern_captures (pre : list ascii) (caps : list string) :
  Matches shadowPattern pre caps ->
  exists (g1 g2 g3 g4 : string) (offsetX offsetY blur : Z),
    caps = [g1; g2; g3; g4]
    /\ parseInt g1 = Some offsetX /\ parseInt g2 = Some offsetY
    /\ parseInt g3 = Some blur /\ (0 <= blur)%Z.
Proof.
  unfold shadowPattern, seqs. cbn [fold_right]. intros Hm.
  invert_matches.
  repeat match goal with
         | H : Matches (Opt (Lit _)) _ ?c |- _ =>
             assert (c = []) by (inversion H as [| | | r p cs Hl | | | | |]; subst;
                                 [now inversion Hl | reflexivity]);
             subst c
         end.
  cbn [app].
  repeat match goal with
         | |- context [string_of_list_ascii (?s ++ ?d :: ?ds)] =>
             match goal with
             | Hs : Matches (Opt (Lit "-")) s [], Hd : isDigit d = true |- _ =>
                 let n := fresh "n" in let Hn := fresh "Hn" in
                 destruct (parseInt_signed_digits s d ds Hs Hd) as (n & Hn);
                 generalize dependent (string_of_list_ascii (s ++ d :: ds)); intros
             end
         end.
  match goal with
  | |- context [string_of_list_ascii (?d :: ?ds)] =>
      match goal with
      | Hd : isDigit d = true |- _ =>
          destruct (parseInt_digits d ds Hd) as (blur & Hblur & Hpos)
      end
  end.
  eexists _, _, _, _, _, _, _. repeat split; eassumption.
Qed.

(** ** Painting under the shadow *)

Lemma paintsUnder_trans (sh : Q * Q * Q * string) (c1 c2 c3 : Ctx) :
  paintsUnder sh c1 c2 -> paintsUnder sh c2 c3 -> paintsUnder sh c1 c3.
Proof.
  intros (_ & ops1 & E1 & F1) (S3 & ops2 & E2 & F2). split; [assumption |].
  exists (ops1 ++ ops2). split.
  - now rewrite E2, E1, app_assoc.
  - apply Forall_app. now split.
Qed.

Lemma glyphOps_underShadow (g : GraphicsState) (chars : list string) (xs : list Q) (ty : Q) :
  Forall (underShadow (shadowOf g)) (glyphOps g chars xs ty).
Proof.
  unfold glyphOps. apply Forall_forall. intros op Hin.
  apply in_map_iff in Hin as (p & E & _). subst op. reflexivity.
Qed.

(** What [drawTextWithLetterSpacing] paints, and that it leaves the
    graphics state as it was. *)
Lemma drawTextWithLetterSpacing_painted (h : Host) (ctx : Ctx) (text : string)
  (tx ty letterSpacing : Q) :
  gstate (drawTextWithLetterSpacing h ctx text tx ty letterSpacing) = gstate ctx
  /\ exists xs : list Q,
       painted (drawTextWithLetterSpacing h ctx text tx ty letterSpacing)
       = painted ctx ++ glyphOps (gstate ctx) (splitChars text) xs ty.
Proof.
  unfold drawTextWithLetterSpacing.
  set (ctx1 := fst (totalWidthOf h ctx text letterSpacing)).
  assert (Hstate : gstate ctx1 = gstate ctx /\ painted ctx1 = painted ctx).
  { subst ctx1. unfold totalWidthOf. cbn [fst].
    destruct (measureChars_state h letterSpacing (splitChars text) ctx 0) as (G & P & _).
    now split. }
  destruct Hstate as [Hg Hp].
  destruct (paintChars_cursors h letterSpacing ty (splitChars text) ctx1
              (tx - snd (totalWidthOf h ctx text letterSpacing) / 2))
    as (xs & cs & _ & _ & _ & _ & _ & Hpaint & Hgs).
  rewrite Hg, Hp in *. split; [exact Hgs | now exists xs].
Qed.

Lemma drawTextWithLetterSpacing_paintsUnder (h : Host) (ctx : Ctx) (text : string)
  (tx ty letterSpacing : Q) :
  paintsUnder (shadowOf (gstate ctx)) ctx
    (drawTextWithLetterSpacing h ctx text tx ty letterSpacing).
Proof.
  destruct (drawTextWithLetterSpacing_painted h ctx text tx ty letterSpacing)
    as [Hg [xs Hp]].
  split; [now rewrite Hg |].
  exists (glyphOps (gstate ctx) (splitChars text) xs ty).
  split; [exact Hp | apply glyphOps_underShadow].
Qed.

Lemma fillText_paintsUnder (ctx : Ctx) (text : string) (tx ty : Q) :
  paintsUnder (shadowOf (gstate ctx)) ctx (fillText text tx ty ctx).
Proof.
  split; [reflexivity |]. exists [FillText (gstate ctx) text tx ty].
  split; [reflexivity |]. constructor; [reflexivity | constructor].
Qed.

Lemma drawTextDecoration_paintsUnder (h : Host) (ctx : Ctx) (text : string)
  (tx ty : Q) (fontSize : Z) (style : TextStyle.t) :
  paintsUnder (shadowOf (gstate ctx)) ctx (drawTextDecoration h ctx text tx ty fontSize style).
Proof.
  unfold drawTextDecoration.
  destruct (TextStyle.textDecoration style);
    (split; [reflexivity |]; eexists [_]; split; [reflexivity |];
     constructor; [reflexivity | constructor]).
Qed.

Lemma searchStep_shadow (h : Host) (text : string) (maxWidth maxHeight : Q)
  (style : TextStyle.t) (st st' : SearchState) :
  searchStep h text maxWidth maxHeight style st = Some st' ->
  shadowOf (gstate (sctx st')) = shadowOf (gstate (sctx st)).
Proof.
  unfold searchStep. destruct (Qle_bool (inject_Z (low st)) (high st)); [| discriminate].
  destruct (_ && _)%bool; intros E; inversion E; reflexivity.
Qed.

(** The search paints nothing and leaves the shadow state alone. *)
Lemma calculateOptimalFontSize_context (h : Host) (ctx : Ctx) (text : string)
  (maxWidth maxHeight : Q) (style : TextStyle.t) :
  painted (fst (calculateOptimalFontSize h ctx text maxWidth maxHeight style)) = painted ctx
  /\ shadowOf (gstate (fst (calculateOptimalFontSize h ctx text maxWidth maxHeight style)))
     = shadowOf (gstate ctx).
Proof.
  destruct (calculateOptimalFontSize_exit h text maxWidth maxHeight style ctx)
    as (final & Hrun & Hcalc & Hinv & _).
  rewrite Hcalc. cbn [fst]. split.
  - now destruct Hinv as (_ & _ & _ & _ & _ & Hp & _).
  - apply (searchLoop_invariant h text maxWidth maxHeight style
             (fun st => shadowOf (gstate (sctx st)) = shadowOf (gstate ctx)))
      with (fuel := searchFuel maxWidth maxHeight) (st := searchInit ctx maxWidth maxHeight);
      [| reflexivity | exact Hrun].
    intros st st' Hst Hstep. now rewrite (searchStep_shadow _ _ _ _ _ _ _ Hstep).
Qed.

Lemma paintSetup_context (h : Host) (ctx : Ctx) (text : string) (area : TextArea.t)
  (scaleX scaleY : Q) :
  painted (paintSetup h ctx text area scaleX scaleY) = painted ctx
  /\ shadowOf (gstate (paintSetup h ctx text area scaleX scaleY)) = shadowOf (gstate ctx).
Proof.
  unfold paintSetup.
  destruct (calculateOptimalFontSize_context h ctx
              (applyTextTransform (TextStyle.textTransform (TextArea.style area)) text)
              (TextArea.width area * scaleX) (TextArea.height area * scaleY)
              (TextArea.style area)) as [Hp Hs].
  split; [exact Hp | exact Hs].
Qed.

(** The search reads nothing of [textShadow]. *)
Lemma searchLoop_textShadow (h : Host) (text : string) (maxWidth maxHeight : Q)
  (style : TextStyle.t) (textShadow : string) (fuel : nat) (st : SearchState) :
  searchLoop fuel h text maxWidth maxHeight (withTextShadow textShadow style) st
  = searchLoop fuel h text maxWidth maxHeight style st.
Proof.
  revert st. induction fuel as [| fuel IH]; intros st; [reflexivity |].
  cbn [searchLoop].
  change (searchStep h text maxWidth maxHeight (withTextShadow textShadow style) st)
    with (searchStep h text maxWidth maxHeight style st).
  destruct (searchStep h text maxWidth maxHeight style st); [apply IH | reflexivity].
Qed.

Lemma calculateOptimalFontSize_textShadow (h : Host) (ctx : Ctx) (text : string)
  (maxWidth maxHeight : Q) (style : TextStyle.t) (textShadow : string) :
  calculateOptimalFontSize h ctx text maxWidth maxHeight (withTextShadow textShadow style)
  = calculateOptimalFontSize h ctx text maxWidth maxHeight style.
Proof.
  unfold calculateOptimalFontSize. now rewrite searchLoop_textShadow.
Qed.

(** The shadow step when the pattern does not match, and for "none". *)
Lemma applyTextShadow_no_match (textShadow : string) (ctx : Ctx) :
  strMatch textShadow shadowPattern = None -> applyTextShadow textShadow ctx = ctx.
Proof.
  intros Hnone. unfold applyTextShadow. rewrite Hnone. now destruct (_ && _)%bool.
Qed.

(** The shadow step when the pattern matches. *)
Lemma applyTextShadow_match (textShadow whole g1 g2 g3 color : string)
  (offsetX offsetY blur : Z) (ctx : Ctx) :
  strMatch textShadow shadowPattern = Some [whole; g1; g2; g3; color] ->
  parseInt g1 = Some offsetX -> parseInt g2 = Some offsetY -> parseInt g3 = Some blur ->
  painted (applyTextShadow textShadow ctx) = painted ctx
  /\ shadowOf (gstate (applyTextShadow textShadow ctx))
     = (inject_Z offsetX, inject_Z offsetY, inject_Z blur, color).
Proof.
  intros Hm H1 H2 H3. unfold applyTextShadow.
  destruct (isEmptyString textShadow) eqn:Hempty.
  { destruct textShadow; [discriminate Hm | discriminate Hempty]. }
  destruct (String.eqb_spec textShadow "none") as [E | _].
  { subst textShadow. discriminate Hm. }
  cbn [negb andb]. rewrite Hm. cbn [nth]. rewrite H1, H2, H3. split; reflexivity.
Qed.

Lemma restore_painted (ctx : Ctx) : painted (restore ctx) = painted ctx.
Proof. unfold restore. now destruct (saved ctx). Qed.

(** After the shadow step, [drawTextOnCanvas] paints the text and the
    decoration under the shadow that the step left, and nothing else. *)
Lemma drawTextOnCanvas_paints (h : Host) (ctx : Ctx) (text : string) (area : TextArea.t)
  (scaleX scaleY : Q) :
  exists ops : list DrawOp,
    painted (drawTextOnCanvas h ctx text area scaleX scaleY)
    = painted (applyTextShadow (TextStyle.textShadow (TextArea.style area))
                 (paintSetup h ctx text area scaleX scaleY)) ++ ops
    /\ Forall (underShadow
                 (shadowOf (gstate (applyTextShadow (TextStyle.textShadow (TextArea.style area))
                                      (paintSetup h ctx text area scaleX scaleY))))) ops.
Proof.
  unfold drawTextOnCanvas, paintSetup. cbn zeta.
  set (c := applyTextShadow _ _).
  set (displayText := applyTextTransform _ text).
  set (cx := TextArea.x area * scaleX + TextArea.width area * scaleX / 2).
  set (cy := TextArea.y area * scaleY + TextArea.height area * scaleY / 2).
  set (size := snd (calculateOptimalFontSize _ _ _ _ _ _)).
  rewrite restore_painted.
  assert (Htext : paintsUnder (shadowOf (gstate c)) c
            (if negb (Qeq_bool (TextStyle.letterSpacing (TextArea.style area)) 0)
             then drawTextWithLetterSpacing h c displayText cx cy
                    (TextStyle.letterSpacing (TextArea.style area))
             else fillText displayText cx cy c)).
  { destruct (negb _); [apply drawTextWithLetterSpacing_paintsUnder | apply fillText_paintsUnder]. }
  set (c1 := if negb _ then _ else _) in *.
  assert (Hall : paintsUnder (shadowOf (gstate c)) c
            match TextStyle.textDecoration (TextArea.style area) with
            | DecorationNone => c1
            | _ => drawTextDecoration h c1 displayText cx cy size (TextArea.style area)
            end).
  { pose proof (drawTextDecoration_paintsUnder h c1 displayText cx cy size (TextArea.style area))
      as Hdec.
    destruct Htext as [Hs1 Hops1]. rewrite Hs1 in Hdec.
    destruct (TextStyle.textDecoration (TextArea.style area));
      [split; assumption | | |];
      apply (paintsUnder_trans _ c c1); try assumption; split; assumption. }
  destruct Hall as (_ & ops & Hp & Hf). now exists ops.
Qed.

(** ** Shadow strings of the written form *)

Lemma starMatch_greedy {A : Type} (p : ascii -> bool) (pre rest : list ascii)
  (k : list ascii -> option A) (x : A) :
  Forall (fun a => p a = true) pre -> stopsAt p rest -> k rest = Some x ->
  starMatch p (pre ++ rest) k = Some x.
Proof.
  intros Hpre Hstop Hk. induction Hpre as [| c pre Hc _ IH]; cbn [app].
  - destruct rest as [| c rest]; cbn; [assumption |]. cbn in Hstop. now rewrite Hstop.
  - cbn. now rewrite Hc, IH.
Qed.

(** Matching a group of an optional minus sign and digits against a number
    that the class of digits does not extend beyond. *)
Lemma matchRegex_signed_group {A : Type} (sign : list ascii) (d : ascii) (ds rest : list ascii)
  (caps : list string) (k : list ascii -> list string -> option A) (x : A) :
  sign = [] \/ sign = ["-"%char] ->
  isDigit d = true -> Forall (fun a => isDigit a = true) ds -> stopsAt isDigit rest ->
  k rest (caps ++ [string_of_list_ascii (sign ++ d :: ds)]) = Some x ->
  matchRegex (Group (Seq (Opt (Lit "-")) (Plus isDigit))) ((sign ++ d :: ds) ++ rest) caps k
  = Some x.
Proof.
  intros Hsign Hd Hds Hstop Hk.
  cbn [matchRegex].
  destruct Hsign as [E | E]; subst sign; cbn [app] in *.
  - destruct (isDigit_not_sign d Hd) as [Hminus _].
    rewrite Ascii.eqb_sym in Hminus. rewrite Hminus, Hd.
    apply starMatch_greedy; try assumption.
    change (d :: ds ++ rest) with ((d :: ds) ++ rest). now rewrite consumed_app.
  - change (Ascii.eqb "-" "-") with true. cbn iota. rewrite Hd.
    rewrite (starMatch_greedy isDigit ds rest _ x); try assumption; [reflexivity |].
    change ("-"%char :: d :: ds ++ rest) with (("-"%char :: d :: ds) ++ rest).
    now rewrite consumed_app.
Qed.

(** The same, followed by the rest [r] of a pattern. *)
Lemma matchRegex_seq_signed_group {A : Type} (r : Regex) (sign : list ascii) (d : ascii)
  (ds rest : list ascii) (caps : list string)
  (k : list ascii -> list string -> option A) (x : A) :
  sign = [] \/ sign = ["-"%char] ->
  isDigit d = true -> Forall (fun a => isDigit a = true) ds -> stopsAt isDigit rest ->
  matchRegex r rest (caps ++ [string_of_list_ascii (sign ++ d :: ds)]) k = Some x ->
  matchRegex (Seq (Group (Seq (Opt (Lit "-")) (Plus isDigit))) r)
    ((sign ++ d :: ds) ++ rest) caps k = Some x.
Proof.
  intros Hsign Hd Hds Hstop Hk.
  change (matchRegex (Group (Seq (Opt (Lit "-")) (Plus isDigit))) ((sign ++ d :: ds) ++ rest) caps
            (fun rest' caps' => matchRegex r rest' caps' k) = Some x).
  now apply matchRegex_signed_group.
Qed.

Lemma matchRegex_seq_lit {A : Type} (r : Regex) (c : ascii) (input : list ascii)
  (caps : list string) (k : list ascii -> list string -> option A) :
  matchRegex (Seq (Lit c) r) (c :: input) caps k = matchRegex r input caps k.
Proof.
  change (matchRegex (Seq (Lit c) r) (c :: input) caps k)
    with (if Ascii.eqb c c then matchRegex r input caps k else None).
  now rewrite Ascii.eqb_refl.
Qed.

Lemma matchRegex_seq_plus {A : Type} (r : Regex) (p : ascii -> bool) (c : ascii)
  (pre rest : list ascii) (caps : list string)
  (k : list ascii -> list string -> option A) (x : A) :
  p c = true -> Forall (fun a => p a = true) pre -> stopsAt p rest ->
  matchRegex r rest caps k = Some x ->
  matchRegex (Seq (Plus p) r) (c :: pre ++ rest) caps k = Some x.
Proof.
  intros Hc Hpre Hstop Hk.
  change (matchRegex (Seq (Plus p) r) (c :: pre ++ rest) caps k)
    with (if p c then starMatch p (pre ++ rest) (fun rest' => matchRegex r rest' caps k)
          else None).
  rewrite Hc. now apply starMatch_greedy.
Qed.

Lemma matchRegex_seq_plus_group {A : Type} (r : Regex) (p : ascii -> bool) (c : ascii)
  (pre rest : list ascii) (caps : list string)
  (k : list ascii -> list string -> option A) (x : A) :
  p c = true -> Forall (fun a => p a = true) pre -> stopsAt p rest ->
  matchRegex r rest (caps ++ [string_of_list_ascii (c :: pre)]) k = Some x ->
  matchRegex (Seq (Group (Plus p)) r) ((c :: pre) ++ rest) caps k = Some x.
Proof.
  intros Hc Hpre Hstop Hk.
  change (matchRegex (Seq (Group (Plus p)) r) ((c :: pre) ++ rest) caps k)
    with (if p c
          then starMatch p (pre ++ rest)
                 (fun rest' => matchRegex r rest'
                                 (caps ++ [consumed ((c :: pre) ++ rest) rest']) k)
          else None).
  rewrite Hc. apply starMatch_greedy; try assumption. now rewrite consumed_app.
Qed.

Lemma matchRegex_last_star_group {A : Type} (p : ascii -> bool) (pre : list ascii)
  (caps : list string) (k : list ascii -> list string -> option A) (x : A) :
  Forall (fun a => p a = true) pre ->
  k [] (caps ++ [string_of_list_ascii pre]) = Some x ->
  matchRegex (Seq (Group (Star p)) Eps) (pre ++ []) caps k = Some x.
Proof.
  intros Hpre Hk.
  change (matchRegex (Seq (Group (Star p)) Eps) (pre ++ []) caps k)
    with (starMatch p (pre ++ [])
            (fun rest' => k rest' (caps ++ [consumed (pre ++ []) rest']))).
  apply starMatch_greedy; [assumption | exact I |]. now rewrite consumed_app.
Qed.

(** A shadow string of the written form is matched from its start, with
    the printed numbers and the colour as captures. *)
Lemma shadowString_match (offsetX offsetY blur : Z) (color : string) :
  (0 <= blur)%Z -> isColorText color ->
  strMatch (shadowString offsetX offsetY blur color) shadowPattern
  = Some [shadowString offsetX offsetY blur color; numberToString offsetX;
          numberToString offsetY; numberToString blur; color].
Proof.
  intros Hblur [Hline Hlead].
  destruct (numberToString_shape offsetX) as (s1 & d1 & ds1 & E1 & S1 & _ & D1 & F1).
  destruct (numberToString_shape offsetY) as (s2 & d2 & ds2 & E2 & S2 & _ & D2 & F2).
  destruct (numberToString_shape blur) as (s3 & d3 & ds3 & E3 & _ & S3 & D3 & F3).
  specialize (S3 Hblur). subst s3. cbn [app] in E3.
  set (whole := shadowString offsetX offsetY blur color).
  set (tail3 := "p"%char :: "x"%char :: " "%char :: (list_ascii_of_string color ++ [])).
  set (tail2 := "p"%char :: "x"%char :: " "%char :: ((d3 :: ds3) ++ tail3)).
  set (tail1 := "p"%char :: "x"%char :: " "%char :: ((s2 ++ d2 :: ds2) ++ tail2)).
  assert (Ewhole : list_ascii_of_string whole = (s1 ++ d1 :: ds1) ++ tail1).
  { subst whole tail1 tail2 tail3. unfold shadowString.
    rewrite !list_ascii_of_string_app, E1, E2, E3.
    cbn [list_ascii_of_string app]. now rewrite app_nil_r. }
  assert (Hrun : matchRegex shadowPattern ((s1 ++ d1 :: ds1) ++ tail1) []
                   (fun rest caps => Some (consumed (list_ascii_of_string whole) rest :: caps))
                 = Some [whole; numberToString offsetX; numberToString offsetY;
                         numberToString blur; color]).
  { unfold shadowPattern, seqs. cbn [fold_right].
    apply matchRegex_seq_signed_group; try assumption; [reflexivity |].
    subst tail1. rewrite !matchRegex_seq_lit.
    apply (matchRegex_seq_plus _ isWhiteSpace " "%char []); [reflexivity | constructor | |].
    { destruct S2; subst s2; cbn; [now apply isDigit_not_space | reflexivity]. }
    apply matchRegex_seq_signed_group; try assumption; [reflexivity |].
    subst tail2. rewrite !matchRegex_seq_lit.
    apply (matchRegex_seq_plus _ isWhiteSpace " "%char []); [reflexivity | constructor | |].
    { cbn. now apply isDigit_not_space. }
    apply matchRegex_seq_plus_group; try assumption; [reflexivity |].
    subst tail3. rewrite !matchRegex_seq_lit.
    apply (matchRegex_seq_plus _ isWhiteSpace " "%char []); [reflexivity | constructor | |].
    { change (stopsAt isWhiteSpace (list_ascii_of_string color ++ [])).
      rewrite app_nil_r. exact Hlead. }
    apply matchRegex_last_star_group; [assumption |].
    rewrite <- E1, <- E2, <- E3, !string_of_list_ascii_of_string.
    unfold consumed. rewrite Nat.sub_0_r, firstn_all, string_of_list_ascii_of_string.
    reflexivity. }
  unfold strMatch. rewrite Ewhole in *.
  destruct (s1 ++ d1 :: ds1) as [| c0 l0] eqn:E0; [destruct s1; discriminate E0 |].
  cbn [app searchRegex] in *. now rewrite Hrun.
Qed.

(** The glyphs of [drawTextWithLetterSpacing]: one for each character. *)
Lemma drawTextWithLetterSpacing_glyphs (h : Host) (ctx : Ctx) (text : string)
  (tx ty letterSpacing : Q) :
  exists xs : list Q,
    List.length xs = String.length text
    /\ painted (drawTextWithLetterSpacing h ctx text tx ty letterSpacing)
       = painted ctx ++ glyphOps (gstate ctx) (splitChars text) xs ty.
Proof.
  unfold drawTextWithLetterSpacing.
  set (ctx1 := fst (totalWidthOf h ctx text letterSpacing)).
  assert (Hstate : gstate ctx1 = gstate ctx /\ painted ctx1 = painted ctx).
  { subst ctx1. unfold totalWidthOf. cbn [fst].
    destruct (measureChars_state h letterSpacing (splitChars text) ctx 0) as (G & P & _).
    now split. }
  destruct Hstate as [Hg Hp].
  destruct (paintChars_cursors h letterSpacing ty (splitChars text) ctx1
              (tx - snd (totalWidthOf h ctx text letterSpacing) / 2))
    as (xs & cs & Hlen & _ & _ & _ & _ & Hpaint & _).
  rewrite Hg, Hp in Hpaint. rewrite splitChars_length in Hlen. now exists xs.
Qed.

Lemma paintsText_underShadow (style : TextStyle.t) (displayText : string)
  (sh : Q * Q * Q * string) (ops : list DrawOp) :
  paintsText style displayText sh ops -> Forall (underShadow sh) ops.
Proof.
  intros (g & textOps & decoration & Eops & Hg & Htext & Hdec). subst ops.
  apply Forall_app. split.
  - destruct (Qeq_bool (TextStyle.letterSpacing style) 0).
    + destruct Htext as (tx & ty & E). subst textOps. constructor; [exact Hg | constructor].
    + destruct Htext as (xs & ty & _ & E). subst textOps.
      unfold glyphOps. apply Forall_map. apply Forall_forall. intros p _. exact Hg.
  - destruct (TextStyle.textDecoration style);
      [subst decoration; constructor | | |];
      destruct Hdec as (op & E & Hop); subst decoration;
      (constructor; [exact Hop | constructor]).
Qed.

Lemma drawTextDecoration_one_op (h : Host) (ctx : Ctx) (text : string)
  (tx ty : Q) (fontSize : Z) (style : TextStyle.t) :
  exists op : DrawOp,
    painted (drawTextDecoration h ctx text tx ty fontSize style) = painted ctx ++ [op]
    /\ underShadow (shadowOf (gstate ctx)) op.
Proof.
  unfold drawTextDecoration.
  destruct (TextStyle.textDecoration style); eexists; split; reflexivity.
Qed.

(** What [drawTextOnCanvas] paints after the shadow step: the text, under
    the shadow that this step has left, and then the decoration. *)
Lemma drawTextOnCanvas_paints_text (h : Host) (ctx : Ctx) (text : string) (area : TextArea.t)
  (scaleX scaleY : Q) :
  exists ops : list DrawOp,
    painted (drawTextOnCanvas h ctx text area scaleX scaleY)
    = painted (applyTextShadow (TextStyle.textShadow (TextArea.style area))
                 (paintSetup h ctx text area scaleX scaleY)) ++ ops
    /\ paintsText (TextArea.style area)
         (applyTextTransform (TextStyle.textTransform (TextArea.style area)) text)
         (shadowOf (gstate (applyTextShadow (TextStyle.textShadow (TextArea.style area))
                              (paintSetup h ctx text area scaleX scaleY)))) ops.
Proof.
  unfold drawTextOnCanvas, paintSetup, paintsText. cbn zeta.
  set (c := applyTextShadow _ _).
  set (displayText := applyTextTransform _ text).
  set (cx := TextArea.x area * scaleX + TextArea.width area * scaleX / 2).
  set (cy := TextArea.y area * scaleY + TextArea.height area * scaleY / 2).
  set (size := snd (calculateOptimalFontSize _ _ _ _ _ _)).
  rewrite restore_painted.
  set (c1 := if negb _ then _ else _).
  assert (Htext : gstate c1 = gstate c
            /\ exists textOps : list DrawOp,
                 painted c1 = painted c ++ textOps
                 /\ if Qeq_bool (TextStyle.letterSpacing (TextArea.style area)) 0
                    then exists tx ty : Q, textOps = [FillText (gstate c) displayText tx ty]
                    else exists (xs : list Q) (ty : Q),
                           List.length xs = String.length displayText
                           /\ textOps = glyphOps (gstate c) (splitChars displayText) xs ty).
  { subst c1. destruct (Qeq_bool (TextStyle.letterSpacing (TextArea.style area)) 0);
      cbn [negb].
    - split; [reflexivity |]. eexists. split; [reflexivity |]. now exists cx, cy.
    - split; [apply drawTextWithLetterSpacing_painted |].
      destruct (drawTextWithLetterSpacing_glyphs h c displayText cx cy
                  (TextStyle.letterSpacing (TextArea.style area))) as (xs & Hlen & Hp).
      eexists. split; [exact Hp |]. now exists xs, cy. }
  destruct Htext as (Hg1 & textOps & Hp1 & Hshape).
  destruct (TextStyle.textDecoration (TextArea.style area)) eqn:Hdec.
  1: { exists textOps. split; [exact Hp1 |].
       exists (gstate c), textOps, []. rewrite app_nil_r. repeat split. exact Hshape. }
  all: destruct (drawTextDecoration_one_op h c1 displayText cx cy size (TextArea.style area))
         as (op & Hp & Hop).
  all: exists (textOps ++ [op]); split; [rewrite Hp, Hp1, <- app_assoc; reflexivity |].
  all: exists (gstate c), textOps, [op]; split; [reflexivity |]; split; [reflexivity |].
  all: split; [exact Hshape |]; exists op; split; [reflexivity |]; rewrite <- Hg1; exact Hop.
Qed.

(** ** The claim about the text shadow *)

(** C8.  For every [textShadow] string: when the pattern matches, the match
    has four captures, the first three parse to integers (the third to one
    that is not negative), and [drawTextOnCanvas] paints its text, in one
    piece or glyph by glyph, and its decoration in a graphics state that has
    exactly these shadow offsets, this blur and the fourth capture as the
    shadow colour; when the pattern does not match, the render is the same
    as with [textShadow] set to "none", and the text is painted under
    the shadow state that the context already had.  A string of the form
    "<int>px <int>px <uint>px <colour>" (offsets of either sign, a blur
    that is not negative, a colour on one line) is matched, and the text is
    painted under these offsets, this blur and this colour.
    "2px 2px 4px #000000" is matched with captures 2, 2, 4 and
    "#000000"; "invalid" is not matched. *)
Theorem drawTextOnCanvas_textShadow (h : Host) (ctx : Ctx) (text : string)
  (area : TextArea.t) (scaleX scaleY : Q) :
  match strMatch (TextStyle.textShadow (TextArea.style area)) shadowPattern with
  | Some m =>
      exists (whole g1 g2 g3 color : string) (offsetX offsetY blur : Z),
        m = [whole; g1; g2; g3; color]
        /\ parseInt g1 = Some offsetX /\ parseInt g2 = Some offsetY
        /\ parseInt g3 = Some blur /\ (0 <= blur)%Z
        /\ exists ops : list DrawOp,
             painted (drawTextOnCanvas h ctx text area scaleX scaleY) = painted ctx ++ ops
             /\ Forall (underShadow (inject_Z offsetX, inject_Z offsetY, inject_Z blur, color)) ops
             /\ paintsText (TextArea.style area)
                  (applyTextTransform (TextStyle.textTransform (TextArea.style area)) text)
                  (inject_Z offsetX, inject_Z offsetY, inject_Z blur, color) ops
  | None =>
      drawTextOnCanvas h ctx text area scaleX scaleY
      = drawTextOnCanvas h ctx text
          (withStyle (withTextShadow "none" (TextArea.style area)) area) scaleX scaleY
      /\ exists ops : list DrawOp,
           painted (drawTextOnCanvas h ctx text area scaleX scaleY) = painted ctx ++ ops
           /\ Forall (underShadow (shadowOf (gstate ctx))) ops
           /\ paintsText (TextArea.style area)
                (applyTextTransform (TextStyle.textTransform (TextArea.style area)) text)
                (shadowOf (gstate ctx)) ops
  end
  /\ (forall (offsetX offsetY blur : Z) (color : string),
        (0 <= blur)%Z -> isColorText color ->
        TextStyle.textShadow (TextArea.style area) = shadowString offsetX offsetY blur color ->
        exists ops : list DrawOp,
          painted (drawTextOnCanvas h ctx text area scaleX scaleY) = painted ctx ++ ops
          /\ Forall (underShadow (inject_Z offsetX, inject_Z offsetY, inject_Z blur, color)) ops
          /\ paintsText (TextArea.style area)
               (applyTextTransform (TextStyle.textTransform (TextArea.style area)) text)
               (inject_Z offsetX, inject_Z offsetY, inject_Z blur, color) ops)
  /\ strMatch "2px 2px 4px #000000" shadowPattern
     = Some ["2px 2px 4px #000000"; "2"; "2"; "4"; "#000000"]%string
  /\ parseInt "2" = Some 2%Z /\ parseInt "4" = Some 4%Z
  /\ strMatch "invalid" shadowPattern = None.
Proof.
  destruct (drawTextOnCanvas_paints_text h ctx text area scaleX scaleY) as (ops & Hp & Ht).
  destruct (paintSetup_context h ctx text area scaleX scaleY) as [Hsetup_p Hsetup_s].
  split; [| split; [| repeat split; vm_compute; reflexivity]]; cycle 1.
  { intros offsetX offsetY blur color Hblur Hcolor Ets.
    pose proof (shadowString_match offsetX offsetY blur color Hblur Hcolor) as Hm.
    rewrite <- Ets in Hm.
    destruct (applyTextShadow_match _ _ _ _ _ _ _ _ _
                (paintSetup h ctx text area scaleX scaleY) Hm
                (parseInt_numberToString offsetX) (parseInt_numberToString offsetY)
                (parseInt_numberToString blur)) as [Hsp Hss].
    rewrite Hsp, Hsetup_p in Hp. rewrite Hss in Ht.
    exists ops. split; [exact Hp |]. split; [| exact Ht].
    exact (paintsText_underShadow _ _ _ _ Ht). }
  destruct (strMatch (TextStyle.textShadow (TextArea.style area)) shadowPattern) as [m |] eqn:Hm.
  - unfold strMatch in Hm.
    destruct (searchRegex_sound _ _ _ Hm) as (skipped & pre & rest & caps & _ & Hmatch & Em).
    destruct (shadowPattern_captures _ _ Hmatch)
      as (g1 & g2 & g3 & color & offsetX & offsetY & blur & Ec & P1 & P2 & P3 & Hblur).
    subst caps. exists (string_of_list_ascii pre), g1, g2, g3, color, offsetX, offsetY, blur.
    do 5 (split; [assumption |]).
    subst m.
    destruct (applyTextShadow_match _ _ _ _ _ _ _ _ _
                (paintSetup h ctx text area scaleX scaleY) Hm P1 P2 P3) as [Hsp Hss].
    rewrite Hsp, Hsetup_p in Hp. rewrite Hss in Ht.
    exists ops. split; [exact Hp |]. split; [| exact Ht].
    exact (paintsText_underShadow _ _ _ _ Ht).
  - rewrite (applyTextShadow_no_match _ _ Hm) in Hp, Ht.
    rewrite Hsetup_p in Hp. rewrite Hsetup_s in Ht.
    split.
    2: { exists ops. split; [exact Hp |]. split; [| exact Ht].
         exact (paintsText_underShadow _ _ _ _ Ht). }
    unfold drawTextOnCanvas. cbn [TextArea.style withStyle TextArea.x TextArea.y
                                   TextArea.width TextArea.height].
    rewrite calculateOptimalFontSize_textShadow.
    cbn [withTextShadow TextStyle.textTransform TextStyle.opacity TextStyle.color
         TextStyle.textShadow TextStyle.letterSpacing TextStyle.textDecoration].
    rewrite (applyTextShadow_no_match _ _ Hm).
    rewrite (applyTextShadow_no_match "none") by reflexivity.
    reflexivity.
Qed.

(** * Further properties of the engine *)

(** ** The cost and the reach of the search *)

(** X1.  On doubles the search measures the text a logarithmic number of
    times: when the two dimensions are doubles and the larger one is below
    [2^53], the search returns, what it has measured is one probe of the
    text per pass, and with [P] probes [2 ^ P] is at most twice the number
    of integer sizes from 4 to the larger dimension (and at most 2 when
    there is none). *)
Theorem calculateOptimalFontSize_probe_count (h : Host) (ctx : Ctx) (text : string)
  (maxWidth maxHeight : Q) (style : TextStyle.t) :
  Double.isDouble maxWidth = true ->
  Double.isDouble maxHeight = true ->
  Math.max maxHeight maxWidth < inject_Z (2 ^ 53) ->
  exists (result : Ctx * Z) (cs : list Z),
    DoubleSearch.calculateOptimalFontSize (searchFuel maxWidth maxHeight)
      h ctx text maxWidth maxHeight style = Some result
    /\ measured (fst result) = measured ctx ++ probesOf style text cs
    /\ (2 ^ Z.of_nat (List.length cs)
        <= 2 * Z.max 1 (Qfloor (Math.max maxHeight maxWidth) - 3))%Z.
Proof.
  intros Hw Hh Hmax.
  pose proof (double_searchInit_inv maxWidth maxHeight ctx Hw Hh Hmax) as Hinit.
  destruct (double_searchLoop_enough_fuel h text maxWidth maxHeight style
              (searchFuel maxWidth maxHeight) _ Hinit) as (final & Hrun & _).
  { apply double_searchInit_measure. }
  destruct (double_searchLoop_probe_count h text maxWidth maxHeight style _ _ _ Hinit Hrun)
    as (cs & Hm & Hcount & _).
  unfold DoubleSearch.calculateOptimalFontSize. rewrite Hrun.
  eexists. exists cs. split; [reflexivity |]. cbn [fst]. split; [exact Hm |].
  unfold doubleSpan, DoubleSearch.searchInit in Hcount.
  cbn [DoubleSearch.high DoubleSearch.low] in Hcount. rewrite Qfloor_Z in Hcount.
  unfold minFontSize in Hcount.
  replace (Qfloor (Math.max maxHeight maxWidth) - 3)%Z
    with (Qfloor (Math.max maxHeight maxWidth) - 4 + 1)%Z by lia.
  exact Hcount.
Qed.

Lemma calculateOptimalFontSize_probe_count_witness :
  exists (result : Ctx * Z) (cs : list Z),
    DoubleSearch.calculateOptimalFontSize (searchFuel (Double.round (1003 # 10)) 50)
      linearHost newContext "Bob" (Double.round (1003 # 10)) 50 defaultStyle = Some result
    /\ measured (fst result) = measured newContext ++ probesOf defaultStyle "Bob" cs
    /\ (2 ^ Z.of_nat (List.length cs)
        <= 2 * Z.max 1 (Qfloor (Math.max 50 (Double.round (1003 # 10))) - 3))%Z.
Proof.
  apply (calculateOptimalFontSize_probe_count linearHost newContext "Bob"
           (Double.round (1003 # 10)) 50 defaultStyle); vm_compute; reflexivity.
Defined.

(** X2.  When the larger dimension is below 4 there is no candidate: the
    search returns 4 at once, measures nothing and leaves the context as it
    was. *)
Theorem calculateOptimalFontSize_no_candidate (h : Host) (ctx : Ctx) (text : string)
  (maxWidth maxHeight : Q) (style : TextStyle.t) :
  Math.max maxHeight maxWidth < 4 ->
  calculateOptimalFontSize h ctx text maxWidth maxHeight style = (ctx, 4%Z).
Proof.
  intros Hsmall. unfold calculateOptimalFontSize, searchFuel. cbn [searchLoop].
  assert (Hnone : searchStep h text maxWidth maxHeight style (searchInit ctx maxWidth maxHeight)
                  = None).
  { apply searchStep_none. cbn. exact Hsmall. }
  rewrite Hnone. reflexivity.
Qed.

Lemma calculateOptimalFontSize_no_candidate_witness :
  calculateOptimalFontSize linearHost newContext "Alice" 3 (7 # 2) defaultStyle
  = (newContext, 4%Z).
Proof.
  apply calculateOptimalFontSize_no_candidate. vm_compute. reflexivity.
Defined.

(** X3.  The size returned is never below 4 and never above the larger
    dimension, unless that is below 4. *)
Theorem calculateOptimalFontSize_bounds (h : Host) (ctx : Ctx) (text : string)
  (maxWidth maxHeight : Q) (style : TextStyle.t) :
  (4 <= snd (calculateOptimalFontSize h ctx text maxWidth maxHeight style)
   <= Z.max 4 (Qfloor (Math.max maxHeight maxWidth)))%Z.
Proof.
  destruct (calculateOptimalFontSize_kept h text maxWidth maxHeight style ctx)
    as [Hmin [E | [_ [_ Hmax]]]]; unfold minFontSize in *.
  - lia.
  - apply Qfloor_ge_Z in Hmax. lia.
Qed.

Lemma searchStep_sameSearch (h : Host) (text : string) (maxWidth maxHeight : Q)
  (style : TextStyle.t) (st1 st2 : SearchState) :
  sameSearch st1 st2 ->
  match searchStep h text maxWidth maxHeight style st1,
        searchStep h text maxWidth maxHeight style st2 with
  | Some st1', Some st2' => sameSearch st1' st2'
  | None, None => True
  | _, _ => False
  end.
Proof.
  intros (L & Hh & O). unfold searchStep. rewrite L, Hh, O.
  destruct (Qle_bool (inject_Z (low st2)) (high st2)); [| exact I].
  cbn [snd measureText setFont withState gstate font].
  destruct (_ && _)%bool; repeat split.
Qed.

Lemma searchLoop_sameSearch (h : Host) (text : string) (maxWidth maxHeight : Q)
  (style : TextStyle.t) (fuel : nat) :
  forall st1 st2 : SearchState,
    sameSearch st1 st2 ->
    match searchLoop fuel h text maxWidth maxHeight style st1,
          searchLoop fuel h text maxWidth maxHeight style st2 with
    | Some f1, Some f2 => sameSearch f1 f2
    | None, None => True
    | _, _ => False
    end.
Proof.
  induction fuel as [| fuel IH]; intros st1 st2 Hsame; [exact I |].
  cbn [searchLoop]. pose proof (searchStep_sameSearch h text maxWidth maxHeight style _ _ Hsame) as Hs.
  destruct (searchStep h text maxWidth maxHeight style st1) as [st1' |],
           (searchStep h text maxWidth maxHeight style st2) as [st2' |];
    try contradiction.
  - now apply IH.
  - exact Hsame.
Qed.

(** X4.  The size found does not depend on the state the context is in
    (its font, its shadow, what was painted or measured before): it is a
    function of the host, the text, the rectangle and the style. *)
Theorem calculateOptimalFontSize_context_free (h : Host) (ctx1 ctx2 : Ctx) (text : string)
  (maxWidth maxHeight : Q) (style : TextStyle.t) :
  snd (calculateOptimalFontSize h ctx1 text maxWidth maxHeight style)
  = snd (calculateOptimalFontSize h ctx2 text maxWidth maxHeight style).
Proof.
  unfold calculateOptimalFontSize.
  assert (Hinit : sameSearch (searchInit ctx1 maxWidth maxHeight)
                             (searchInit ctx2 maxWidth maxHeight)) by (repeat split).
  pose proof (searchLoop_sameSearch h text maxWidth maxHeight style
                (searchFuel maxWidth maxHeight) _ _ Hinit) as Hs.
  destruct (searchLoop _ _ _ _ _ _ (searchInit ctx1 maxWidth maxHeight)) as [f1 |],
           (searchLoop _ _ _ _ _ _ (searchInit ctx2 maxWidth maxHeight)) as [f2 |];
    try contradiction; cbn [snd]; [| reflexivity].
  destruct Hs as (_ & _ & O). now rewrite O.
Qed.

(** ** What [drawTextOnCanvas] leaves behind *)

Lemma sameButFont_refl (g : GraphicsState) : sameButFont g g.
Proof. repeat split. Qed.

Lemma sameButFont_trans (g1 g2 g3 : GraphicsState) :
  sameButFont g1 g2 -> sameButFont g2 g3 -> sameButFont g1 g3.
Proof.
  unfold sameButFont. intros H12 H23.
  decompose [and] H12. decompose [and] H23. repeat split; congruence.
Qed.

(** A pass of the search changes the font of the context and nothing else
    of its graphics state. *)
Lemma searchStep_gstate (h : Host) (text : string) (maxWidth maxHeight : Q)
  (style : TextStyle.t) (st st' : SearchState) :
  searchStep h text maxWidth maxHeight style st = Some st' ->
  sameButFont (gstate (sctx st)) (gstate (sctx st'))
  /\ font (gstate (sctx st'))
     = buildFontString style (Math.floor ((inject_Z (low st) + high st) / 2)).
Proof.
  unfold searchStep. destruct (Qle_bool (inject_Z (low st)) (high st)); [| discriminate].
  destruct (_ && _)%bool; intros E; inversion E; cbn; repeat split.
Qed.

(** After the search the graphics state is the one before, but for the
    font, which is the one before or that of a size of the range. *)
Lemma calculateOptimalFontSize_gstate (h : Host) (ctx : Ctx) (text : string)
  (maxWidth maxHeight : Q) (style : TextStyle.t) :
  saved (fst (calculateOptimalFontSize h ctx text maxWidth maxHeight style)) = saved ctx
  /\ sameButFont (gstate ctx)
       (gstate (fst (calculateOptimalFontSize h ctx text maxWidth maxHeight style)))
  /\ (font (gstate (fst (calculateOptimalFontSize h ctx text maxWidth maxHeight style)))
      = font (gstate ctx)
      \/ exists c : Z,
           inSearchRange maxWidth maxHeight c
           /\ font (gstate (fst (calculateOptimalFontSize h ctx text maxWidth maxHeight style)))
              = buildFontString style c).
Proof.
  destruct (calculateOptimalFontSize_exit h text maxWidth maxHeight style ctx)
    as (final & Hrun & Hcalc & Hinv & _).
  rewrite Hcalc. cbn [fst].
  split; [now destruct Hinv as (_ & _ & _ & _ & Hs & _) |].
  apply (searchLoop_invariant h text maxWidth maxHeight style
           (fun st => searchInv h text maxWidth maxHeight style ctx st
                      /\ sameButFont (gstate ctx) (gstate (sctx st))
                      /\ (font (gstate (sctx st)) = font (gstate ctx)
                          \/ exists c : Z, inSearchRange maxWidth maxHeight c
                                           /\ font (gstate (sctx st)) = buildFontString style c)))
    with (fuel := searchFuel maxWidth maxHeight) (st := searchInit ctx maxWidth maxHeight);
    [| | exact Hrun].
  - intros st st' (Hsi & Hsame & _) Hstep.
    destruct (searchStep_gstate _ _ _ _ _ _ _ Hstep) as [Hg Hf].
    destruct (searchStep_cases _ _ _ _ _ _ _ Hstep)
      as (mid & Emid & Hcond & [Hlo Hhi] & _).
    split; [now apply (searchInv_step h text maxWidth maxHeight style ctx st) |].
    split; [now apply (sameButFont_trans _ (gstate (sctx st))) |].
    right. exists mid. split; [| now rewrite Hf, Emid].
    destruct Hsi as (Hlow & Hhigh & _). split; [lia |].
    apply Qle_trans with (high st); [| assumption].
    apply Qle_trans with (inject_Z (Qfloor (high st))); [| apply Qfloor_le].
    now rewrite <- Zle_Qle.
  - split; [apply searchInv_init |]. split; [apply sameButFont_refl | now left].
Qed.

Lemma paintChars_saved (h : Host) (ty letterSpacing : Q) (chars : list string)
  (ctx : Ctx) (x0 : Q) :
  saved (fst (paintChars h chars ty letterSpacing ctx x0)) = saved ctx.
Proof.
  revert ctx x0. induction chars as [| c rest IH]; intros ctx x0; [reflexivity |].
  cbn [paintChars]. now rewrite IH.
Qed.

Lemma drawTextWithLetterSpacing_saved (h : Host) (ctx : Ctx) (text : string)
  (tx ty letterSpacing : Q) :
  saved (drawTextWithLetterSpacing h ctx text tx ty letterSpacing) = saved ctx.
Proof.
  unfold drawTextWithLetterSpacing. rewrite paintChars_saved.
  unfold totalWidthOf. cbn [fst].
  now destruct (measureChars_state h letterSpacing (splitChars text) ctx 0) as (_ & _ & S & _).
Qed.

Lemma drawTextDecoration_saved (h : Host) (ctx : Ctx) (text : string)
  (tx ty : Q) (fontSize : Z) (style : TextStyle.t) :
  saved (drawTextDecoration h ctx text tx ty fontSize style) = saved ctx.
Proof.
  unfold drawTextDecoration. now destruct (TextStyle.textDecoration style).
Qed.

(** The shadow step touches the shadow properties only. *)
Lemma applyTextShadow_sameButShadow (textShadow : string) (ctx : Ctx) :
  sameButShadow (gstate ctx) (gstate (applyTextShadow textShadow ctx))
  /\ saved (applyTextShadow textShadow ctx) = saved ctx
  /\ painted (applyTextShadow textShadow ctx) = painted ctx
  /\ measured (applyTextShadow textShadow ctx) = measured ctx.
Proof.
  unfold applyTextShadow.
  destruct (_ && _)%bool; [| repeat split].
  destruct (strMatch textShadow shadowPattern) as [m |]; [| repeat split].
  destruct (parseInt (nth 1 m EmptyString)), (parseInt (nth 2 m EmptyString)),
           (parseInt (nth 3 m EmptyString)); repeat split.
Qed.

(** X5.  [drawTextOnCanvas] leaves the stack of saved states as it found
    it and restores every property of the graphics state except the font:
    the state is saved only after the search, so the font that stays is the
    one the search left, that of a size of the range (or the font before the
    call when the range is empty). *)
Theorem drawTextOnCanvas_restores (h : Host) (ctx : Ctx) (text : string)
  (area : TextArea.t) (scaleX scaleY : Q) :
  saved (drawTextOnCanvas h ctx text area scaleX scaleY) = saved ctx
  /\ sameButFont (gstate ctx) (gstate (drawTextOnCanvas h ctx text area scaleX scaleY))
  /\ (font (gstate (drawTextOnCanvas h ctx text area scaleX scaleY)) = font (gstate ctx)
      \/ exists c : Z,
           inSearchRange (TextArea.width area * scaleX) (TextArea.height area * scaleY) c
           /\ font (gstate (drawTextOnCanvas h ctx text area scaleX scaleY))
              = buildFontString (TextArea.style area) c).
Proof.
  destruct (calculateOptimalFontSize_gstate h ctx
              (applyTextTransform (TextStyle.textTransform (TextArea.style area)) text)
              (TextArea.width area * scaleX) (TextArea.height area * scaleY)
              (TextArea.style area)) as (Hsaved & Hsame & Hfont).
  unfold drawTextOnCanvas. cbn zeta.
  set (found := calculateOptimalFontSize _ _ _ _ _ _) in *.
  set (c := applyTextShadow _ _).
  assert (Hc : saved c = gstate (fst found) :: saved (fst found)).
  { subst c. now rewrite (proj1 (proj2 (applyTextShadow_sameButShadow _ _))). }
  set (c1 := if negb _ then _ else _).
  assert (Hc1 : saved c1 = saved c).
  { subst c1. destruct (negb _); [apply drawTextWithLetterSpacing_saved | reflexivity]. }
  set (c2 := match TextStyle.textDecoration _ with DecorationNone => c1 | _ => _ end).
  assert (Hc2 : saved c2 = saved c1).
  { subst c2. destruct (TextStyle.textDecoration (TextArea.style area));
      [reflexivity | apply drawTextDecoration_saved ..]. }
  unfold restore. rewrite Hc2, Hc1, Hc. cbn [saved gstate].
  split; [exact Hsaved |]. split; [exact Hsame | exact Hfont].
Qed.

(** ** What [drawTextOnCanvas] paints *)

Lemma paintSetup_gstate (h : Host) (ctx : Ctx) (text : string) (area : TextArea.t)
  (scaleX scaleY : Q) :
  font (gstate (paintSetup h ctx text area scaleX scaleY))
  = buildFontString (TextArea.style area)
      (snd (calculateOptimalFontSize h ctx
              (applyTextTransform (TextStyle.textTransform (TextArea.style area)) text)
              (TextArea.width area * scaleX) (TextArea.height area * scaleY)
              (TextArea.style area)))
  /\ fillStyle (gstate (paintSetup h ctx text area scaleX scaleY))
     = TextStyle.color (TextArea.style area)
  /\ globalAlpha (gstate (paintSetup h ctx text area scaleX scaleY))
     = TextStyle.opacity (TextArea.style area)
  /\ textAlign (gstate (paintSetup h ctx text area scaleX scaleY)) = "center"%string
  /\ textBaseline (gstate (paintSetup h ctx text area scaleX scaleY)) = "middle"%string.
Proof. repeat split. Qed.

(** X6.  With a letter spacing of zero and no decoration, [drawTextOnCanvas]
    paints exactly one thing: the transformed text, in one piece, at the
    centre of the scaled rectangle, in the font of the size found, with the
    style's colour and opacity, anchored at its centre and middle. *)
Theorem drawTextOnCanvas_single_fill (h : Host) (ctx : Ctx) (text : string)
  (area : TextArea.t) (scaleX scaleY : Q) :
  TextStyle.letterSpacing (TextArea.style area) == 0 ->
  TextStyle.textDecoration (TextArea.style area) = DecorationNone ->
  exists g : GraphicsState,
    painted (drawTextOnCanvas h ctx text area scaleX scaleY)
    = painted ctx
      ++ [FillText g (applyTextTransform (TextStyle.textTransform (TextArea.style area)) text)
            (TextArea.x area * scaleX + TextArea.width area * scaleX / 2)
            (TextArea.y area * scaleY + TextArea.height area * scaleY / 2)]
    /\ font g
       = buildFontString (TextArea.style area)
           (snd (calculateOptimalFontSize h ctx
                   (applyTextTransform (TextStyle.textTransform (TextArea.style area)) text)
                   (TextArea.width area * scaleX) (TextArea.height area * scaleY)
                   (TextArea.style area)))
    /\ fillStyle g = TextStyle.color (TextArea.style area)
    /\ globalAlpha g = TextStyle.opacity (TextArea.style area)
    /\ textAlign g = "center"%string /\ textBaseline g = "middle"%string.
Proof.
  intros Hzero Hnone. apply Qeq_bool_iff in Hzero.
  destruct (paintSetup_context h ctx text area scaleX scaleY) as [Hp _].
  destruct (paintSetup_gstate h ctx text area scaleX scaleY) as (F1 & F2 & F3 & F4 & F5).
  destruct (applyTextShadow_sameButShadow (TextStyle.textShadow (TextArea.style area))
              (paintSetup h ctx text area scaleX scaleY))
    as ((A & F & Fi & _ & _ & TA & TB) & _ & Hsp & _).
  exists (gstate (applyTextShadow (TextStyle.textShadow (TextArea.style area))
                    (paintSetup h ctx text area scaleX scaleY))).
  split.
  - unfold drawTextOnCanvas. cbn zeta. rewrite restore_painted, Hnone, Hzero.
    cbn [negb]. unfold fillText, paint. cbn [painted].
    unfold paintSetup in Hsp, Hp |- *. cbn zeta in Hsp, Hp |- *.
    now rewrite Hsp, Hp.
  - rewrite <- F, <- Fi, <- A, <- TA, <- TB. repeat split; assumption.
Qed.

Lemma drawTextOnCanvas_single_fill_witness :
  exists g : GraphicsState,
    painted (drawTextOnCanvas linearHost newContext "Alice" sampleArea 1 1)
    = [FillText g "Alice" (10 * 1 + 100 * 1 / 2) (10 * 1 + 50 * 1 / 2)]
    /\ font g = "normal normal 32px Arial"%string.
Proof.
  destruct (drawTextOnCanvas_single_fill linearHost newContext "Alice" sampleArea 1 1)
    as (g & Hp & Hf & _).
  - reflexivity.
  - reflexivity.
  - exists g. split; [exact Hp |]. rewrite Hf. vm_compute. reflexivity.
Defined.

(** What [drawTextDecoration] strokes when there is a decoration: a fresh
    path of one horizontal line. *)
Lemma drawTextDecoration_stroke (h : Host) (ctx : Ctx) (text : string)
  (tx ty : Q) (fontSize : Z) (style : TextStyle.t) :
  TextStyle.textDecoration style <> DecorationNone ->
  exists (g : GraphicsState) (ly : Q),
    painted (drawTextDecoration h ctx text tx ty fontSize style)
    = painted ctx
      ++ [Stroke g
            [MoveTo (tx - (hostMeasureText h (font (gstate ctx)) text
                           + TextStyle.letterSpacing style * (strLength text - 1)) / 2) ly;
             LineTo (tx + (hostMeasureText h (font (gstate ctx)) text
                           + TextStyle.letterSpacing style * (strLength text - 1)) / 2) ly]]
    /\ ly == ty + decorationOffset (TextStyle.textDecoration style) fontSize
    /\ strokeStyle g = TextStyle.color style
    /\ lineWidth g = Math.max 1 (inject_Z fontSize / 15)
    /\ shadowOf g = shadowOf (gstate ctx).
Proof.
  intros Hdec. unfold drawTextDecoration.
  destruct (TextStyle.textDecoration style) eqn:Ed; [now destruct Hdec | | |];
    eexists _, _; (split; [reflexivity |]); cbn [decorationOffset];
    (split; [| repeat split]).
  - reflexivity.
  - lra.
  - unfold Qminus. reflexivity.
Qed.

(** X8.  The decoration is one straight horizontal line on a fresh path,
    centred on the anchor, as long as the measured width of the text plus
    [letterSpacing * (length - 1)], a quarter of the font size below the
    anchor line for an underline, on it for a line-through and half the font
    size above it for an overline, stroked in the text colour with a line
    width that is never below 1. *)
Theorem drawTextDecoration_line (h : Host) (ctx : Ctx) (text : string)
  (tx ty : Q) (fontSize : Z) (style : TextStyle.t) :
  TextStyle.textDecoration style <> DecorationNone ->
  exists (g : GraphicsState) (a b ly : Q),
    painted (drawTextDecoration h ctx text tx ty fontSize style)
    = painted ctx ++ [Stroke g [MoveTo a ly; LineTo b ly]]
    /\ b - a == hostMeasureText h (font (gstate ctx)) text
                + TextStyle.letterSpacing style * (strLength text - 1)
    /\ a + b == 2 * tx
    /\ ly == ty + decorationOffset (TextStyle.textDecoration style) fontSize
    /\ strokeStyle g = TextStyle.color style
    /\ 1 <= lineWidth g.
Proof.
  intros Hdec.
  destruct (drawTextDecoration_stroke h ctx text tx ty fontSize style Hdec)
    as (g & ly & Hp & Hy & Hs & Hw & _).
  eexists g, _, _, ly. split; [exact Hp |].
  split; [unfold Qdiv; change (/ 2) with (1 # 2); lra |].
  split; [unfold Qdiv; change (/ 2) with (1 # 2); lra |].
  split; [exact Hy |]. split; [exact Hs |].
  rewrite Hw. apply Math_max_ub.
Qed.

Lemma drawTextDecoration_line_witness :
  exists (g : GraphicsState) (a b ly : Q),
    painted (drawTextDecoration linearHost (setFont "normal normal 20px Arial" newContext)
               "Alice" 60 35 20 underlinedStyle)
    = [Stroke g [MoveTo a ly; LineTo b ly]]
    /\ b - a == 60 /\ a + b == 120 /\ ly == 40.
Proof.
  destruct (drawTextDecoration_line linearHost (setFont "normal normal 20px Arial" newContext)
              "Alice" 60 35 20 underlinedStyle)
    as (g & a & b & ly & Hp & Hlen & Hmid & Hy & _).
  - discriminate.
  - exists g, a, b, ly. split; [exact Hp |].
    split; [rewrite Hlen; vm_compute; reflexivity |].
    split; [rewrite Hmid; reflexivity | rewrite Hy; vm_compute; reflexivity].
Defined.



(** With a negative letter spacing the width that the fit test computes
    can be negative, and then the line runs from right to left and leaves
    the rectangle: a name of 20 characters in an area from 100 to 120, with
    letters 5 closer together, is underlined from 127.5 to 92.5. *)
Example decoration_line_can_leave_the_rectangle :
  snd (calculateOptimalFontSize linearHost newContext "Maximilian Alexander" 20 20
         crampedStyle) = 5%Z
  /\ exists a b : Q,
       strokeEnds (painted (drawTextOnCanvas linearHost newContext "Maximilian Alexander"
                              crampedArea 1 1)) = [(a, b)]
       /\ a == 255 # 2 /\ b == 185 # 2
       /\ TextArea.x crampedArea + TextArea.width crampedArea < a
       /\ b < TextArea.x crampedArea.
Proof.
  split; [vm_compute; reflexivity |].
  eexists. eexists. split; [vm_compute; reflexivity |].
  repeat split; vm_compute; reflexivity.
Qed.

(** ** The span of the spaced glyphs *)

Lemma sumQ_firstn_succ (ws : list Q) (k : nat) :
  (k < List.length ws)%nat ->
  sumQ (firstn (S k) ws) == sumQ (firstn k ws) + nth k ws 0.
Proof.
  revert k. induction ws as [| w ws IH]; intros k Hk; [cbn in Hk; lia |].
  destruct k as [| k].
  - cbn [firstn sumQ nth]. lra.
  - cbn [firstn sumQ nth]. cbn [List.length] in Hk.
    rewrite (IH k) by lia. cbn [firstn sumQ]. lra.
Qed.

(** The cursor before the glyph of index [k] has advanced by the widths of
    the glyphs before it and one spacing for each. *)
Lemma cursors_closed (ws cursors : list Q) (letterSpacing : Q) :
  (forall k : nat, (k < List.length ws)%nat ->
     nth (S k) cursors 0 == nth k cursors 0 + (nth k ws 0 + letterSpacing)) ->
  forall k : nat, (k <= List.length ws)%nat ->
    nth k cursors 0
    == nth 0 cursors 0 + sumQ (firstn k ws) + inject_Z (Z.of_nat k) * letterSpacing.
Proof.
  intros Hadv. induction k as [| k IH]; intros Hk.
  - cbn [firstn sumQ Z.of_nat]. change (inject_Z 0) with 0. lra.
  - rewrite (Hadv k) by lia. rewrite IH by lia. rewrite sumQ_firstn_succ by lia.
    rewrite Nat2Z.inj_succ. unfold Z.succ. rewrite inject_Z_plus.
    change (inject_Z 1) with 1. lra.
Qed.

(** The total width is the sum of the widths of the glyphs and one spacing
    between each two. *)
Lemma totalWidthOf_sum (h : Host) (ctx : Ctx) (text : string) (letterSpacing : Q) :
  text <> EmptyString ->
  snd (totalWidthOf h ctx text letterSpacing)
  == sumQ (charWidths h (font (gstate ctx)) text)
     + inject_Z (Z.of_nat (String.length text - 1)) * letterSpacing.
Proof.
  intros Hne.
  assert (Hn : (0 < String.length text)%nat) by (destruct text; [congruence | cbn; lia]).
  unfold totalWidthOf. cbn [snd]. rewrite measureChars_total, splitChars_length.
  fold (charWidths h (font (gstate ctx)) text).
  replace (Z.of_nat (String.length text))
    with (Z.of_nat (String.length text - 1) + 1)%Z by lia.
  rewrite inject_Z_plus. change (inject_Z 1) with 1. lra.
Qed.

(** The glyphs lie side by side from the start position: the left edge of
    the first is the start position, and the right edge of the last is the
    start position plus the widths of the glyphs and the spacings between
    them. *)
Lemma drawTextWithLetterSpacing_edges (h : Host) (ctx : Ctx) (text : string)
  (tx ty letterSpacing : Q) :
  text <> EmptyString ->
  exists xs : list Q,
    painted (drawTextWithLetterSpacing h ctx text tx ty letterSpacing)
    = painted ctx ++ glyphOps (gstate ctx) (splitChars text) xs ty
    /\ List.length xs = String.length text
    /\ nth 0 xs 0 - nth 0 (charWidths h (font (gstate ctx)) text) 0 / 2
       == tx - snd (totalWidthOf h ctx text letterSpacing) / 2
    /\ nth (String.length text - 1) xs 0
       + nth (String.length text - 1) (charWidths h (font (gstate ctx)) text) 0 / 2
       == tx - snd (totalWidthOf h ctx text letterSpacing) / 2
          + (sumQ (charWidths h (font (gstate ctx)) text)
             + inject_Z (Z.of_nat (String.length text - 1)) * letterSpacing).
Proof.
  intros Hne.
  assert (Hn : (0 < String.length text)%nat) by (destruct text; [congruence | cbn; lia]).
  set (ws := charWidths h (font (gstate ctx)) text).
  assert (Hlen : List.length ws = String.length text).
  { subst ws. unfold charWidths. now rewrite length_map, splitChars_length. }
  unfold drawTextWithLetterSpacing.
  set (ctx1 := fst (totalWidthOf h ctx text letterSpacing)).
  assert (Hstate : gstate ctx1 = gstate ctx /\ painted ctx1 = painted ctx).
  { subst ctx1. unfold totalWidthOf. cbn [fst].
    destruct (measureChars_state h letterSpacing (splitChars text) ctx 0) as (G & P & _).
    now split. }
  destruct Hstate as [Hg Hp].
  destruct (paintChars_cursors h letterSpacing ty (splitChars text) ctx1
              (tx - snd (totalWidthOf h ctx text letterSpacing) / 2))
    as (xs & cs & Lx & Lc & C0 & _ & Hadv & Hpaint & _).
  rewrite splitChars_length in *. rewrite Hg, Hp in *.
  fold (charWidths h (font (gstate ctx)) text) in Hadv. fold ws in Hadv.
  exists xs. split; [exact Hpaint |]. split; [exact Lx |].
  assert (Hclosed := cursors_closed ws cs letterSpacing).
  rewrite Hlen in Hclosed.
  specialize (Hclosed (fun k Hk => proj1 (Hadv k Hk))).
  split.
  - destruct (Hadv 0%nat Hn) as [_ Hx0]. rewrite Hx0, C0. lra.
  - destruct (Hadv (String.length text - 1)%nat ltac:(lia)) as [_ Hxl].
    rewrite Hxl, (Hclosed (String.length text - 1)%nat) by lia.
    rewrite C0.
    assert (Hsum : sumQ ws == sumQ (firstn (String.length text - 1) ws)
                              + nth (String.length text - 1) ws 0).
    { rewrite <- sumQ_firstn_succ by lia.
      replace (S (String.length text - 1)) with (List.length ws) by lia.
      now rewrite firstn_all. }
    rewrite Hsum. unfold Qdiv. change (/ 2) with (1 # 2). lra.
Qed.

(** X7.  The glyphs that [drawTextWithLetterSpacing] paints for a text that
    is not empty span exactly the total width, centred on the anchor: the
    left edge of the first glyph is at [tx - totalWidth / 2] and the right
    edge of the last at [tx + totalWidth / 2]. *)
Theorem drawTextWithLetterSpacing_span (h : Host) (ctx : Ctx) (text : string)
  (tx ty letterSpacing : Q) :
  text <> EmptyString ->
  exists xs : list Q,
    painted (drawTextWithLetterSpacing h ctx text tx ty letterSpacing)
    = painted ctx ++ glyphOps (gstate ctx) (splitChars text) xs ty
    /\ List.length xs = String.length text
    /\ nth 0 xs 0 - nth 0 (charWidths h (font (gstate ctx)) text) 0 / 2
       == tx - snd (totalWidthOf h ctx text letterSpacing) / 2
    /\ nth (String.length text - 1) xs 0
       + nth (String.length text - 1) (charWidths h (font (gstate ctx)) text) 0 / 2
       == tx + snd (totalWidthOf h ctx text letterSpacing) / 2.
Proof.
  intros Hne.
  destruct (drawTextWithLetterSpacing_edges h ctx text tx ty letterSpacing Hne)
    as (xs & Hpaint & Hlen & Hfirst & Hlast).
  exists xs. split; [exact Hpaint |]. split; [exact Hlen |]. split; [exact Hfirst |].
  rewrite Hlast. pose proof (totalWidthOf_sum h ctx text letterSpacing Hne) as Htotal.
  set (total := snd (totalWidthOf h ctx text letterSpacing)) in *.
  rewrite <- Htotal. unfold Qdiv. change (/ 2) with (1 # 2). lra.
Qed.

Lemma drawTextWithLetterSpacing_span_witness :
  exists xs : list Q,
    painted (drawTextWithLetterSpacing linearHost (setFont "normal normal 20px Arial" newContext)
               "Bob" 60 35 3)
    = glyphOps (gstate (setFont "normal normal 20px Arial" newContext))
        (splitChars "Bob") xs 35
    /\ nth 0 xs 0 - 12 / 2 == 60 - 42 / 2
    /\ nth 2 xs 0 + 12 / 2 == 60 + 42 / 2.
Proof.
  destruct (drawTextWithLetterSpacing_span linearHost
              (setFont "normal normal 20px Arial" newContext) "Bob" 60 35 3)
    as (xs & Hp & _ & Hfirst & Hlast).
  - discriminate.
  - exists xs. split; [exact Hp |].
    assert (Ew0 : nth 0 (charWidths linearHost "normal normal 20px Arial" "Bob") 0 == 12)
      by (vm_compute; reflexivity).
    assert (Ew2 : nth 2 (charWidths linearHost "normal normal 20px Arial" "Bob") 0 == 12)
      by (vm_compute; reflexivity).
    assert (Et : snd (totalWidthOf linearHost (setFont "normal normal 20px Arial" newContext)
                        "Bob" 3) == 42) by (vm_compute; reflexivity).
    cbn [painted gstate font setFont withState newContext String.length Nat.sub] in Hfirst, Hlast.
    rewrite Ew0, Et in Hfirst. rewrite Ew2, Et in Hlast. split; assumption.
Defined.

(** ** The batch generator *)

Lemma fold_logProgress (calls log : list (Z * Z)) :
  fold_left (fun w' args => notify (Some logProgress) args w') calls log = log ++ calls.
Proof.
  revert log. induction calls as [| [c t] calls IH]; intros log; cbn [fold_left].
  - now rewrite app_nil_r.
  - rewrite IH. unfold notify, logProgress. cbn [fst snd]. now rewrite <- app_assoc.
Qed.

(** The calls for the indices from [i] that pass a test: their first
    arguments increase, and lie between [i + 1] and [i + n]. *)
Lemma progress_of_indices_sorted (p : nat -> bool) (total : Z) (n i : nat) :
  StronglySorted Z.lt
    (map fst (map (fun j => ((Z.of_nat j + 1)%Z, total)) (filter p (seq i n))))
  /\ Forall (fun a : Z * Z => (Z.of_nat i + 1 <= fst a <= Z.of_nat i + Z.of_nat n)%Z
                              /\ snd a = total)
       (map (fun j => ((Z.of_nat j + 1)%Z, total)) (filter p (seq i n))).
Proof.
  revert i. induction n as [| n IH]; intros i.
  - split; constructor.
  - destruct (IH (S i)) as [Hs Hb]. cbn [seq filter].
    assert (Hb' : Forall (fun a : Z * Z =>
                    (Z.of_nat i + 1 <= fst a <= Z.of_nat i + Z.of_nat (S n))%Z /\ snd a = total)
                    (map (fun j => ((Z.of_nat j + 1)%Z, total)) (filter p (seq (S i) n)))).
    { eapply Forall_impl; [| exact Hb]. intros a [Ha Et]. split; [lia | exact Et]. }
    destruct (p i); [| split; assumption]. cbn [map fst]. split.
    + constructor; [exact Hs |]. apply Forall_map.
      eapply Forall_impl; [| exact Hb]. intros a [Ha _]. lia.
    + constructor; [| exact Hb']. cbn [fst snd]. split; [lia | reflexivity].
Qed.

(** X10. Progress only moves forward: when the image loads and every canvas
    encodes, a callback that records its arguments ends with as many entries
    as there are images, at most one per name; their first components
    increase strictly and lie between 1 and the number of names, and their
    second component is always the number of names. *)
Theorem generateImages_progress_increases (h : Host) (imageDataUrl : string)
  (imageWidth imageHeight : Q) (names : list string) (textAreas : list TextArea.t)
  (img : HTMLImageElement) :
  hostLoadImage h imageDataUrl = Some img ->
  encodes h ->
  exists (log : list (Z * Z)) (results : list GeneratedImage),
    generateImages h imageDataUrl imageWidth imageHeight names textAreas
      (Some logProgress) [] = (log, Resolved results)
    /\ List.length log = List.length results
    /\ (List.length results <= List.length names)%nat
    /\ StronglySorted Z.lt (map fst log)
    /\ Forall (fun a : Z * Z => (1 <= fst a <= Z.of_nat (List.length names))%Z
                                /\ snd a = Z.of_nat (List.length names)) log.
Proof.
  intros Hload Henc.
  destruct (generateImages_rendered h imageDataUrl imageWidth imageHeight names textAreas
              (Some logProgress) [] img Hload Henc) as (results & Hrun & Hnames & _).
  rewrite fold_logProgress in Hrun. cbn [app] in Hrun.
  exists (progressCalls h names), results.
  assert (Hlen : List.length (progressCalls h names) = List.length results).
  { unfold progressCalls. rewrite length_map.
    rewrite <- (length_map snd (renderedNames h names)), <- Hnames. apply length_map. }
  split; [exact Hrun |]. split; [exact Hlen |].
  destruct (progress_of_indices_sorted
              (fun j => isRendered h (j, nth j names EmptyString))
              (Z.of_nat (List.length names)) (List.length names) 0) as [Hs Hb].
  rewrite <- progressCalls_indices in Hs, Hb.
  split; [| split; [exact Hs |]].
  - rewrite <- Hlen, progressCalls_indices, length_map.
    etransitivity; [apply filter_length_le |]. now rewrite length_seq.
  - eapply Forall_impl; [| exact Hb]. intros a [Ha Et]. split; [lia | exact Et].
Qed.

Lemma generateImages_progress_increases_witness :
  exists (log : list (Z * Z)) (results : list GeneratedImage),
    generateImages linearHost "data:image/png" 200 100 sampleNames [sampleArea]
      (Some logProgress) [] = (log, Resolved results)
    /\ List.length log = List.length results
    /\ (List.length results <= List.length sampleNames)%nat
    /\ StronglySorted Z.lt (map fst log)
    /\ Forall (fun a : Z * Z => (1 <= fst a <= Z.of_nat (List.length sampleNames))%Z
                                /\ snd a = Z.of_nat (List.length sampleNames)) log.
Proof.
  apply (generateImages_progress_increases linearHost "data:image/png" 200 100 sampleNames
           [sampleArea] {| src := "data:image/png" |}).
  - reflexivity.
  - intros canvas. cbn. discriminate.
Defined.

Section BatchFailure.

Context {W : Type}.
Variable h : Host.
Variable img : HTMLImageElement.
Variables imageWidth imageHeight : Q.
Variable textAreas : list TextArea.t.
Variable onProgress : option (Z -> Z -> W -> W).
Variable total : Z.
Variable k : nat.

(** The loop, when the canvas of the rendered name at index [k] does not
    encode: it rejects, having called [onProgress] only for rendered names
    before [k]. *)
Lemma generateLoop_rejects (rest : list string) (i : nat)
  (results : list GeneratedImage) (w : W) :
  (i <= k < i + List.length rest)%nat ->
  isRendered h (k, nth (k - i) rest EmptyString) = true ->
  hostToBlob h (renderCanvas h img imageWidth imageHeight textAreas
                  (trim (nth (k - i) rest EmptyString))) = None ->
  exists done later : list (nat * string),
    renderedFrom h i rest = done ++ later
    /\ generateLoop h img imageWidth imageHeight textAreas onProgress total i rest results w
       = (fold_left (fun w' p => notify onProgress ((Z.of_nat (fst p) + 1)%Z, total) w') done w,
          Rejected "Failed to create blob")
    /\ Forall (fun p => (fst p < k)%nat) done.
Proof.
  revert i results w. induction rest as [| raw rest IH]; intros i results w Hk Hr Hblob.
  - cbn in Hk. lia.
  - rewrite renderedFrom_cons. cbn [generateLoop].
    change {| canvasWidth := imageWidth; canvasHeight := imageHeight;
              pixels := painted (drawAreas h (trim raw) textAreas
                          (drawImage img 0 0 imageWidth imageHeight newContext)) |}
      with (renderCanvas h img imageWidth imageHeight textAreas (trim raw)).
    destruct (Nat.eq_dec i k) as [E | Hne].
    + subst i. rewrite Nat.sub_diag in Hr, Hblob. cbn [nth] in Hr, Hblob.
      rewrite Hr. unfold isRendered in Hr. cbn [fst snd] in Hr.
      apply andb_true_iff in Hr as [Hnb Hctx]. apply negb_true_iff in Hnb.
      rewrite Hnb, Hctx, Hblob. cbn [negb].
      exists [], ([(k, trim raw)] ++ renderedFrom h (S k) rest).
      split; [reflexivity |]. split; [reflexivity | constructor].
    + replace (k - i)%nat with (S (k - S i)) in Hr, Hblob by lia. cbn [nth] in Hr, Hblob.
      assert (Hk' : (S i <= k < S i + List.length rest)%nat) by (cbn in Hk; lia).
      unfold isRendered at 1. cbn [fst snd].
      destruct (isEmptyString (trim raw)) eqn:Hblank; cbn [negb andb app].
      * apply IH; assumption.
      * destruct (hostGetContext h i) eqn:Hctx; cbn [negb app]; [| apply IH; assumption].
        destruct (hostToBlob h (renderCanvas h img imageWidth imageHeight textAreas (trim raw)))
          as [blob |] eqn:Hb.
        -- destruct (IH (S i)
                       (results ++ [mkGenerated (trim raw)
                          (hostToDataURL h
                             (renderCanvas h img imageWidth imageHeight textAreas (trim raw)))
                          blob])
                       (match onProgress with
                        | Some callback => callback (Z.of_nat i + 1)%Z total w
                        | None => w
                        end) Hk' Hr Hblob) as (done & later & Hsplit & Hrun & Hdone).
           exists ((i, trim raw) :: done), later. rewrite Hsplit, Hrun.
           split; [reflexivity |]. split; [reflexivity |].
           constructor; [cbn; lia | exact Hdone].
        -- exists [], ((i, trim raw) :: renderedFrom h (S i) rest).
           split; [reflexivity |]. split; [reflexivity | constructor].
Qed.

End BatchFailure.

(** X11. One canvas that fails to encode loses the whole batch: when the
    name at index [k] is rendered and its canvas yields no blob, the run
    rejects and returns no image at all, although every name before [k] that
    was rendered has been reported through the callback: the calls made are
    an initial part of those of a full run, all for indices before [k]. *)
Theorem generateImages_encoding_failure {W : Type} (h : Host) (imageDataUrl : string)
  (imageWidth imageHeight : Q) (names : list string) (textAreas : list TextArea.t)
  (onProgress : option (Z -> Z -> W -> W)) (w : W) (img : HTMLImageElement) (k : nat) :
  hostLoadImage h imageDataUrl = Some img ->
  (k < List.length names)%nat ->
  isRendered h (k, nth k names EmptyString) = true ->
  hostToBlob h (renderCanvas h img imageWidth imageHeight textAreas
                  (trim (nth k names EmptyString))) = None ->
  exists calls later : list (Z * Z),
    progressCalls h names = calls ++ later
    /\ generateImages h imageDataUrl imageWidth imageHeight names textAreas onProgress w
       = (fold_left (fun w' args => notify onProgress args w') calls w,
          Rejected "Failed to create blob")
    /\ Forall (fun a : Z * Z => (1 <= fst a <= Z.of_nat k)%Z) calls.
Proof.
  intros Hload Hk Hr Hblob. unfold generateImages. rewrite Hload.
  destruct (generateLoop_rejects h img imageWidth imageHeight textAreas onProgress
              (Z.of_nat (List.length names)) k names 0 [] w) as (done & later & Hsplit & Hrun & Hdone).
  - lia.
  - now rewrite Nat.sub_0_r.
  - now rewrite Nat.sub_0_r.
  - exists (map (fun p => ((Z.of_nat (fst p) + 1)%Z, Z.of_nat (List.length names))) done),
           (map (fun p => ((Z.of_nat (fst p) + 1)%Z, Z.of_nat (List.length names))) later).
    split; [| split].
    + unfold progressCalls, renderedNames. rewrite Hsplit. apply map_app.
    + rewrite Hrun. f_equal. clear. revert w.
      induction done as [| p l IHl]; intros w0; [reflexivity |]. cbn [map fold_left]. apply IHl.
    + apply Forall_map. eapply Forall_impl; [| exact Hdone]. intros p Hp.
      cbv beta in Hp |- *. cbn [fst]. lia.
Qed.

Lemma generateImages_encoding_failure_witness :
  exists calls later : list (Z * Z),
    progressCalls noBlobHost sampleNames = calls ++ later
    /\ generateImages noBlobHost "data:image/png" 200 100 sampleNames [sampleArea]
         (Some logProgress) []
       = (fold_left (fun w' args => notify (Some logProgress) args w') calls [],
          Rejected "Failed to create blob")
    /\ Forall (fun a : Z * Z => (1 <= fst a <= Z.of_nat 3)%Z) calls.
Proof.
  apply (generateImages_encoding_failure noBlobHost "data:image/png" 200 100 sampleNames
           [sampleArea] (Some logProgress) [] {| src := "data:image/png" |} 3).
  - reflexivity.
  - cbn. lia.
  - vm_compute. reflexivity.
  - reflexivity.
Defined.





(** ** Downloading *)

Lemma length_string_app (s t : string) :
  String.length (s ++ t) = (String.length s + String.length t)%nat.
Proof. induction s as [| c s IH]; cbn; [reflexivity | now rewrite IH]. Qed.

Lemma string_app_inj_l (s1 s2 t : string) : (s1 ++ t = s2 ++ t)%string -> s1 = s2.
Proof.
  revert s2. induction s1 as [| c s1 IH]; intros [| d s2] E; cbn in E.
  - reflexivity.
  - apply (f_equal String.length) in E. cbn in E. rewrite length_string_app in E. lia.
  - apply (f_equal String.length) in E. cbn in E. rewrite length_string_app in E. lia.
  - injection E as Ec Es. subst d. f_equal. now apply IH.
Qed.

(** The downloads of images that all have a name: one per image, in order,
    named after the image; and the URL made for each blob is revoked. *)
Lemma downloadFrom_named (createObjectURL : Blob -> string) (images : list GeneratedImage)
  (index : nat) :
  Forall (fun image => isEmptyString (name image) = false) images ->
  clickedNames (downloadFrom createObjectURL index images)
  = map (fun image => (name image ++ ".png")%string) images.
Proof.
  revert index. induction images as [| image rest IH]; intros index Hall; [reflexivity |].
  inversion Hall as [| ? ? Hname Hrest]; subst.
  cbn [downloadFrom clickedNames flat_map app map download].
  fold (clickedNames (downloadFrom createObjectURL (S index) rest)).
  rewrite (IH (S index) Hrest). unfold downloadName. now rewrite Hname.
Qed.

Lemma downloadFrom_revokes (createObjectURL : Blob -> string) (images : list GeneratedImage)
  (index : nat) :
  revokedUrls (downloadFrom createObjectURL index images)
  = map (fun image => createObjectURL (blob image)) images.
Proof.
  revert index. induction images as [| image rest IH]; intros index; [reflexivity |].
  cbn [downloadFrom revokedUrls flat_map app map href].
  fold (revokedUrls (downloadFrom createObjectURL (S index) rest)).
  now rewrite (IH (S index)).
Qed.

Lemma renderedNames_not_blank (h : Host) (names : list string) :
  Forall (fun s => isEmptyString s = false) (map snd (renderedNames h names)).
Proof.
  apply Forall_map, Forall_forall. intros [j s] Hin.
  apply renderedNames_In in Hin as (_ & Es & Hr). cbn [snd]. subst s.
  unfold isRendered in Hr. cbn [fst snd] in Hr.
  apply andb_true_iff in Hr as [Hnb _]. now apply negb_true_iff in Hnb.
Qed.

(** X13. Downloading what a batch produced: when the image loads and every
    canvas encodes, [downloadAsZip] on the images of [generateImages] starts
    one download per rendered name, in input order, whose file name is the
    trimmed name followed by ".png"; the numbered fall-back name "image-N"
    is never used, because no image of a batch has an empty name.  Every
    object URL made for a blob is revoked. *)
Theorem downloadAsZip_of_generateImages {W : Type} (h : Host) (imageDataUrl : string)
  (imageWidth imageHeight : Q) (names : list string) (textAreas : list TextArea.t)
  (onProgress : option (Z -> Z -> W -> W)) (w : W) (img : HTMLImageElement)
  (createObjectURL : Blob -> string) :
  hostLoadImage h imageDataUrl = Some img ->
  encodes h ->
  exists results : list GeneratedImage,
    snd (generateImages h imageDataUrl imageWidth imageHeight names textAreas onProgress w)
    = Resolved results
    /\ clickedNames (downloadAsZip createObjectURL results)
       = map (fun p => (snd p ++ ".png")%string) (renderedNames h names)
    /\ revokedUrls (downloadAsZip createObjectURL results)
       = map (fun image => createObjectURL (blob image)) results.
Proof.
  intros Hload Henc.
  destruct (generateImages_rendered h imageDataUrl imageWidth imageHeight names textAreas
              onProgress w img Hload Henc) as (results & Hrun & Hnames & _).
  exists results. rewrite Hrun. split; [reflexivity |].
  split; [| apply downloadFrom_revokes].
  unfold downloadAsZip. rewrite downloadFrom_named.
  - rewrite <- (map_map name (fun s => (s ++ ".png")%string)), Hnames. apply map_map.
  - pose proof (renderedNames_not_blank h names) as Hnb. rewrite <- Hnames in Hnb.
    now apply Forall_map in Hnb.
Qed.

Lemma downloadAsZip_of_generateImages_witness :
  exists results : list GeneratedImage,
    snd (generateImages linearHost "data:image/png" 200 100 sampleNames [sampleArea]
           (Some logProgress) [])
    = Resolved results
    /\ clickedNames (downloadAsZip (fun b => ("blob:" ++ mimeType b)%string) results)
       = map (fun p => (snd p ++ ".png")%string) (renderedNames linearHost sampleNames)
    /\ revokedUrls (downloadAsZip (fun b => ("blob:" ++ mimeType b)%string) results)
       = map (fun image => ("blob:" ++ mimeType (blob image))%string) results.
Proof.
  apply (downloadAsZip_of_generateImages linearHost "data:image/png" 200 100 sampleNames
           [sampleArea] (Some logProgress) [] {| src := "data:image/png" |}).
  - reflexivity.
  - intros canvas. cbn. discriminate.
Defined.

(** X14. File names are not made distinct: for images that all have a
    name, the downloads have pairwise different file names exactly when the
    images have pairwise different names, so two images of the same name are
    saved under the same file name. *)
Theorem downloadAsZip_distinct_names (createObjectURL : Blob -> string)
  (images : list GeneratedImage) :
  Forall (fun image => isEmptyString (name image) = false) images ->
  NoDup (clickedNames (downloadAsZip createObjectURL images)) <-> NoDup (map name images).
Proof.
  intros Hall. unfold downloadAsZip. rewrite (downloadFrom_named _ _ _ Hall).
  rewrite <- (map_map name (fun s => (s ++ ".png")%string)). split.
  - apply NoDup_map_inv.
  - intros Hnd. induction Hnd as [| s l Hnotin Hnd IH]; [constructor |].
    cbn [map]. constructor; [| exact IH].
    intros Hin. apply in_map_iff in Hin as (s' & E & Hin').
    apply string_app_inj_l in E. now subst s'.
Qed.

Lemma downloadAsZip_distinct_names_witness :
  NoDup (clickedNames (downloadAsZip (fun b => ("blob:" ++ mimeType b)%string)
           [mkGenerated "Alice" "data:image/png" {| mimeType := "image/png"; bytes := EmptyString |};
            mkGenerated "Bob" "data:image/png" {| mimeType := "image/png"; bytes := EmptyString |}]))
  <-> NoDup (map name
           [mkGenerated "Alice" "data:image/png" {| mimeType := "image/png"; bytes := EmptyString |};
            mkGenerated "Bob" "data:image/png" {| mimeType := "image/png"; bytes := EmptyString |}]).
Proof.
  apply (downloadAsZip_distinct_names (fun b => ("blob:" ++ mimeType b)%string)).
  repeat constructor.
Defined.
(** * Further properties of the editor *)

(** ** Comparisons *)

Lemma Qlt_bool_iff (a b : Q) : Qlt_bool a b = true <-> a < b.
Proof.
  unfold Qlt_bool. rewrite negb_true_iff. split.
  - apply Qle_bool_false_lt.
  - intros Hlt. destruct (Qle_bool b a) eqn:E; [| reflexivity].
    apply Qle_bool_iff in E. lra.
Qed.

Lemma Qlt_bool_false (a b : Q) : Qlt_bool a b = false <-> b <= a.
Proof.
  unfold Qlt_bool. rewrite negb_false_iff. apply Qle_bool_iff.
Qed.

Lemma Math_min_cases (a b : Q) :
  (a <= b /\ Math.min a b = a) \/ (b < a /\ Math.min a b = b).
Proof.
  unfold Math.min. destruct (Qle_bool a b) eqn:E.
  - left. split; [now apply Qle_bool_iff | reflexivity].
  - right. split; [now apply Qle_bool_false_lt | reflexivity].
Qed.

(** ** The scale of the canvas *)

(** X15. The scale of the editor fits the image and never enlarges it:
    for an image and a container of positive sizes the scale is positive and
    at most 1, the scaled image is no wider than the container and no higher
    than six tenths of the window, and the scale is as large as these three
    bounds allow: one of them is met exactly. *)
Theorem scaleToFit_fits (containerWidth innerHeight : Q) (image : UploadedImage.t) :
  0 < containerWidth -> 0 < innerHeight ->
  0 < UploadedImage.width image -> 0 < UploadedImage.height image ->
  let s := ImageCanvas.scaleToFit containerWidth innerHeight image in
  0 < s /\ s <= 1
  /\ UploadedImage.width image * s <= containerWidth
  /\ UploadedImage.height image * s <= innerHeight * (6 # 10)
  /\ (s == 1 \/ UploadedImage.width image * s == containerWidth
      \/ UploadedImage.height image * s == innerHeight * (6 # 10)).
Proof.
  intros Hc Hi Hw Hh. unfold ImageCanvas.scaleToFit. cbv zeta.
  set (w := UploadedImage.width image) in *. set (hh := UploadedImage.height image) in *.
  set (m := innerHeight * (6 # 10)).
  assert (Hm : 0 < m) by (unfold m; lra).
  assert (Ex : w * (containerWidth / w) == containerWidth) by (field; lra).
  assert (Ey : hh * (m / hh) == m) by (field; lra).
  assert (Px : 0 < containerWidth / w) by (apply Qlt_shift_div_l; lra).
  assert (Py : 0 < m / hh) by (apply Qlt_shift_div_l; lra).
  set (sx := containerWidth / w) in *. set (sy := m / hh) in *.
  assert (Hgoal : forall s : Q,
            0 < s -> s <= 1 -> s <= sx -> s <= sy -> (s == 1 \/ s == sx \/ s == sy) ->
            0 < s /\ s <= 1 /\ w * s <= containerWidth /\ hh * s <= m
            /\ (s == 1 \/ w * s == containerWidth \/ hh * s == m)).
  { intros s P1 P2 P3 P4 P5. split; [exact P1 |]. split; [exact P2 |].
    assert (Bx : w * s <= w * sx) by (apply Qmult_le_l; assumption).
    assert (By : hh * s <= hh * sy) by (apply Qmult_le_l; assumption).
    split; [lra |]. split; [lra |].
    destruct P5 as [E | [E | E]]; [left; exact E | right; left | right; right];
      rewrite E; assumption. }
  destruct (Math_min_cases sx sy) as [[H1 E1] | [H1 E1]]; rewrite E1;
    [destruct (Math_min_cases sx 1) as [[H2 E2] | [H2 E2]]
    | destruct (Math_min_cases sy 1) as [[H2 E2] | [H2 E2]]]; rewrite E2;
    apply Hgoal; lra.
Qed.

Lemma scaleToFit_fits_witness :
  let s := ImageCanvas.scaleToFit 400 1000 sampleImage in
  0 < s /\ s <= 1
  /\ UploadedImage.width sampleImage * s <= 400
  /\ UploadedImage.height sampleImage * s <= 1000 * (6 # 10)
  /\ (s == 1 \/ UploadedImage.width sampleImage * s == 400
      \/ UploadedImage.height sampleImage * s == 1000 * (6 # 10)).
Proof.
  apply (scaleToFit_fits 400 1000 sampleImage); reflexivity.
Defined.

(** ** Resizing and dragging *)

Lemma resizeArea_edges (ds : ImageCanvas.DragState) (deltaX deltaY : Q) (area : TextArea.t) :
  TextArea.id (ImageCanvas.resizeArea ds deltaX deltaY area) = TextArea.id area
  /\ TextArea.style (ImageCanvas.resizeArea ds deltaX deltaY area) = TextArea.style area
  /\ bigEnough (ImageCanvas.resizeArea ds deltaX deltaY area)
  /\ (if grabs ds "w"
      then TextArea.x (ImageCanvas.resizeArea ds deltaX deltaY area)
           + TextArea.width (ImageCanvas.resizeArea ds deltaX deltaY area)
           == ImageCanvas.areaStartX ds + ImageCanvas.areaStartWidth ds
      else TextArea.x (ImageCanvas.resizeArea ds deltaX deltaY area)
           == ImageCanvas.areaStartX ds)
  /\ (if grabs ds "n"
      then TextArea.y (ImageCanvas.resizeArea ds deltaX deltaY area)
           + TextArea.height (ImageCanvas.resizeArea ds deltaX deltaY area)
           == ImageCanvas.areaStartY ds + ImageCanvas.areaStartHeight ds
      else TextArea.y (ImageCanvas.resizeArea ds deltaX deltaY area)
           == ImageCanvas.areaStartY ds).
Proof.
  unfold ImageCanvas.resizeArea, grabs, bigEnough, ImageCanvas.MIN_AREA_SIZE.
  destruct (ImageCanvas.resizeHandle ds) as [hd |].
  - repeat match goal with
           | |- context [String.eqb hd ?k] =>
               let E := fresh "E" in
               destruct (String.eqb hd k) eqn:E;
               [apply String.eqb_eq in E; subst hd; cbn [String.eqb Ascii.eqb Bool.eqb] |]
           end.
    all: repeat match goal with
                | |- context [includes ?a ?b] =>
                    first [ is_var a; destruct (includes a b)
                          | let v := eval vm_compute in (includes a b) in
                            change (includes a b) with v ]
                end.
    all: cbv beta iota zeta.
    all: repeat match goal with
                | |- context [Qlt_bool ?a ?b] =>
                    let E := fresh "L" in
                    destruct (Qlt_bool a b) eqn:E;
                    [apply Qlt_bool_iff in E | apply Qlt_bool_false in E];
                    cbv beta iota zeta
                end.
    all: cbn [TextArea.id TextArea.style TextArea.x TextArea.y TextArea.width TextArea.height].
    all: repeat split; lra.
  - cbv beta iota zeta.
    repeat match goal with
           | |- context [Qlt_bool ?a ?b] =>
               let E := fresh "L" in
               destruct (Qlt_bool a b) eqn:E;
               [apply Qlt_bool_iff in E | apply Qlt_bool_false in E];
               cbv beta iota zeta
           end.
    all: cbn [TextArea.id TextArea.style TextArea.x TextArea.y TextArea.width TextArea.height].
    all: repeat split; lra.
Qed.

(** An area after some mouse moves, against the area before: of the same
    identifier and style, and the same area unless it is the selected one. *)
Lemma mapSelected_others (selected : option string) (change : TextArea.t -> TextArea.t)
  (areas0 areas : list TextArea.t) :
  (forall a, TextArea.id (change a) = TextArea.id a
             /\ TextArea.style (change a) = TextArea.style a) ->
  Forall2 (fun a a' => TextArea.id a' = TextArea.id a /\ TextArea.style a' = TextArea.style a
                       /\ (~ isSelected selected a -> a' = a)) areas0 areas ->
  Forall2 (fun a a' => TextArea.id a' = TextArea.id a /\ TextArea.style a' = TextArea.style a
                       /\ (~ isSelected selected a -> a' = a))
          areas0 (ImageCanvas.mapSelected selected change areas).
Proof.
  intros Hchange Hrel. induction Hrel as [| a a' l l' (Hid & Hstyle & Hother) Hrest IH];
    cbn [ImageCanvas.mapSelected map]; constructor; [| exact IH].
  destruct selected as [s |]; [| repeat split; assumption].
  destruct (String.eqb (TextArea.id a') s) eqn:E; cbn [negb]; [| repeat split; assumption].
  apply String.eqb_eq in E. destruct (Hchange a') as [Hi Hs].
  split; [congruence |]. split; [congruence |].
  intros Hnot. exfalso. apply Hnot. unfold isSelected. congruence.
Qed.

(** The selected areas after a change of the selected areas. *)
Lemma mapSelected_selected (selected : option string) (change : TextArea.t -> TextArea.t)
  (P : TextArea.t -> TextArea.t -> Prop) (areas0 areas : list TextArea.t) :
  (forall a a', TextArea.id a' = TextArea.id a -> TextArea.style a' = TextArea.style a ->
                P a (change a')) ->
  Forall2 (fun a a' => TextArea.id a' = TextArea.id a /\ TextArea.style a' = TextArea.style a
                       /\ (~ isSelected selected a -> a' = a)) areas0 areas ->
  Forall2 (fun a a' => isSelected selected a -> P a a')
          areas0 (ImageCanvas.mapSelected selected change areas).
Proof.
  intros Hchange Hrel. induction Hrel as [| a a' l l' (Hid & Hstyle & Hother) Hrest IH];
    cbn [ImageCanvas.mapSelected map]; constructor; [| exact IH].
  intros Hsel. unfold isSelected in Hsel. subst selected.
  rewrite Hid, String.eqb_refl. cbn [negb]. now apply Hchange.
Qed.

Lemma Forall2_keeps_refl (selected : option string) (areas : list TextArea.t) :
  Forall2 (fun a a' => TextArea.id a' = TextArea.id a /\ TextArea.style a' = TextArea.style a
                       /\ (~ isSelected selected a -> a' = a)) areas areas.
Proof. induction areas; constructor; [repeat split | assumption]. Qed.

Lemma Forall2_and {A B : Type} (P Q : A -> B -> Prop) (l : list A) (l' : list B) :
  Forall2 P l l' -> Forall2 Q l l' -> Forall2 (fun a b => P a b /\ Q a b) l l'.
Proof.
  intros HP. induction HP; intros HQ; inversion HQ; subst; constructor; auto.
Qed.

Lemma handleMouseMove_resizing (im : UploadedImage.t) (px py : Q) (st : ImageCanvas.State) :
  ImageCanvas.isResizing (ImageCanvas.dragState st) = true ->
  truthy (ImageCanvas.selectedAreaId st) = true ->
  ImageCanvas.handleMouseMove (Some im) px py st
  = ImageCanvas.mkState
      (ImageCanvas.mapSelected (ImageCanvas.selectedAreaId st)
         (ImageCanvas.resizeArea (ImageCanvas.dragState st)
            ((px - ImageCanvas.startX (ImageCanvas.dragState st)) / ImageCanvas.scale st)
            ((py - ImageCanvas.startY (ImageCanvas.dragState st)) / ImageCanvas.scale st))
         (ImageCanvas.textAreas st))
      (ImageCanvas.selectedAreaId st) (ImageCanvas.scale st) (ImageCanvas.isDrawing st)
      (ImageCanvas.drawStart st) (ImageCanvas.currentRect st) (ImageCanvas.dragState st).
Proof.
  intros Hr Ht. unfold ImageCanvas.handleMouseMove. cbv zeta. now rewrite Hr, Ht.
Qed.

Lemma handleMouseMove_dragging (im : UploadedImage.t) (px py : Q) (st : ImageCanvas.State) :
  ImageCanvas.isResizing (ImageCanvas.dragState st) = false ->
  ImageCanvas.isDragging (ImageCanvas.dragState st) = true ->
  truthy (ImageCanvas.selectedAreaId st) = true ->
  ImageCanvas.handleMouseMove (Some im) px py st
  = ImageCanvas.mkState
      (ImageCanvas.mapSelected (ImageCanvas.selectedAreaId st)
         (ImageCanvas.dragArea (ImageCanvas.dragState st)
            ((px - ImageCanvas.startX (ImageCanvas.dragState st)) / ImageCanvas.scale st)
            ((py - ImageCanvas.startY (ImageCanvas.dragState st)) / ImageCanvas.scale st))
         (ImageCanvas.textAreas st))
      (ImageCanvas.selectedAreaId st) (ImageCanvas.scale st) (ImageCanvas.isDrawing st)
      (ImageCanvas.drawStart st) (ImageCanvas.currentRect st) (ImageCanvas.dragState st).
Proof.
  intros Hr Hd Ht. unfold ImageCanvas.handleMouseMove. cbv zeta. now rewrite Hr, Hd, Ht.
Qed.

(** While an area is resized or dragged, mouse moves keep the selection,
    the drag state and the scale, and change selected areas only, and of
    these neither the identifier nor the style. *)
Lemma moveThrough_grabbed (im : UploadedImage.t) (moves : list (Q * Q))
  (st0 st : ImageCanvas.State) :
  (ImageCanvas.isResizing (ImageCanvas.dragState st)
   || ImageCanvas.isDragging (ImageCanvas.dragState st) = true)%bool ->
  truthy (ImageCanvas.selectedAreaId st) = true ->
  Forall2 (fun a a' => TextArea.id a' = TextArea.id a /\ TextArea.style a' = TextArea.style a
                       /\ (~ isSelected (ImageCanvas.selectedAreaId st) a -> a' = a))
          (ImageCanvas.textAreas st0) (ImageCanvas.textAreas st) ->
  ImageCanvas.selectedAreaId (moveThrough (Some im) moves st) = ImageCanvas.selectedAreaId st
  /\ ImageCanvas.dragState (moveThrough (Some im) moves st) = ImageCanvas.dragState st
  /\ ImageCanvas.scale (moveThrough (Some im) moves st) = ImageCanvas.scale st
  /\ Forall2 (fun a a' => TextArea.id a' = TextArea.id a
                          /\ TextArea.style a' = TextArea.style a
                          /\ (~ isSelected (ImageCanvas.selectedAreaId st) a -> a' = a))
             (ImageCanvas.textAreas st0)
             (ImageCanvas.textAreas (moveThrough (Some im) moves st)).
Proof.
  revert st. induction moves as [| [qx qy] moves IH]; intros st Hmode Ht Hrel.
  - repeat split. exact Hrel.
  - unfold moveThrough. cbn [fold_left fst snd].
    fold (moveThrough (Some im) moves (ImageCanvas.handleMouseMove (Some im) qx qy st)).
    destruct (ImageCanvas.isResizing (ImageCanvas.dragState st)) eqn:Hr.
    + rewrite (handleMouseMove_resizing im qx qy st Hr Ht).
      match goal with |- context [moveThrough _ _ ?s] => specialize (IH s) end.
      cbn [ImageCanvas.selectedAreaId ImageCanvas.dragState ImageCanvas.scale
           ImageCanvas.textAreas] in IH.
      apply IH; [now rewrite Hr | exact Ht |].
      apply mapSelected_others; [| exact Hrel].
      intros a. pose proof (resizeArea_edges (ImageCanvas.dragState st)
        ((qx - ImageCanvas.startX (ImageCanvas.dragState st)) / ImageCanvas.scale st)
        ((qy - ImageCanvas.startY (ImageCanvas.dragState st)) / ImageCanvas.scale st) a)
        as (Hi & Hs & _). split; assumption.
    + cbn [orb] in Hmode.
      rewrite (handleMouseMove_dragging im qx qy st Hr Hmode Ht).
      match goal with |- context [moveThrough _ _ ?s] => specialize (IH s) end.
      cbn [ImageCanvas.selectedAreaId ImageCanvas.dragState ImageCanvas.scale
           ImageCanvas.textAreas] in IH.
      apply IH; [now rewrite Hr, Hmode | exact Ht |].
      apply mapSelected_others; [| exact Hrel].
      intros a. split; reflexivity.
Qed.

Lemma moveThrough_app (image : option UploadedImage.t) (moves : list (Q * Q)) (qx qy : Q)
  (st : ImageCanvas.State) :
  moveThrough image (moves ++ [(qx, qy)]) st
  = ImageCanvas.handleMouseMove image qx qy (moveThrough image moves st).
Proof. unfold moveThrough. now rewrite fold_left_app. Qed.

(** A handle that is found has one of the eight keys, and there is a
    selection. *)
Lemma findResizeHandle_some (st : ImageCanvas.State) (px py : Q) (handle : string) :
  ImageCanvas.findResizeHandle st px py = Some handle ->
  truthy (Some handle) = true /\ truthy (ImageCanvas.selectedAreaId st) = true.
Proof.
  unfold ImageCanvas.findResizeHandle.
  destruct (truthy (ImageCanvas.selectedAreaId st)); cbn [negb]; [| discriminate].
  destruct (ImageCanvas.findSelected st) as [area |]; [| discriminate].
  destruct (find _ _) as [entry |] eqn:Hfind; [| discriminate].
  intros E. injection E as E. apply find_some in Hfind as [Hin _].
  split; [| reflexivity]. subst handle.
  cbn [ImageCanvas.getResizeHandles In] in Hin.
  repeat destruct Hin as [Hin | Hin]; try contradiction; subst entry; reflexivity.
Qed.

Lemma handleMouseDown_handle (im : UploadedImage.t) (px py : Q) (st : ImageCanvas.State)
  (handle : string) (area : TextArea.t) :
  ImageCanvas.findResizeHandle st px py = Some handle ->
  ImageCanvas.findSelected st = Some area ->
  ImageCanvas.handleMouseDown (Some im) px py st
  = ImageCanvas.mkState (ImageCanvas.textAreas st) (ImageCanvas.selectedAreaId st)
      (ImageCanvas.scale st) (ImageCanvas.isDrawing st) (ImageCanvas.drawStart st)
      (ImageCanvas.currentRect st)
      (ImageCanvas.mkDragState false true px py (TextArea.x area) (TextArea.y area)
         (TextArea.width area) (TextArea.height area) (Some handle)).
Proof.
  intros Hh Hs. destruct (findResizeHandle_some st px py handle Hh) as [T1 T2].
  unfold ImageCanvas.handleMouseDown. cbv zeta. now rewrite Hh, T1, T2, Hs.
Qed.

(** X16. Resizing keeps the opposite edge and the least size: after the
    mouse is pressed on a handle of the selected area and moved, through any
    points, the areas other than the selected ones are as before, and a
    selected area keeps its identifier and style, is at least 20 wide and 20
    high, and has the edge opposite to the handle where the selected area had
    it: its right edge if the key of the handle has a "w" and else its left
    edge, its bottom edge if the key has an "n" and else its top edge. *)
Theorem resize_keeps_opposite_edge (image : option UploadedImage.t) (px py qx qy : Q)
  (moves : list (Q * Q)) (st : ImageCanvas.State) (handle : string) (grabbed : TextArea.t) :
  image <> None ->
  0 < ImageCanvas.scale st ->
  ImageCanvas.findResizeHandle st px py = Some handle ->
  ImageCanvas.findSelected st = Some grabbed ->
  Forall2
    (fun a a' =>
       TextArea.id a' = TextArea.id a /\ TextArea.style a' = TextArea.style a
       /\ (~ isSelected (ImageCanvas.selectedAreaId st) a -> a' = a)
       /\ (isSelected (ImageCanvas.selectedAreaId st) a ->
           bigEnough a'
           /\ (if includes handle "w"
               then TextArea.x a' + TextArea.width a'
                    == TextArea.x grabbed + TextArea.width grabbed
               else TextArea.x a' == TextArea.x grabbed)
           /\ (if includes handle "n"
               then TextArea.y a' + TextArea.height a'
                    == TextArea.y grabbed + TextArea.height grabbed
               else TextArea.y a' == TextArea.y grabbed)))
    (ImageCanvas.textAreas st)
    (ImageCanvas.textAreas
       (moveThrough image (moves ++ [(qx, qy)]) (ImageCanvas.handleMouseDown image px py st))).
Proof.
  intros Himage Hscale Hh Hs. destruct image as [im |]; [| contradiction].
  destruct (findResizeHandle_some st px py handle Hh) as [_ Ht].
  rewrite moveThrough_app, (handleMouseDown_handle im px py st handle grabbed Hh Hs).
  set (st1 := ImageCanvas.mkState _ _ _ _ _ _ _).
  destruct (moveThrough_grabbed im moves st st1) as (Hsel & Hds & Hsc & Hrel);
    [reflexivity | exact Ht | apply Forall2_keeps_refl |].
  cbn [st1 ImageCanvas.selectedAreaId ImageCanvas.dragState ImageCanvas.scale] in Hsel, Hds, Hsc, Hrel.
  rewrite handleMouseMove_resizing; [| now rewrite Hds | now rewrite Hsel].
  cbn [ImageCanvas.textAreas]. rewrite Hsel, Hds, Hsc.
  set (ds := ImageCanvas.mkDragState _ _ _ _ _ _ _ _ _).
  set (dX := _ / _). set (dY := _ / _).
  assert (Hedges : forall a, _) by exact (resizeArea_edges ds dX dY).
  pose proof (mapSelected_others (ImageCanvas.selectedAreaId st)
                (ImageCanvas.resizeArea ds dX dY) _ _
                (fun a => conj (proj1 (Hedges a)) (proj1 (proj2 (Hedges a)))) Hrel) as H1.
  pose proof (mapSelected_selected (ImageCanvas.selectedAreaId st)
                (ImageCanvas.resizeArea ds dX dY)
                (fun _ a' =>
                   bigEnough a'
                   /\ (if includes handle "w"
                       then TextArea.x a' + TextArea.width a'
                            == TextArea.x grabbed + TextArea.width grabbed
                       else TextArea.x a' == TextArea.x grabbed)
                   /\ (if includes handle "n"
                       then TextArea.y a' + TextArea.height a'
                            == TextArea.y grabbed + TextArea.height grabbed
                       else TextArea.y a' == TextArea.y grabbed)) _ _
                (fun a a' _ _ => proj2 (proj2 (Hedges a'))) Hrel) as H2.
  pose proof (Forall2_and _ _ _ _ H1 H2) as H3.
  eapply Forall2_impl; [| exact H3].
  intros a a' [(Hi & Hst & Ho) Hsel']. repeat split; try assumption; now apply Hsel'.
Qed.

Lemma resize_keeps_opposite_edge_witness :
  Forall2
    (fun a a' =>
       TextArea.id a' = TextArea.id a /\ TextArea.style a' = TextArea.style a
       /\ (~ isSelected (Some "area-1"%string) a -> a' = a)
       /\ (isSelected (Some "area-1"%string) a ->
           bigEnough a'
           /\ TextArea.x a' + TextArea.width a'
              == TextArea.x sampleArea + TextArea.width sampleArea
           /\ TextArea.y a' == TextArea.y sampleArea))
    [sampleArea]
    (ImageCanvas.textAreas
       (moveThrough (Some sampleImage) ([(9, 70)] ++ [(300, 5)])
          (ImageCanvas.handleMouseDown (Some sampleImage) 10 60
             (ImageCanvas.mkState [sampleArea] (Some "area-1"%string) 1 false None None
                ImageCanvas.idle)))).
Proof.
  apply (resize_keeps_opposite_edge (Some sampleImage) 10 60 300 5 [(9, 70)]
           (ImageCanvas.mkState [sampleArea] (Some "area-1"%string) 1 false None None
              ImageCanvas.idle) "sw" sampleArea).
  - discriminate.
  - reflexivity.
  - reflexivity.
  - reflexivity.
Defined.

(** The area that is clicked is selected and grabbed for dragging. *)
Lemma handleMouseDown_area (im : UploadedImage.t) (px py : Q) (st : ImageCanvas.State)
  (clicked : TextArea.t) :
  ImageCanvas.findResizeHandle st px py = None ->
  ImageCanvas.findAreaAtPoint st px py = Some clicked ->
  ImageCanvas.handleMouseDown (Some im) px py st
  = ImageCanvas.mkState (ImageCanvas.textAreas st) (Some (TextArea.id clicked))
      (ImageCanvas.scale st) (ImageCanvas.isDrawing st) (ImageCanvas.drawStart st)
      (ImageCanvas.currentRect st)
      (ImageCanvas.mkDragState true false px py (TextArea.x clicked) (TextArea.y clicked)
         (TextArea.width clicked) (TextArea.height clicked) None).
Proof.
  intros Hh Ha. unfold ImageCanvas.handleMouseDown. cbv zeta. rewrite Hh, Ha. reflexivity.
Qed.

(** The last area of a list that passes a test. *)
Lemma find_rev {A : Type} (f : A -> bool) (l : list A) :
  match find f (rev l) with
  | Some a => exists below above : list A,
                l = below ++ a :: above /\ f a = true /\ Forall (fun b => f b = false) above
  | None => Forall (fun b => f b = false) l
  end.
Proof.
  induction l as [| z l IH] using rev_ind; [constructor |].
  rewrite rev_app_distr. cbn [rev app find]. destruct (f z) eqn:Hz.
  - exists l, []. repeat split; [assumption | constructor].
  - destruct (find f (rev l)) as [a |].
    + destruct IH as (below & above & El & Ha & Hab).
      exists below, (above ++ [z]). rewrite El, <- app_assoc. repeat split; [assumption |].
      apply Forall_app. split; [assumption | now constructor].
    + apply Forall_app. split; [assumption | now constructor].
Qed.

(** X17. A click picks the area on top: [findAreaAtPoint] returns the
    last area of the list that the point is in, borders included, so where
    areas overlap the one drawn last is picked; it returns nothing exactly
    when the point is in no area. *)
Theorem findAreaAtPoint_topmost (st : ImageCanvas.State) (px py : Q) :
  match ImageCanvas.findAreaAtPoint st px py with
  | Some area =>
      exists below above : list TextArea.t,
        ImageCanvas.textAreas st = below ++ area :: above
        /\ hits st px py area = true
        /\ Forall (fun other => hits st px py other = false) above
  | None => Forall (fun other => hits st px py other = false) (ImageCanvas.textAreas st)
  end.
Proof.
  unfold ImageCanvas.findAreaAtPoint.
  exact (find_rev (fun area => ImageCanvas.inside px py
                                 (ImageCanvas.scaledArea (ImageCanvas.scale st) area))
                  (ImageCanvas.textAreas st)).
Qed.

Lemma Math_max_zero (v : Q) : 0 <= Math.max 0 v /\ (0 <= v -> Math.max 0 v = v).
Proof.
  unfold Math.max. destruct (Qle_bool 0 v) eqn:E.
  - apply Qle_bool_iff in E. split; [exact E | reflexivity].
  - apply Qle_bool_false_lt in E. split; [lra | intros; lra].
Qed.

Lemma mapSelected_sizes (selected : option string) (change : TextArea.t -> TextArea.t)
  (areas0 areas : list TextArea.t) :
  (forall a, TextArea.width (change a) = TextArea.width a
             /\ TextArea.height (change a) = TextArea.height a) ->
  Forall2 (fun a a' => TextArea.width a' = TextArea.width a
                       /\ TextArea.height a' = TextArea.height a) areas0 areas ->
  Forall2 (fun a a' => TextArea.width a' = TextArea.width a
                       /\ TextArea.height a' = TextArea.height a)
          areas0 (ImageCanvas.mapSelected selected change areas).
Proof.
  intros Hchange Hrel. induction Hrel as [| a a' l l' [Hw Hh] Hrest IH];
    cbn [ImageCanvas.mapSelected map]; constructor; [| exact IH].
  destruct (Hchange a') as [Cw Ch].
  destruct (match selected with Some s => negb (TextArea.id a' =? s)%string | None => true end);
    split; congruence.
Qed.

(** While an area is dragged, mouse moves keep the sizes of the areas. *)
Lemma moveThrough_dragged_sizes (im : UploadedImage.t) (moves : list (Q * Q))
  (st0 st : ImageCanvas.State) :
  ImageCanvas.isResizing (ImageCanvas.dragState st) = false ->
  ImageCanvas.isDragging (ImageCanvas.dragState st) = true ->
  truthy (ImageCanvas.selectedAreaId st) = true ->
  Forall2 (fun a a' => TextArea.width a' = TextArea.width a
                       /\ TextArea.height a' = TextArea.height a)
          (ImageCanvas.textAreas st0) (ImageCanvas.textAreas st) ->
  Forall2 (fun a a' => TextArea.width a' = TextArea.width a
                       /\ TextArea.height a' = TextArea.height a)
          (ImageCanvas.textAreas st0)
          (ImageCanvas.textAreas (moveThrough (Some im) moves st)).
Proof.
  revert st. induction moves as [| [qx qy] moves IH]; intros st Hr Hd Ht Hrel; [exact Hrel |].
  unfold moveThrough. cbn [fold_left fst snd].
  fold (moveThrough (Some im) moves (ImageCanvas.handleMouseMove (Some im) qx qy st)).
  rewrite (handleMouseMove_dragging im qx qy st Hr Hd Ht).
  apply IH; try assumption.
  cbn [ImageCanvas.textAreas]. apply mapSelected_sizes; [| exact Hrel].
  intros a. split; reflexivity.
Qed.

Lemma Forall2_sizes_refl (areas : list TextArea.t) :
  Forall2 (fun a a' => TextArea.width a' = TextArea.width a
                       /\ TextArea.height a' = TextArea.height a) areas areas.
Proof. induction areas; constructor; [split; reflexivity | assumption]. Qed.

(** X18. Dragging moves the clicked area with the mouse: after the mouse
    is pressed on an area, off the handles, and moved, through any points, to
    a last point, the area picked is selected, the areas of other identifiers
    are as before, and an area of the picked identifier keeps its size and
    style and lies where the picked area was, moved by the way of the mouse
    from the press to the last point, divided by the scale; but not to the
    left of 0 or above 0.  There is no bound to the right or below. *)
Theorem drag_moves_clicked_area (image : option UploadedImage.t) (px py qx qy : Q)
  (moves : list (Q * Q)) (st : ImageCanvas.State) (clicked : TextArea.t) :
  image <> None ->
  0 < ImageCanvas.scale st ->
  ImageCanvas.findResizeHandle st px py = None ->
  ImageCanvas.findAreaAtPoint st px py = Some clicked ->
  TextArea.id clicked <> EmptyString ->
  let st' := moveThrough image (moves ++ [(qx, qy)])
               (ImageCanvas.handleMouseDown image px py st) in
  ImageCanvas.selectedAreaId st' = Some (TextArea.id clicked)
  /\ Forall2
       (fun a a' =>
          TextArea.id a' = TextArea.id a /\ TextArea.style a' = TextArea.style a
          /\ (TextArea.id a <> TextArea.id clicked -> a' = a)
          /\ (TextArea.id a = TextArea.id clicked ->
              TextArea.x a'
              = Math.max 0 (TextArea.x clicked + (qx - px) / ImageCanvas.scale st)
              /\ TextArea.y a'
                 = Math.max 0 (TextArea.y clicked + (qy - py) / ImageCanvas.scale st)
              /\ 0 <= TextArea.x a' /\ 0 <= TextArea.y a'
              /\ TextArea.width a' = TextArea.width a
              /\ TextArea.height a' = TextArea.height a))
       (ImageCanvas.textAreas st) (ImageCanvas.textAreas st').
Proof.
  intros Himage Hscale Hh Ha Hid st'. subst st'.
  destruct image as [im |]; [| contradiction].
  assert (Ht : truthy (Some (TextArea.id clicked)) = true).
  { cbn. destruct (TextArea.id clicked); [contradiction | reflexivity]. }
  rewrite moveThrough_app, (handleMouseDown_area im px py st clicked Hh Ha).
  set (st1 := ImageCanvas.mkState _ _ _ _ _ _ _).
  destruct (moveThrough_grabbed im moves st st1) as (Hsel & Hds & Hsc & Hrel);
    [reflexivity | exact Ht | apply Forall2_keeps_refl |].
  pose proof (moveThrough_dragged_sizes im moves st st1 eq_refl eq_refl Ht
                (Forall2_sizes_refl _)) as Hsizes.
  cbn [st1 ImageCanvas.selectedAreaId ImageCanvas.dragState ImageCanvas.scale] in Hsel, Hds, Hsc, Hrel.
  rewrite handleMouseMove_dragging;
    [| now rewrite Hds | now rewrite Hds | now rewrite Hsel].
  cbn [ImageCanvas.textAreas ImageCanvas.selectedAreaId]. rewrite Hsel, Hds, Hsc.
  split; [reflexivity |].
  cbn [ImageCanvas.startX ImageCanvas.startY].
  set (ds := ImageCanvas.mkDragState _ _ _ _ _ _ _ _ _).
  set (dX := _ / _). set (dY := _ / _).
  pose proof (mapSelected_others (Some (TextArea.id clicked))
                (ImageCanvas.dragArea ds dX dY) _ _
                (fun a => conj eq_refl eq_refl) Hrel) as H1.
  pose proof (mapSelected_sizes (Some (TextArea.id clicked))
                (ImageCanvas.dragArea ds dX dY) _ _
                (fun a => conj eq_refl eq_refl) Hsizes) as H2.
  pose proof (mapSelected_selected (Some (TextArea.id clicked))
                (ImageCanvas.dragArea ds dX dY)
                (fun _ a' =>
                   TextArea.x a' = Math.max 0 (TextArea.x clicked + dX)
                   /\ TextArea.y a' = Math.max 0 (TextArea.y clicked + dY)) _ _
                (fun a a' _ _ => conj eq_refl eq_refl) Hrel) as H3.
  pose proof (Forall2_and _ _ _ _ (Forall2_and _ _ _ _ H1 H2) H3) as H4.
  eapply Forall2_impl; [| exact H4].
  intros a a' [[(Hi & Hst & Ho) [Hw Hhh]] Hsel']. unfold isSelected in Ho, Hsel'.
  split; [exact Hi |]. split; [exact Hst |]. split.
  - intros Hne. apply Ho. intros E. injection E as E. congruence.
  - intros He. destruct Hsel' as [Hx Hy]; [now rewrite He |].
    rewrite Hx, Hy. repeat split; try assumption; apply Math_max_zero.
Qed.

Lemma drag_moves_clicked_area_witness :
  let st' := moveThrough (Some sampleImage) ([(40, 40)] ++ [(5, 300)])
               (ImageCanvas.handleMouseDown (Some sampleImage) 50 30
                  (ImageCanvas.mkState [sampleArea] None 1 false None None ImageCanvas.idle)) in
  ImageCanvas.selectedAreaId st' = Some "area-1"%string
  /\ Forall2
       (fun a a' =>
          TextArea.id a' = TextArea.id a /\ TextArea.style a' = TextArea.style a
          /\ (TextArea.id a <> "area-1"%string -> a' = a)
          /\ (TextArea.id a = "area-1"%string ->
              TextArea.x a' = Math.max 0 (10 + (5 - 50) / 1)
              /\ TextArea.y a' = Math.max 0 (10 + (300 - 30) / 1)
              /\ 0 <= TextArea.x a' /\ 0 <= TextArea.y a'
              /\ TextArea.width a' = TextArea.width a
              /\ TextArea.height a' = TextArea.height a))
       [sampleArea] (ImageCanvas.textAreas st').
Proof.
  apply (drag_moves_clicked_area (Some sampleImage) 50 30 5 300 [(40, 40)]
           (ImageCanvas.mkState [sampleArea] None 1 false None None ImageCanvas.idle)
           sampleArea).
  - discriminate.
  - reflexivity.
  - reflexivity.
  - reflexivity.
  - discriminate.
Defined.

(** ** Drawing a new area *)

Lemma spans_move (px py qx qy : Q) :
  spans (Rect.mk (if Qlt_bool 0 (qx - px) then px else qx)
                 (if Qlt_bool 0 (qy - py) then py else qy)
                 (Math.abs (qx - px)) (Math.abs (qy - py))) px py qx qy.
Proof.
  unfold spans. cbn [Rect.x Rect.y Rect.width Rect.height].
  repeat split; try reflexivity.
  - destruct (Qlt_bool 0 (qx - px)) eqn:E;
      [apply Qlt_bool_iff in E | apply Qlt_bool_false in E];
      destruct (Math_min_cases px qx) as [[H Em] | [H Em]]; rewrite Em; lra.
  - destruct (Qlt_bool 0 (qy - py)) eqn:E;
      [apply Qlt_bool_iff in E | apply Qlt_bool_false in E];
      destruct (Math_min_cases py qy) as [[H Em] | [H Em]]; rewrite Em; lra.
Qed.

Lemma spans_press (px py : Q) : spans (Rect.mk px py 0 0) px py px py.
Proof.
  unfold spans, Math.abs. cbn [Rect.x Rect.y Rect.width Rect.height].
  assert (E : forall v : Q, Qabs (v - v) == 0).
  { intros v. assert (Ev : v - v == 0) by lra. rewrite Ev. reflexivity. }
  rewrite !E.
  repeat split; try reflexivity;
    match goal with |- _ == Math.min ?a ?a =>
      destruct (Math_min_cases a a) as [[H Em] | [H Em]]; rewrite Em; reflexivity end.
Qed.

(** While a rectangle is drawn, the mouse moves change the rectangle only,
    which spans from the press to the point reached. *)
Lemma moveThrough_drawing (im : UploadedImage.t) (px py : Q) (moves : list (Q * Q))
  (areas : list TextArea.t) (s : Q) (ds : ImageCanvas.DragState) :
  exists r : Rect.t,
    moveThrough (Some im) moves
      (ImageCanvas.mkState areas None s true (Some (px, py)) (Some (Rect.mk px py 0 0)) ds)
    = ImageCanvas.mkState areas None s true (Some (px, py)) (Some r) ds
    /\ spans r px py (fst (last moves (px, py))) (snd (last moves (px, py))).
Proof.
  induction moves as [| [qx qy] moves IH] using rev_ind.
  - exists (Rect.mk px py 0 0). split; [reflexivity | apply spans_press].
  - destruct IH as (r & Hrun & _). rewrite moveThrough_app, Hrun, last_last.
    eexists. split; [| apply spans_move].
    unfold ImageCanvas.handleMouseMove. cbv zeta.
    cbn [ImageCanvas.dragState ImageCanvas.selectedAreaId truthy ImageCanvas.isDrawing
         ImageCanvas.drawStart ImageCanvas.textAreas ImageCanvas.scale fst snd].
    rewrite !andb_false_r. reflexivity.
Qed.

Lemma handleMouseDown_blank (im : UploadedImage.t) (px py : Q) (st : ImageCanvas.State) :
  ImageCanvas.findResizeHandle st px py = None ->
  ImageCanvas.findAreaAtPoint st px py = None ->
  ImageCanvas.handleMouseDown (Some im) px py st
  = ImageCanvas.mkState (ImageCanvas.textAreas st) None (ImageCanvas.scale st)
      true (Some (px, py)) (Some (Rect.mk px py 0 0)) (ImageCanvas.dragState st).
Proof.
  intros Hh Ha. unfold ImageCanvas.handleMouseDown. cbv zeta. rewrite Hh, Ha. reflexivity.
Qed.

Lemma shrunk_size (v s : Q) : 0 < s -> s <= 1 -> 20 <= v -> 20 <= v / s.
Proof.
  intros Hs Hs1 Hv. apply Qle_trans with v; [exact Hv |].
  apply Qle_shift_div_l; [exact Hs |]. nra.
Qed.

(** X19. Drawing a new area: after the mouse is pressed where there is no
    area and no handle, moved through any points, and released, the
    rectangle between the press and the last point becomes a new area exactly
    when it is at least 20 wide and 20 high on the canvas.  The new area is
    added after the others and selected; it has the identifier made for it
    and the default style, and the rectangle divided by the scale as its
    place and size, so that at a scale of at most 1 it is at least 20 wide
    and high in the image too.  A smaller rectangle, and a click without a
    move, leave the areas as they were and nothing selected. *)
Theorem draw_new_area (image : option UploadedImage.t) (px py : Q) (moves : list (Q * Q))
  (newId : string) (defaultTextStyle : option TextStyle.t) (st : ImageCanvas.State) :
  image <> None ->
  0 < ImageCanvas.scale st ->
  ImageCanvas.findResizeHandle st px py = None ->
  ImageCanvas.findAreaAtPoint st px py = None ->
  let qx := fst (last moves (px, py)) in
  let qy := snd (last moves (px, py)) in
  let st' := ImageCanvas.handleMouseUp newId defaultTextStyle
               (moveThrough image moves (ImageCanvas.handleMouseDown image px py st)) in
  (20 <= Math.abs (qx - px) /\ 20 <= Math.abs (qy - py) ->
   exists area : TextArea.t,
     ImageCanvas.textAreas st' = ImageCanvas.textAreas st ++ [area]
     /\ ImageCanvas.selectedAreaId st' = Some newId
     /\ TextArea.id area = newId
     /\ TextArea.style area = styleOfNewArea defaultTextStyle
     /\ TextArea.x area == Math.min px qx / ImageCanvas.scale st
     /\ TextArea.y area == Math.min py qy / ImageCanvas.scale st
     /\ TextArea.width area == Math.abs (qx - px) / ImageCanvas.scale st
     /\ TextArea.height area == Math.abs (qy - py) / ImageCanvas.scale st
     /\ (ImageCanvas.scale st <= 1 -> bigEnough area))
  /\ (~ (20 <= Math.abs (qx - px) /\ 20 <= Math.abs (qy - py)) ->
      ImageCanvas.textAreas st' = ImageCanvas.textAreas st
      /\ ImageCanvas.selectedAreaId st' = None)
  /\ ImageCanvas.isDrawing st' = false /\ ImageCanvas.currentRect st' = None
  /\ ImageCanvas.dragState st' = ImageCanvas.idle.
Proof.
  intros Himage Hscale Hh Ha qx qy st'. subst st'.
  destruct image as [im |]; [| contradiction].
  rewrite (handleMouseDown_blank im px py st Hh Ha).
  destruct (moveThrough_drawing im px py moves (ImageCanvas.textAreas st)
              (ImageCanvas.scale st) (ImageCanvas.dragState st)) as (r & Hrun & Hx & Hy & Hw & Hhh).
  fold qx qy in Hx, Hy, Hw, Hhh. rewrite Hrun. clear Hrun.
  unfold ImageCanvas.handleMouseUp, ImageCanvas.MIN_AREA_SIZE.
  cbn [ImageCanvas.isDrawing ImageCanvas.currentRect ImageCanvas.textAreas
       ImageCanvas.scale ImageCanvas.selectedAreaId].
  destruct (Qle_bool 20 (Rect.width r)) eqn:Ew; cbn [andb];
    [destruct (Qle_bool 20 (Rect.height r)) eqn:Eh |].
  - apply Qle_bool_iff in Ew, Eh.
    cbn [ImageCanvas.isDrawing ImageCanvas.currentRect ImageCanvas.textAreas
         ImageCanvas.scale ImageCanvas.selectedAreaId ImageCanvas.dragState TextArea.id].
    split; [| split; [| repeat split]].
    + intros _. eexists. split; [reflexivity |].
      cbn [TextArea.id TextArea.style TextArea.x TextArea.y TextArea.width TextArea.height].
      split; [reflexivity |]. split; [reflexivity |]. split; [reflexivity |].
      split; [now rewrite Hx |]. split; [now rewrite Hy |].
      split; [now rewrite Hw |]. split; [now rewrite Hhh |].
      intros Hs1. split; cbn [TextArea.width TextArea.height]; unfold ImageCanvas.MIN_AREA_SIZE;
        apply shrunk_size; assumption.
    + intros Hnot. exfalso. apply Hnot. rewrite <- Hw, <- Hhh. split; assumption.
  - apply Qle_bool_iff in Ew. apply Qle_bool_false_lt in Eh.
    cbn [ImageCanvas.isDrawing ImageCanvas.currentRect ImageCanvas.textAreas
         ImageCanvas.scale ImageCanvas.selectedAreaId ImageCanvas.dragState].
    split; [| split; [| repeat split]].
    + intros [_ H2]. rewrite <- Hhh in H2. lra.
    + intros _. split; reflexivity.
  - apply Qle_bool_false_lt in Ew.
    cbn [ImageCanvas.isDrawing ImageCanvas.currentRect ImageCanvas.textAreas
         ImageCanvas.scale ImageCanvas.selectedAreaId ImageCanvas.dragState].
    split; [| split; [| repeat split]].
    + intros [H1 _]. rewrite <- Hw in H1. lra.
    + intros _. split; reflexivity.
Qed.

Lemma draw_new_area_witness :
  exists area : TextArea.t,
    ImageCanvas.textAreas
      (ImageCanvas.handleMouseUp "area-2" None
         (moveThrough (Some sampleImage) [(50, 20); (110, 60)]
            (ImageCanvas.handleMouseDown (Some sampleImage) 10 10 (emptyEditor (1 # 2)))))
    = [area]
    /\ TextArea.id area = "area-2"%string
    /\ bigEnough area.
Proof.
  pose proof (draw_new_area (Some sampleImage) 10 10 [(50, 20); (110, 60)] "area-2" None
                (emptyEditor (1 # 2))) as H.
  cbv zeta in H.
  destruct H as [Hmake _]; [discriminate | reflexivity | reflexivity | reflexivity |].
  destruct Hmake as (area & Hareas & _ & Hid & _ & _ & _ & _ & _ & Hbig);
    [split; vm_compute; discriminate |].
  exists area. split; [exact Hareas |]. split; [exact Hid |].
  apply Hbig. vm_compute. discriminate.
Defined.

(** ** The least size of the areas *)

Lemma mapSelected_Forall (P : TextArea.t -> Prop) (selected : option string)
  (change : TextArea.t -> TextArea.t) (areas : list TextArea.t) :
  (forall a, P a -> P (change a)) ->
  Forall P areas -> Forall P (ImageCanvas.mapSelected selected change areas).
Proof.
  intros Hchange Hall. unfold ImageCanvas.mapSelected. apply Forall_map.
  eapply Forall_impl; [| exact Hall]. intros a Ha.
  destruct (match selected with Some s => negb (TextArea.id a =? s)%string | None => true end);
    [exact Ha | now apply Hchange].
Qed.

Lemma handleMouseDown_areas (image : option UploadedImage.t) (px py : Q)
  (st : ImageCanvas.State) :
  ImageCanvas.textAreas (ImageCanvas.handleMouseDown image px py st) = ImageCanvas.textAreas st
  /\ ImageCanvas.scale (ImageCanvas.handleMouseDown image px py st) = ImageCanvas.scale st.
Proof.
  unfold ImageCanvas.handleMouseDown. destruct image; [| split; reflexivity]. cbv zeta.
  destruct (if (_ && _)%bool then _ else _); [split; reflexivity |].
  destruct (ImageCanvas.findAreaAtPoint st px py); split; reflexivity.
Qed.

Lemma handleMouseMove_bigEnough (image : option UploadedImage.t) (px py : Q)
  (st : ImageCanvas.State) :
  Forall bigEnough (ImageCanvas.textAreas st) ->
  Forall bigEnough (ImageCanvas.textAreas (ImageCanvas.handleMouseMove image px py st))
  /\ ImageCanvas.scale (ImageCanvas.handleMouseMove image px py st) = ImageCanvas.scale st.
Proof.
  intros Hall. unfold ImageCanvas.handleMouseMove. destruct image; [| now split]. cbv zeta.
  destruct (_ && _)%bool.
  - split; [| reflexivity]. cbn [ImageCanvas.textAreas].
    apply mapSelected_Forall; [| exact Hall]. intros a _. apply resizeArea_edges.
  - destruct (_ && _)%bool.
    + split; [| reflexivity]. cbn [ImageCanvas.textAreas].
      apply mapSelected_Forall; [| exact Hall]. intros a Ha. exact Ha.
    + destruct (if ImageCanvas.isDrawing st then _ else _) as [[sx sy] |]; now split.
Qed.

Lemma handleMouseUp_bigEnough (newId : string) (defaultTextStyle : option TextStyle.t)
  (st : ImageCanvas.State) :
  0 < ImageCanvas.scale st -> ImageCanvas.scale st <= 1 ->
  Forall bigEnough (ImageCanvas.textAreas st) ->
  Forall bigEnough (ImageCanvas.textAreas (ImageCanvas.handleMouseUp newId defaultTextStyle st))
  /\ ImageCanvas.scale (ImageCanvas.handleMouseUp newId defaultTextStyle st)
     = ImageCanvas.scale st.
Proof.
  intros Hs Hs1 Hall. unfold ImageCanvas.handleMouseUp.
  destruct (if ImageCanvas.isDrawing st then _ else _) as [r |]; [| now split].
  destruct (Qle_bool ImageCanvas.MIN_AREA_SIZE (Rect.width r)) eqn:Ew; cbn [andb];
    [| now split].
  destruct (Qle_bool ImageCanvas.MIN_AREA_SIZE (Rect.height r)) eqn:Eh; [| now split].
  apply Qle_bool_iff in Ew, Eh. split; [| reflexivity].
  cbn [ImageCanvas.textAreas]. apply Forall_app. split; [exact Hall |].
  constructor; [| constructor]. unfold bigEnough, ImageCanvas.MIN_AREA_SIZE in *.
  cbn [TextArea.width TextArea.height]. split; apply shrunk_size; assumption.
Qed.

Lemma afterEvent_bigEnough (image : option UploadedImage.t) (st : ImageCanvas.State)
  (e : EditorEvent) :
  0 < ImageCanvas.scale st -> ImageCanvas.scale st <= 1 ->
  Forall bigEnough (ImageCanvas.textAreas st) ->
  Forall bigEnough (ImageCanvas.textAreas (afterEvent image st e))
  /\ ImageCanvas.scale (afterEvent image st e) = ImageCanvas.scale st.
Proof.
  intros Hs Hs1 Hall. destruct e as [px py | px py | newId dts | areaId updates | areaId];
    cbn [afterEvent].
  - destruct (handleMouseDown_areas image px py st) as [Ea Es]. rewrite Ea. now split.
  - now apply handleMouseMove_bigEnough.
  - now apply handleMouseUp_bigEnough.
  - split; [| reflexivity]. cbn [ImageCanvas.textAreas]. unfold handleStyleChange.
    apply Forall_map. eapply Forall_impl; [| exact Hall]. intros a Ha.
    destruct (TextArea.id a =? areaId)%string; exact Ha.
  - split; [| reflexivity]. cbn [ImageCanvas.textAreas]. unfold handleDeleteArea.
    apply Forall_forall. intros a Hin. apply filter_In in Hin as [Hin _].
    revert a Hin. now apply Forall_forall.
Qed.

(** X20. No area is ever smaller than 20 by 20: whatever the user does with
    the mouse, to the styles and by deleting, at a scale that is positive and
    at most 1, areas that are at least 20 wide and high in the image stay so,
    and new ones are so; the scale is not changed.  In particular every area
    made from an empty editor is at least 20 wide and high. *)
Theorem editor_keeps_least_size (image : option UploadedImage.t) (events : list EditorEvent)
  (st : ImageCanvas.State) :
  0 < ImageCanvas.scale st -> ImageCanvas.scale st <= 1 ->
  Forall bigEnough (ImageCanvas.textAreas st) ->
  Forall bigEnough (ImageCanvas.textAreas (afterEvents image events st))
  /\ ImageCanvas.scale (afterEvents image events st) = ImageCanvas.scale st.
Proof.
  revert st. induction events as [| e events IH]; intros st Hs Hs1 Hall; [now split |].
  unfold afterEvents. cbn [fold_left]. fold (afterEvents image events (afterEvent image st e)).
  destruct (afterEvent_bigEnough image st e Hs Hs1 Hall) as [Hall' Escale].
  destruct (IH (afterEvent image st e)) as [Hfinal Efinal];
    [now rewrite Escale | now rewrite Escale | exact Hall' |].
  split; [exact Hfinal | congruence].
Qed.

Lemma editor_keeps_least_size_witness :
  Forall bigEnough
    (ImageCanvas.textAreas
       (afterEvents (Some sampleImage)
          [MouseDown 10 10; MouseMove 110 60; MouseUp "area-2" None;
           MouseDown 60 35; MouseMove 5 5; MouseUp "area-3" None;
           MouseDown 110 60; MouseMove 20 11; MouseUp "area-4" None]
          (emptyEditor (1 # 2))))
  /\ ImageCanvas.scale
       (afterEvents (Some sampleImage)
          [MouseDown 10 10; MouseMove 110 60; MouseUp "area-2" None;
           MouseDown 60 35; MouseMove 5 5; MouseUp "area-3" None;
           MouseDown 110 60; MouseMove 20 11; MouseUp "area-4" None]
          (emptyEditor (1 # 2)))
     = 1 # 2.
Proof.
  apply (editor_keeps_least_size (Some sampleImage)
           [MouseDown 10 10; MouseMove 110 60; MouseUp "area-2" None;
            MouseDown 60 35; MouseMove 5 5; MouseUp "area-3" None;
            MouseDown 110 60; MouseMove 20 11; MouseUp "area-4" None]
           (emptyEditor (1 # 2))).
  - reflexivity.
  - vm_compute. discriminate.
  - constructor.
Defined.

(** * Further properties of the list of names *)

(** ** Trimming *)

Lemma list_ascii_of_revString (s acc : string) :
  list_ascii_of_string (revString s acc)
  = rev (list_ascii_of_string s) ++ list_ascii_of_string acc.
Proof.
  revert acc. induction s as [| c s IH]; intros acc; cbn [revString list_ascii_of_string rev].
  - reflexivity.
  - rewrite IH. cbn [list_ascii_of_string]. now rewrite <- app_assoc.
Qed.

Lemma list_ascii_of_dropWhileStr (p : ascii -> bool) (s : string) :
  list_ascii_of_string (dropWhileStr p s) = dropWhileList p (list_ascii_of_string s).
Proof.
  induction s as [| c s IH]; cbn [dropWhileStr dropWhileList list_ascii_of_string];
    [reflexivity |]. destruct (p c); [exact IH | reflexivity].
Qed.

(** [trim] on the list of characters. *)
Lemma list_ascii_of_trim (s : string) :
  list_ascii_of_string (trim s)
  = rev (dropWhileList isWhiteSpace (rev (dropWhileList isWhiteSpace (list_ascii_of_string s)))).
Proof.
  unfold trim. cbv zeta.
  rewrite list_ascii_of_revString, list_ascii_of_dropWhileStr, list_ascii_of_revString,
    list_ascii_of_dropWhileStr.
  cbn [list_ascii_of_string]. now rewrite !app_nil_r.
Qed.

Lemma dropWhileList_stops (p : ascii -> bool) (l : list ascii) : stopsAt p (dropWhileList p l).
Proof.
  induction l as [| c l IH]; cbn [dropWhileList]; [exact I |].
  destruct (p c) eqn:E; [exact IH | exact E].
Qed.

Lemma dropWhileList_fixed (p : ascii -> bool) (l : list ascii) :
  stopsAt p l -> dropWhileList p l = l.
Proof. destruct l as [| c l]; cbn; [reflexivity |]. now intros ->. Qed.

Lemma dropWhileList_suffix (p : ascii -> bool) (l : list ascii) :
  exists dropped : list ascii, l = dropped ++ dropWhileList p l.
Proof.
  induction l as [| c l [dropped IH]]; [now exists [] |]. cbn [dropWhileList].
  destruct (p c); [| now exists []]. exists (c :: dropped). cbn. now f_equal.
Qed.

(** What is left after the trailing characters are dropped starts as the
    list started. *)
Lemma stopsAt_trimmed_end (p : ascii -> bool) (l : list ascii) :
  stopsAt p l -> stopsAt p (rev (dropWhileList p (rev l))).
Proof.
  intros Hl. destruct (dropWhileList_suffix p (rev l)) as [dropped E].
  apply (f_equal (@rev ascii)) in E. rewrite rev_involutive, rev_app_distr in E.
  destruct (rev (dropWhileList p (rev l))) as [| c kept]; [exact I |].
  rewrite E in Hl. exact Hl.
Qed.

(** Trimming twice is trimming once. *)
Lemma trim_idempotent (s : string) : trim (trim s) = trim s.
Proof.
  assert (H : list_ascii_of_string (trim (trim s)) = list_ascii_of_string (trim s));
    [| apply (f_equal string_of_list_ascii) in H;
       now rewrite !string_of_list_ascii_of_string in H].
  rewrite (list_ascii_of_trim (trim s)), (list_ascii_of_trim s).
  set (lead := dropWhileList isWhiteSpace (list_ascii_of_string s)).
  assert (Hlead : stopsAt isWhiteSpace lead) by apply dropWhileList_stops.
  rewrite (dropWhileList_fixed isWhiteSpace (rev (dropWhileList isWhiteSpace (rev lead))))
    by (now apply stopsAt_trimmed_end).
  rewrite rev_involutive.
  rewrite (dropWhileList_fixed isWhiteSpace (dropWhileList isWhiteSpace (rev lead)))
    by apply dropWhileList_stops.
  reflexivity.
Qed.

Lemma cleanName_trim (raw : string) :
  isEmptyString (trim raw) = false -> cleanName (trim raw).
Proof. intros Hne. split; [apply trim_idempotent | exact Hne]. Qed.

Lemma length_positive (s : string) : Nat.ltb 0 (String.length s) = negb (isEmptyString s).
Proof. destruct s; reflexivity. Qed.

(** ** Names that are entered *)

Lemma parseNames_clean (text : string) : Forall cleanName (NamesInput.parseNames text).
Proof.
  unfold NamesInput.parseNames. apply Forall_forall. intros name Hin.
  apply filter_In in Hin as [Hin Hlen]. apply in_map_iff in Hin as (piece & E & _).
  subst name. rewrite length_positive in Hlen. apply negb_true_iff in Hlen.
  now apply cleanName_trim.
Qed.

Lemma afterNamesEvent_clean (names : list string) (e : NamesEvent) :
  Forall cleanName names -> Forall cleanName (afterNamesEvent names e).
Proof.
  intros Hall. destruct e as [inputValue | index | | clipboard | bulk]; cbn [afterNamesEvent].
  - unfold NamesInput.handleAddName.
    destruct (isEmptyString (trim inputValue)) eqn:E; cbn [negb fst]; [exact Hall |].
    apply Forall_app. split; [exact Hall |]. constructor; [| constructor].
    now apply cleanName_trim.
  - unfold NamesInput.handleRemoveName. apply Forall_app. split.
    + apply Forall_forall. intros n Hin. apply (proj1 (Forall_forall _ _) Hall).
      rewrite <- (firstn_skipn index names). apply in_or_app. now left.
    + apply Forall_forall. intros n Hin. apply (proj1 (Forall_forall _ _) Hall).
      rewrite <- (firstn_skipn (S index) names). apply in_or_app. now right.
  - constructor.
  - unfold NamesInput.handlePaste. destruct clipboard as [text |]; [| exact Hall].
    cbv zeta. destruct (Nat.ltb 0 _); [| exact Hall].
    apply Forall_app. split; [exact Hall | apply parseNames_clean].
  - apply parseNames_clean.
Qed.

(** X21. The list of names holds no blank or untrimmed name: whatever the
    user does (adding a name, removing one, clearing the list, pasting from
    the clipboard, applying the bulk editor), names that are trimmed and not
    empty stay so and new ones are so; in particular every name of a list
    that was made from the empty list is trimmed and not empty. *)
Theorem names_stay_clean (events : list NamesEvent) (names : list string) :
  Forall cleanName names -> Forall cleanName (afterNamesEvents events names).
Proof.
  revert names. induction events as [| e events IH]; intros names Hall; [exact Hall |].
  unfold afterNamesEvents. cbn [fold_left].
  apply IH. now apply afterNamesEvent_clean.
Qed.

Lemma names_stay_clean_witness :
  Forall cleanName
    (afterNamesEvents
       [AddName "  Alice "; AddName "   "; Paste (Some " Bob  "); RemoveName 0;
        ApplyBulk "Carol"]%string []).
Proof.
  apply (names_stay_clean
           [AddName "  Alice "; AddName "   "; Paste (Some " Bob  "); RemoveName 0;
            ApplyBulk "Carol"]%string []).
  constructor.
Defined.

(** ** Clean names in the batch generator *)

Lemma renderedFrom_clean (h : Host) (names : list string) (i : nat) :
  (forall j : nat, hostGetContext h j = true) ->
  Forall cleanName names ->
  renderedFrom h i names = indexedFrom i names.
Proof.
  intros Hctx Hall. revert i. induction Hall as [| raw rest [Htrim Hne] Hrest IH]; intros i.
  - reflexivity.
  - rewrite renderedFrom_cons, indexedFrom_cons, IH. unfold isRendered. cbn [fst snd].
    now rewrite Htrim, Hne, Hctx.
Qed.

Lemma indexedFrom_fst (i : nat) (names : list string) :
  map fst (indexedFrom i names) = seq i (List.length names).
Proof.
  revert i. induction names as [| raw rest IH]; intros i; [reflexivity |].
  rewrite indexedFrom_cons. cbn [map fst List.length seq]. now rewrite IH.
Qed.

Lemma indexedFrom_snd (i : nat) (names : list string) : map snd (indexedFrom i names) = names.
Proof.
  revert i. induction names as [| raw rest IH]; intros i; [reflexivity |].
  rewrite indexedFrom_cons. cbn [map snd]. now rewrite IH.
Qed.

(** X22. For names as the list of names holds them, trimmed and not empty,
    the batch is complete: when the image loads, every canvas yields a
    context and every canvas encodes, [generateImages] returns one image per
    name, in order and under the very name given, and calls the callback
    once per name, with (1, n), (2, n), ..., (n, n). *)
Theorem generateImages_clean_names (h : Host) (imageDataUrl : string)
  (imageWidth imageHeight : Q) (names : list string) (textAreas : list TextArea.t)
  (img : HTMLImageElement) :
  hostLoadImage h imageDataUrl = Some img ->
  (forall j : nat, hostGetContext h j = true) ->
  encodes h ->
  Forall cleanName names ->
  exists results : list GeneratedImage,
    generateImages h imageDataUrl imageWidth imageHeight names textAreas
      (Some logProgress) []
    = (map (fun j => ((Z.of_nat j + 1)%Z, Z.of_nat (List.length names)))
           (seq 0 (List.length names)),
       Resolved results)
    /\ map name results = names
    /\ Forall (isOutputOf h img imageWidth imageHeight textAreas) results.
Proof.
  intros Hload Hctx Henc Hclean.
  destruct (generateImages_rendered h imageDataUrl imageWidth imageHeight names textAreas
              (Some logProgress) [] img Hload Henc) as (results & Hrun & Hnames & Hout).
  exists results. rewrite Hrun, fold_logProgress. cbn [app].
  unfold progressCalls, renderedNames in *.
  rewrite (renderedFrom_clean h names 0 Hctx Hclean) in *.
  rewrite indexedFrom_snd in Hnames.
  split; [| split; assumption]. f_equal.
  rewrite <- (indexedFrom_fst 0 names), map_map. reflexivity.
Qed.

Lemma generateImages_clean_names_witness :
  exists results : list GeneratedImage,
    generateImages linearHost "data:image/png" 200 100
      (afterNamesEvents [AddName "  Alice "; AddName "   "; Paste (Some " Bob  ")]%string [])
      [sampleArea] (Some logProgress) []
    = ([(1, 2); (2, 2)]%Z, Resolved results)
    /\ map name results = ["Alice"; "Bob"]%string
    /\ Forall (isOutputOf linearHost {| src := "data:image/png" |} 200 100 [sampleArea]) results.
Proof.
  apply (generateImages_clean_names linearHost "data:image/png" 200 100
           (afterNamesEvents [AddName "  Alice "; AddName "   "; Paste (Some " Bob  ")]%string [])
           [sampleArea] {| src := "data:image/png" |}).
  - reflexivity.
  - reflexivity.
  - intros canvas. cbn. discriminate.
  - repeat constructor.
Defined.

(** ** The bulk editor *)

(** The pieces of a string that goes on with [piece]. *)
Lemma split_piece (piece rest : string) (inRun : bool) :
  onOneLine piece -> piece <> EmptyString ->
  NamesInput.split (piece ++ rest) inRun
  = match NamesInput.split rest false with
    | first :: pieces => (piece ++ first)%string :: pieces
    | [] => [piece]
    end.
Proof.
  revert inRun. induction piece as [| c piece IH]; intros inRun Hline Hne; [contradiction |].
  unfold onOneLine in Hline. cbn [list_ascii_of_string] in Hline.
  inversion Hline as [| ? ? Hc Hrest]; subst.
  cbn [append NamesInput.split]. rewrite Hc.
  destruct piece as [| d piece].
  - cbn [append]. destruct (NamesInput.split rest false); reflexivity.
  - rewrite (IH false Hrest) by discriminate.
    destruct (NamesInput.split rest false); reflexivity.
Qed.

Lemma split_nonempty (s : string) (inRun : bool) : NamesInput.split s inRun <> [].
Proof.
  revert inRun. induction s as [| c s IH]; intros inRun; cbn [NamesInput.split];
    [discriminate |].
  destruct (NamesInput.isLineBreak c).
  - destruct inRun; [apply IH | discriminate].
  - destruct (NamesInput.split s false); discriminate.
Qed.

Lemma string_app_empty (s : string) : (s ++ EmptyString)%string = s.
Proof. induction s as [| c s IH]; cbn; [reflexivity | now rewrite IH]. Qed.

(** Joining names that are on one line and not empty, and splitting the
    text again. *)
Lemma split_join (names : list string) (inRun : bool) :
  names <> [] ->
  Forall (fun n => onOneLine n /\ n <> EmptyString) names ->
  NamesInput.split (String.concat lineFeed names) inRun = names.
Proof.
  intros Hne Hall. revert inRun. induction Hall as [| n rest [Hline Hn] Hrest IH]; intros inRun;
    [contradiction |].
  destruct rest as [| m rest].
  - cbn [String.concat]. rewrite <- (string_app_empty n) at 1.
    rewrite (split_piece n EmptyString inRun Hline Hn). cbn [NamesInput.split].
    now rewrite string_app_empty.
  - change (String.concat lineFeed (n :: m :: rest))
      with (n ++ (lineFeed ++ String.concat lineFeed (m :: rest)))%string.
    rewrite (split_piece n _ inRun Hline Hn).
    unfold lineFeed at 1. cbn [append NamesInput.split].
    change (NamesInput.isLineBreak (ascii_of_nat 10)) with true. cbv iota.
    rewrite (IH ltac:(discriminate) true). now rewrite string_app_empty.
Qed.

Lemma cleanName_not_empty (n : string) : cleanName n -> n <> EmptyString.
Proof. intros [_ Hne] E. subst n. discriminate. Qed.

(** X23. The bulk editor gives back the names it was opened with: for
    names that are trimmed, not empty and on one line, the text that the
    bulk editor opens with, applied unchanged, is the same list of names. *)
Theorem bulk_editor_round_trip (names : list string) :
  Forall cleanName names ->
  Forall onOneLine names ->
  NamesInput.handleApplyBulkInput (NamesInput.handleOpenBulkModal names) = names.
Proof.
  intros Hclean Hline.
  unfold NamesInput.handleApplyBulkInput, NamesInput.handleOpenBulkModal, NamesInput.parseNames.
  fold lineFeed. destruct names as [| n rest]; [reflexivity |].
  rewrite split_join; [| discriminate |].
  - assert (Htrim : map trim (n :: rest) = n :: rest).
    { clear Hline. induction Hclean as [| a l [Ht _] _ IH]; [reflexivity |].
      cbn [map]. now rewrite Ht, IH. }
    rewrite Htrim. clear Htrim Hline.
    induction Hclean as [| a l [_ Hne] _ IH]; [reflexivity |].
    cbn [filter]. rewrite length_positive, Hne. cbn [negb]. now rewrite IH.
  - apply Forall_forall. intros a Hin. split.
    + revert a Hin. now apply Forall_forall.
    + apply cleanName_not_empty. revert a Hin. now apply Forall_forall.
Qed.

Lemma bulk_editor_round_trip_witness :
  NamesInput.handleApplyBulkInput (NamesInput.handleOpenBulkModal ["Alice"; "Bob Lee"]%string)
  = ["Alice"; "Bob Lee"]%string.
Proof.
  apply (bulk_editor_round_trip ["Alice"; "Bob Lee"]%string).
  - repeat constructor.
  - repeat constructor.
Defined.

(** * Further properties of the application *)

(** ** Generating *)

Lemma last_cons {A : Type} (a d : A) (l : list A) : last (a :: l) d = last l a.
Proof.
  revert a d. induction l as [| b l IH]; intros a d; [reflexivity |].
  change (last (a :: b :: l) d) with (last (b :: l) d). now rewrite (IH b d), (IH b a).
Qed.

(** The callback of [handleGenerate] changes the progress only: after the
    calls, the progress is that of the last call. *)
Lemma fold_setProgress (calls : list (Z * Z)) (st : App.State) :
  fold_left (fun w' args => notify (Some App.setProgress) args w') calls st
  = App.mkState (App.image st) (App.textAreas st) (App.names st) (App.generatedImages st)
      (App.isProcessing st) (last calls (App.progress st)) (App.alerts st).
Proof.
  revert st. induction calls as [| [c t] calls IH]; intros st.
  - now destruct st.
  - cbn [fold_left]. rewrite IH, last_cons. reflexivity.
Qed.

Lemma length_not_zero {A : Type} (l : list A) : l <> [] -> Nat.eqb (List.length l) 0 = false.
Proof. destruct l; [contradiction | reflexivity]. Qed.

(** X24. A run of the generator that succeeds: when there are an image,
    names and text areas, the image loads and every canvas encodes,
    [handleGenerate] ends with one image for each rendered name, in order,
    with processing switched off and without an alert.  The progress shown
    at the end is that of the last rendered name, its index plus one, so it
    stands at the number of names only if the last name is rendered, and at
    0 if none is. *)
Theorem handleGenerate_success (h : Host) (st : App.State) (uploaded : UploadedImage.t)
  (img : HTMLImageElement) :
  App.image st = Some uploaded ->
  App.names st <> [] ->
  App.textAreas st <> [] ->
  hostLoadImage h (UploadedImage.dataUrl uploaded) = Some img ->
  encodes h ->
  let st' := App.handleGenerate h st in
  App.isProcessing st' = false
  /\ App.alerts st' = App.alerts st
  /\ map name (App.generatedImages st') = map snd (renderedNames h (App.names st))
  /\ Forall (isOutputOf h img (UploadedImage.width uploaded) (UploadedImage.height uploaded)
               (App.textAreas st)) (App.generatedImages st')
  /\ App.progress st'
     = last (progressCalls h (App.names st)) (0%Z, Z.of_nat (List.length (App.names st)))
  /\ App.image st' = App.image st /\ App.names st' = App.names st
  /\ App.textAreas st' = App.textAreas st.
Proof.
  intros Himage Hnames Hareas Hload Henc st'. subst st'.
  unfold App.handleGenerate. rewrite Himage, (length_not_zero _ Hnames),
    (length_not_zero _ Hareas). cbn [orb]. cbv zeta.
  match goal with
  | |- context [generateImages h ?u ?w ?hh ?n ?a ?cb ?s] =>
      destruct (generateImages_rendered h u w hh n a cb s img Hload Henc)
        as (results & Hrun & Hres & Hout)
  end.
  rewrite Hrun, fold_setProgress.
  cbn [App.image App.textAreas App.names App.generatedImages App.isProcessing
       App.progress App.alerts].
  repeat split; assumption.
Qed.

Lemma handleGenerate_success_witness :
  let st' := App.handleGenerate linearHost sampleApp in
  App.isProcessing st' = false
  /\ App.alerts st' = []
  /\ map name (App.generatedImages st') = map snd (renderedNames linearHost sampleNames)
  /\ Forall (isOutputOf linearHost {| src := "data:image/png" |} 800 600 [sampleArea])
            (App.generatedImages st')
  /\ App.progress st' = last (progressCalls linearHost sampleNames) (0%Z, 4%Z)
  /\ App.image st' = Some sampleImage /\ App.names st' = sampleNames
  /\ App.textAreas st' = [sampleArea].
Proof.
  apply (handleGenerate_success linearHost sampleApp sampleImage {| src := "data:image/png" |}).
  - reflexivity.
  - discriminate.
  - discriminate.
  - reflexivity.
  - intros canvas. cbn. discriminate.
Defined.

(** X25. A run of the generator that fails leaves no image: when the image
    does not load, or the canvas of some rendered name does not encode,
    [handleGenerate] ends with an empty list of images, so that the images of
    an earlier run are lost too, with processing switched off and with one
    alert added. *)
Theorem handleGenerate_failure (h : Host) (st : App.State) (uploaded : UploadedImage.t) :
  App.image st = Some uploaded ->
  App.names st <> [] ->
  App.textAreas st <> [] ->
  (hostLoadImage h (UploadedImage.dataUrl uploaded) = None
   \/ exists img : HTMLImageElement,
        hostLoadImage h (UploadedImage.dataUrl uploaded) = Some img
        /\ someCanvasFails h img (UploadedImage.width uploaded) (UploadedImage.height uploaded)
             (App.textAreas st) (App.names st)) ->
  let st' := App.handleGenerate h st in
  App.generatedImages st' = []
  /\ App.isProcessing st' = false
  /\ App.alerts st'
     = App.alerts st ++ ["Failed to generate images. Please try again."%string].
Proof.
  intros Himage Hnames Hareas Hfail st'. subst st'.
  unfold App.handleGenerate. rewrite Himage, (length_not_zero _ Hnames),
    (length_not_zero _ Hareas). cbn [orb]. cbv zeta.
  destruct Hfail as [Hload | (img & Hload & k & Hk & Hr & Hblob)].
  - unfold generateImages. rewrite Hload. repeat split.
  - unfold generateImages. rewrite Hload.
    match goal with
    | |- context [generateLoop h img ?w ?hh ?a ?cb ?t 0 ?n [] ?s] =>
        destruct (generateLoop_rejects h img w hh a cb t k n 0 [] s)
          as (done & later & _ & Hrun & _);
          [lia | now rewrite Nat.sub_0_r | now rewrite Nat.sub_0_r |]
    end.
    rewrite Hrun.
    match goal with
    | |- context [fold_left ?f done ?s] =>
        assert (Hfold : fold_left f done s
                        = fold_left (fun w' args => notify (Some App.setProgress) args w')
                            (map (fun p => ((Z.of_nat (fst p) + 1)%Z,
                                            Z.of_nat (List.length (App.names st)))) done) s)
    end.
    { generalize (App.mkState (Some uploaded) (App.textAreas st) (App.names st) [] true
                    (0%Z, Z.of_nat (List.length (App.names st))) (App.alerts st)).
      clear Hrun. induction done as [| p l IHl]; intros w0; [reflexivity |].
      cbn [map fold_left]. apply IHl. }
    rewrite Hfold, fold_setProgress.
    cbn [App.image App.textAreas App.names App.generatedImages App.isProcessing
         App.progress App.alerts].
    repeat split.
Qed.

Lemma handleGenerate_failure_witness :
  let st' := App.handleGenerate noBlobHost sampleApp in
  App.generatedImages st' = []
  /\ App.isProcessing st' = false
  /\ App.alerts st' = [] ++ ["Failed to generate images. Please try again."%string].
Proof.
  apply (handleGenerate_failure noBlobHost sampleApp sampleImage).
  - reflexivity.
  - discriminate.
  - discriminate.
  - right. exists {| src := "data:image/png" |}. split; [reflexivity |].
    exists 0%nat. split; [cbn; lia |]. split; [vm_compute; reflexivity | reflexivity].
Defined.

(** ** Loading a web font *)

Lemma find_none_filter {A : Type} (p : A -> bool) (l : list A) :
  find p l = None -> filter p l = [].
Proof.
  induction l as [| a l IH]; cbn [find filter]; [reflexivity |].
  destruct (p a); [discriminate | exact IH].
Qed.

Lemma find_some_filter {A : Type} (p : A -> bool) (l : list A) (a : A) :
  find p l = Some a -> (1 <= List.length (filter p l))%nat.
Proof.
  induction l as [| b l IH]; cbn [find filter]; [discriminate |].
  destruct (p b); [intros _; cbn; lia | exact IH].
Qed.

(** X26. A style sheet that failed to load is not asked for again: when
    the font has no link yet and its style sheet does not load,
    [loadGoogleFont] rejects, but leaves its link in the head; every later
    call for the font finds the link, asks for nothing, adds nothing and
    resolves, whether the style sheet would load by then or not. *)
Theorem loadGoogleFont_failure_not_retried (linkLoads : string -> bool) (fontName : string)
  (head : list LinkElement) :
  querySelectorFont fontName head = None ->
  linkLoads (googleFontUrl fontName) = false ->
  let link := mkLinkElement "stylesheet" (googleFontUrl fontName) (Some fontName) in
  loadGoogleFont linkLoads fontName head
  = (head ++ [link], Rejected ("Failed to load font: " ++ fontName))
  /\ forall later : string -> bool,
       loadGoogleFont later fontName (head ++ [link]) = (head ++ [link], Resolved tt).
Proof.
  intros Hnone Hfails link. split.
  - unfold loadGoogleFont. rewrite Hnone. cbv zeta. cbn [linkHref]. now rewrite Hfails.
  - intros later. unfold loadGoogleFont.
    destruct (querySelectorFont fontName (head ++ [link])) as [found |] eqn:Hfind;
      [reflexivity |].
    exfalso. unfold querySelectorFont in Hfind.
    apply find_none_filter in Hfind. rewrite filter_app in Hfind.
    apply app_eq_nil in Hfind as [_ Hlast]. cbn [filter link dataFont] in Hlast.
    rewrite String.eqb_refl in Hlast. discriminate.
Qed.

Lemma loadGoogleFont_failure_not_retried_witness :
  let link := mkLinkElement "stylesheet" (googleFontUrl "Noto Sans") (Some "Noto Sans"%string) in
  loadGoogleFont (fun _ => false) "Noto Sans" []
  = ([] ++ [link], Rejected ("Failed to load font: " ++ "Noto Sans"))
  /\ forall later : string -> bool,
       loadGoogleFont later "Noto Sans" ([] ++ [link]) = ([] ++ [link], Resolved tt).
Proof.
  apply (loadGoogleFont_failure_not_retried (fun _ => false) "Noto Sans" []); reflexivity.
Defined.

(** One call: the links of every font are kept, the font asked for has a
    link afterwards, and no font gets a second link. *)
Lemma loadGoogleFont_links (linkLoads : string -> bool) (fontName f : string)
  (head : list LinkElement) :
  (List.length (linksOfFont f head)
   <= List.length (linksOfFont f (fst (loadGoogleFont linkLoads fontName head))))%nat
  /\ (1 <= List.length (linksOfFont fontName (fst (loadGoogleFont linkLoads fontName head))))%nat
  /\ ((List.length (linksOfFont f head) <= 1)%nat ->
      (List.length (linksOfFont f (fst (loadGoogleFont linkLoads fontName head))) <= 1)%nat).
Proof.
  unfold loadGoogleFont.
  destruct (querySelectorFont fontName head) as [found |] eqn:Hfind.
  - cbn [fst]. split; [lia |]. split; [| auto].
    exact (find_some_filter _ _ _ Hfind).
  - cbv zeta.
    assert (Hfst : forall (b : bool) (x : list LinkElement) (o1 o2 : Outcome unit),
               fst (if b then (x, o1) else (x, o2)) = x) by (intros []; reflexivity).
    rewrite Hfst. unfold linksOfFont. rewrite !filter_app, !length_app.
    cbn [filter dataFont]. rewrite String.eqb_refl. cbn [List.length].
    split; [lia |]. split; [lia |].
    destruct (String.eqb fontName f) eqn:E; cbn [List.length]; [| lia].
    apply String.eqb_eq in E. subst f. intros _.
    apply find_none_filter in Hfind. unfold querySelectorFont in Hfind.
    rewrite Hfind. cbn. lia.
Qed.

(** X27. Every font has one link at most: after any fonts are loaded, in
    any order and any number of times, whether their style sheets load or
    not, a head in which no font had more than one link has exactly one link
    for each font that was asked for, and no font has more than one. *)
Theorem loadFonts_one_link_each (linkLoads : string -> bool) (fontNames : list string)
  (head : list LinkElement) :
  (forall f : string, (List.length (linksOfFont f head) <= 1)%nat) ->
  forall f : string,
    (List.length (linksOfFont f (loadFonts linkLoads fontNames head)) <= 1)%nat
    /\ (In f fontNames ->
        List.length (linksOfFont f (loadFonts linkLoads fontNames head)) = 1%nat).
Proof.
  revert head. induction fontNames as [| fontName rest IH]; intros head Hone f.
  - split; [apply Hone | contradiction].
  - unfold loadFonts. cbn [fold_left].
    fold (loadFonts linkLoads rest (fst (loadGoogleFont linkLoads fontName head))).
    set (head1 := fst (loadGoogleFont linkLoads fontName head)).
    assert (Hone1 : forall g : string, (List.length (linksOfFont g head1) <= 1)%nat).
    { intros g. now apply (loadGoogleFont_links linkLoads fontName g head). }
    destruct (IH head1 Hone1 f) as [Hle Hin]. split; [exact Hle |].
    intros [E | Hrest]; [| now apply Hin]. subst f.
    assert (Hgrow : forall names hd,
               (List.length (linksOfFont fontName hd)
                <= List.length (linksOfFont fontName (loadFonts linkLoads names hd)))%nat).
    { clear. induction names as [| n names IHn]; intros hd; [apply le_n |].
      unfold loadFonts. cbn [fold_left].
      fold (loadFonts linkLoads names (fst (loadGoogleFont linkLoads n hd))).
      etransitivity; [| apply IHn].
      now apply (loadGoogleFont_links linkLoads n fontName hd). }
    pose proof (Hgrow rest head1) as Hg.
    pose proof (proj1 (proj2 (loadGoogleFont_links linkLoads fontName fontName head))) as H1.
    fold head1 in H1. lia.
Qed.

Lemma loadFonts_one_link_each_witness :
  (List.length (linksOfFont "Roboto" (loadFonts (fun _ => false)
                                        ["Roboto"; "Noto Sans"; "Roboto"]%string [])) <= 1)%nat
  /\ (In "Roboto"%string ["Roboto"; "Noto Sans"; "Roboto"]%string ->
      List.length (linksOfFont "Roboto" (loadFonts (fun _ => false)
                                           ["Roboto"; "Noto Sans"; "Roboto"]%string []))
      = 1%nat).
Proof.
  apply (loadFonts_one_link_each (fun _ => false) ["Roboto"; "Noto Sans"; "Roboto"]%string []).
  intros f. cbn. lia.
Defined.

(** * The spaced text and the rectangle *)

(** The left edge of every glyph: the start position, moved on by the
    widths of the glyphs before it and one spacing for each. *)
Lemma drawTextWithLetterSpacing_positions (h : Host) (ctx : Ctx) (text : string)
  (tx ty letterSpacing : Q) :
  exists xs : list Q,
    painted (drawTextWithLetterSpacing h ctx text tx ty letterSpacing)
    = painted ctx ++ glyphOps (gstate ctx) (splitChars text) xs ty
    /\ List.length xs = String.length text
    /\ forall k : nat, (k < String.length text)%nat ->
         nth k xs 0 - nth k (charWidths h (font (gstate ctx)) text) 0 / 2
         == tx - snd (totalWidthOf h ctx text letterSpacing) / 2
            + sumQ (firstn k (charWidths h (font (gstate ctx)) text))
            + inject_Z (Z.of_nat k) * letterSpacing.
Proof.
  set (ws := charWidths h (font (gstate ctx)) text).
  assert (Hlen : List.length ws = String.length text).
  { subst ws. unfold charWidths. now rewrite length_map, splitChars_length. }
  unfold drawTextWithLetterSpacing.
  set (ctx1 := fst (totalWidthOf h ctx text letterSpacing)).
  assert (Hstate : gstate ctx1 = gstate ctx /\ painted ctx1 = painted ctx).
  { subst ctx1. unfold totalWidthOf. cbn [fst].
    destruct (measureChars_state h letterSpacing (splitChars text) ctx 0) as (G & P & _).
    now split. }
  destruct Hstate as [Hg Hp].
  destruct (paintChars_cursors h letterSpacing ty (splitChars text) ctx1
              (tx - snd (totalWidthOf h ctx text letterSpacing) / 2))
    as (xs & cs & Lx & Lc & C0 & _ & Hadv & Hpaint & _).
  rewrite splitChars_length in *. rewrite Hg, Hp in *.
  fold (charWidths h (font (gstate ctx)) text) in Hadv. fold ws in Hadv.
  exists xs. split; [exact Hpaint |]. split; [exact Lx |].
  assert (Hclosed := cursors_closed ws cs letterSpacing).
  rewrite Hlen in Hclosed.
  specialize (Hclosed (fun k Hk => proj1 (Hadv k Hk))).
  intros k Hk. destruct (Hadv k Hk) as [_ Hxk].
  rewrite Hxk, (Hclosed k) by lia. rewrite C0. lra.
Qed.

Lemma sumQ_firstn_bounds (ws : list Q) (k : nat) :
  Forall (fun w => 0 <= w) ws ->
  0 <= sumQ (firstn k ws) /\ sumQ (firstn k ws) <= sumQ ws.
Proof.
  intros Hall. revert k. induction Hall as [| w ws Hw Hrest IH]; intros k.
  - destruct k; cbn; split; lra.
  - destruct k as [| k]; cbn [firstn sumQ].
    + destruct (IH 0%nat) as [_ Hs]. cbn [firstn sumQ] in Hs. split; lra.
    + destruct (IH k) as [H0 Hs]. split; lra.
Qed.

(** X28. With a positive letter spacing, the glyphs stay inside the
    rectangle when the measurement is additive: in [drawTextOnCanvas], when
    the size found is not the floor value, no character measures less than
    nothing and, at the font of the size found, the text measures as much as
    its characters together, every glyph that is painted lies within the
    scaled rectangle, 2 units clear of its left and right edges.  The fit
    test of the search measures the text as a whole, the painting measures
    character by character. *)
Theorem drawTextOnCanvas_spaced_inside (h : Host) (ctx : Ctx) (text : string)
  (area : TextArea.t) (scaleX scaleY : Q) :
  let style := TextArea.style area in
  let displayText := applyTextTransform (TextStyle.textTransform style) text in
  let size := snd (calculateOptimalFontSize h ctx displayText
                     (TextArea.width area * scaleX) (TextArea.height area * scaleY) style) in
  let widths := charWidths h (buildFontString style size) displayText in
  0 < TextStyle.letterSpacing style ->
  displayText <> EmptyString ->
  size <> 4%Z ->
  additiveAt h (buildFontString style size) displayText ->
  Forall (fun w => 0 <= w) widths ->
  exists (g : GraphicsState) (xs : list Q) (ty : Q) (rest : list DrawOp),
    painted (drawTextOnCanvas h ctx text area scaleX scaleY)
    = painted ctx ++ glyphOps g (splitChars displayText) xs ty ++ rest
    /\ List.length xs = String.length displayText
    /\ forall k : nat, (k < String.length displayText)%nat ->
         TextArea.x area * scaleX + 2 <= nth k xs 0 - nth k widths 0 / 2
         /\ nth k xs 0 + nth k widths 0 / 2
            <= TextArea.x area * scaleX + TextArea.width area * scaleX - 2.
Proof.
  intros style displayText size widths Hpos Hne Hsize Hadd Hwidths.
  assert (Hls : Qeq_bool (TextStyle.letterSpacing style) 0 = false).
  { destruct (Qeq_bool (TextStyle.letterSpacing style) 0) eqn:E; [| reflexivity].
    apply Qeq_bool_iff in E. lra. }
  destruct (paintSetup_context h ctx text area scaleX scaleY) as [Hp _].
  destruct (paintSetup_gstate h ctx text area scaleX scaleY) as (F1 & _).
  destruct (applyTextShadow_sameButShadow (TextStyle.textShadow (TextArea.style area))
              (paintSetup h ctx text area scaleX scaleY))
    as ((_ & F & _) & _ & Hsp & _).
  destruct (calculateOptimalFontSize_kept h displayText
              (TextArea.width area * scaleX) (TextArea.height area * scaleY)
              style ctx) as [_ [E | [Hfit _]]]; [contradiction |].
  unfold fits in Hfit. apply andb_true_iff in Hfit as [Hw _]. apply Qle_bool_iff in Hw.
  unfold effectiveWidth, padding in Hw. fold size in Hw.
  unfold drawTextOnCanvas. cbn zeta. rewrite restore_painted.
  change (applyTextShadow (TextStyle.textShadow (TextArea.style area)) _)
    with (applyTextShadow (TextStyle.textShadow (TextArea.style area))
            (paintSetup h ctx text area scaleX scaleY)).
  set (c := applyTextShadow _ (paintSetup h ctx text area scaleX scaleY)) in *.
  fold style displayText size. rewrite Hls. cbn [negb].
  set (cx := TextArea.x area * scaleX + TextArea.width area * scaleX / 2).
  set (cy := TextArea.y area * scaleY + TextArea.height area * scaleY / 2).
  assert (Hfont : font (gstate c) = buildFontString style size).
  { rewrite <- F. exact F1. }
  destruct (drawTextWithLetterSpacing_positions h c displayText cx cy
              (TextStyle.letterSpacing style)) as (xs & Hpaint & Hlen & Hleft).
  pose proof (totalWidthOf_sum h c displayText (TextStyle.letterSpacing style) Hne) as Htotal.
  rewrite Hfont in Hleft, Htotal. fold widths in Hleft, Htotal.
  unfold additiveAt in Hadd. fold widths in Hadd.
  assert (Hn : (0 < String.length displayText)%nat)
    by (destruct displayText; [congruence | cbn; lia]).
  assert (Hcount : strLength displayText - 1
                   == inject_Z (Z.of_nat (String.length displayText - 1))).
  { unfold strLength.
    replace (Z.of_nat (String.length displayText))
      with (Z.of_nat (String.length displayText - 1) + 1)%Z by lia.
    rewrite inject_Z_plus. change (inject_Z 1) with 1. lra. }
  rewrite Hadd, Hcount in Hw.
  set (c1 := drawTextWithLetterSpacing h c displayText cx cy (TextStyle.letterSpacing style))
    in *.
  assert (Hrest : exists rest : list DrawOp,
            painted match TextStyle.textDecoration style with
                    | DecorationNone => c1
                    | _ => drawTextDecoration h c1 displayText cx cy size style
                    end = painted c1 ++ rest).
  { destruct (TextStyle.textDecoration style) eqn:Hdec;
      [exists []; now rewrite app_nil_r | | |].
    all: destruct (drawTextDecoration_stroke h c1 displayText cx cy size style)
           as (g & ly & Hline & _); [rewrite Hdec; discriminate |].
    all: eexists; exact Hline. }
  destruct Hrest as (rest & Hrest).
  exists (gstate c), xs, cy, rest. split; [| split; [exact Hlen |]].
  - rewrite Hrest, Hpaint, Hsp, Hp, <- app_assoc. reflexivity.
  - intros k Hk. specialize (Hleft k Hk).
    assert (Hwlen : List.length widths = String.length displayText).
    { subst widths. unfold charWidths. now rewrite length_map, splitChars_length. }
    destruct (sumQ_firstn_bounds widths k Hwidths) as [Hk0 _].
    destruct (sumQ_firstn_bounds widths (S k) Hwidths) as [_ Hk1].
    rewrite (sumQ_firstn_succ widths k) in Hk1 by lia.
    assert (Hkq : 0 <= inject_Z (Z.of_nat k)
                  /\ inject_Z (Z.of_nat k)
                     <= inject_Z (Z.of_nat (String.length displayText - 1))).
    { split; [change 0 with (inject_Z 0) |]; rewrite <- Zle_Qle; lia. }
    set (total := snd (totalWidthOf h c displayText (TextStyle.letterSpacing style))) in *.
    set (kq := inject_Z (Z.of_nat k)) in *.
    set (nq := inject_Z (Z.of_nat (String.length displayText - 1))) in *.
    set (ls := TextStyle.letterSpacing style) in *.
    set (wk := nth k widths 0) in *. set (xk := nth k xs 0) in *.
    set (sk := sumQ (firstn k widths)) in *. set (sall := sumQ widths) in *.
    assert (Hprod : 0 <= kq * ls /\ kq * ls <= nq * ls) by (split; nra).
    assert (Hxk : xk == cx - total / 2 + sk + kq * ls + wk / 2).
    { unfold Qdiv in *. change (/ 2) with (1 # 2) in *. lra. }
    subst cx. unfold Qdiv in *. change (/ 2) with (1 # 2) in *.
    split; lra.
Qed.

Lemma drawTextOnCanvas_spaced_inside_witness :
  exists (g : GraphicsState) (xs : list Q) (ty : Q) (rest : list DrawOp),
    painted (drawTextOnCanvas linearHost newContext "Bob" spacedArea 1 1)
    = painted newContext ++ glyphOps g (splitChars "Bob") xs ty ++ rest
    /\ List.length xs = 3%nat
    /\ forall k : nat, (k < 3)%nat ->
         10 * 1 + 2
         <= nth k xs 0
            - nth k (charWidths linearHost
                       (buildFontString spacedStyle
                          (snd (calculateOptimalFontSize linearHost newContext "Bob"
                                  (100 * 1) (50 * 1) spacedStyle))) "Bob") 0 / 2
         /\ nth k xs 0
            + nth k (charWidths linearHost
                       (buildFontString spacedStyle
                          (snd (calculateOptimalFontSize linearHost newContext "Bob"
                                  (100 * 1) (50 * 1) spacedStyle))) "Bob") 0 / 2
            <= 10 * 1 + 100 * 1 - 2.
Proof.
  apply (drawTextOnCanvas_spaced_inside linearHost newContext "Bob" spacedArea 1 1).
  - reflexivity.
  - discriminate.
  - vm_compute. discriminate.
  - vm_compute. reflexivity.
  - repeat constructor; vm_compute; discriminate.
Defined.

(** Where the measurement is not additive the glyphs can leave the
    rectangle: with fonts in which a text of several characters measures
    nothing, "Alice" passes the fit test at size 38 in an area from 10 to
    110, and its first glyph starts at 1. *)
Example spaced_glyphs_can_leave_the_rectangle :
  snd (calculateOptimalFontSize kernedHost newContext "Alice" 100 50 spacedStyle) = 38%Z
  /\ exists e : Q,
       hd_error (leftEdges kernedHost
                   (painted (drawTextOnCanvas kernedHost newContext "Alice" spacedArea 1 1)))
       = Some e
       /\ e == 1 /\ e < TextArea.x spacedArea.
Proof.
  split; [vm_compute; reflexivity |].
  eexists. split; [vm_compute; reflexivity |]. split; vm_compute; reflexivity.
Qed.

(** Nor do they stay inside with a negative letter spacing, although the
    measurement is additive: the glyphs overlap, and one of them can be
    wider than the text as a whole.  With a spacing of -5 and fonts whose
    "W" is ten times as wide as an "i", "iiWii" passes the fit test at size
    32 in an area from 10 to 40, and its "W" is painted from 9 to 41. *)
Example tightened_glyphs_can_leave_the_rectangle :
  snd (calculateOptimalFontSize unevenHost newContext "iiWii" 30 50 tightStyle) = 32%Z
  /\ additiveAt unevenHost (buildFontString tightStyle 32) "iiWii"
  /\ exists a b : Q,
       nth_error (leftEdges unevenHost
                    (painted (drawTextOnCanvas unevenHost newContext "iiWii" tightArea 1 1)))
                 2 = Some a
       /\ nth_error (rightEdges unevenHost
                       (painted (drawTextOnCanvas unevenHost newContext "iiWii" tightArea 1 1)))
                    2 = Some b
       /\ a == 9 /\ b == 41
       /\ a < TextArea.x tightArea
       /\ TextArea.x tightArea + TextArea.width tightArea < b.
Proof.
  split; [vm_compute; reflexivity |]. split; [vm_compute; reflexivity |].
  do 2 eexists. split; [vm_compute; reflexivity |]. split; [vm_compute; reflexivity |].
  repeat split; vm_compute; reflexivity.
Qed.

(** * The bold button *)

(** X29. The bold button does not switch off a heavy numeric weight: for a
    style whose weight is a number of 700 or more, the button is shown as
    pressed, a click on it sets the weight "bold", so that the button stays
    pressed, and only a second click sets "normal"; the numeric weight is not
    restored by any of the two. *)
Theorem bold_button_stays_pressed (style : TextStyle.t) (weight : Z) :
  parseInt (TextStyle.fontWeight style) = Some weight ->
  (700 <= weight)%Z ->
  TextStylePanel.boldSelected style = true
  /\ TextStyle.fontWeight (clickBold style) = "bold"%string
  /\ TextStylePanel.boldSelected (clickBold style) = true
  /\ TextStyle.fontWeight (clickBold (clickBold style)) = "normal"%string
  /\ TextStylePanel.boldSelected (clickBold (clickBold style)) = false.
Proof.
  intros Hparse Hheavy.
  assert (Hnot : String.eqb (TextStyle.fontWeight style) "bold" = false).
  { destruct (String.eqb (TextStyle.fontWeight style) "bold") eqn:E; [| reflexivity].
    apply String.eqb_eq in E. rewrite E in Hparse. discriminate. }
  assert (Hclick : TextStyle.fontWeight (clickBold style) = "bold"%string).
  { unfold clickBold, TextStylePanel.handleFormatToggle, TextStylePanel.withFontWeight.
    cbn [TextStyle.fontWeight]. now rewrite Hnot. }
  assert (Hagain : TextStyle.fontWeight (clickBold (clickBold style)) = "normal"%string).
  { unfold clickBold at 1.
    unfold TextStylePanel.handleFormatToggle, TextStylePanel.withFontWeight.
    cbn [TextStyle.fontWeight]. now rewrite Hclick. }
  split; [| split; [exact Hclick | split; [| split; [exact Hagain |]]]].
  - unfold TextStylePanel.boldSelected. rewrite Hnot, Hparse. cbn [orb].
    now apply Z.leb_le.
  - unfold TextStylePanel.boldSelected. now rewrite Hclick.
  - unfold TextStylePanel.boldSelected. now rewrite Hagain.
Qed.

Lemma bold_button_stays_pressed_witness :
  TextStylePanel.boldSelected heavyStyle = true
  /\ TextStyle.fontWeight (clickBold heavyStyle) = "bold"%string
  /\ TextStylePanel.boldSelected (clickBold heavyStyle) = true
  /\ TextStyle.fontWeight (clickBold (clickBold heavyStyle)) = "normal"%string
  /\ TextStylePanel.boldSelected (clickBold (clickBold heavyStyle)) = false.
Proof.
  apply (bold_button_stays_pressed heavyStyle 800).
  - reflexivity.
  - lia.
Defined.
